(** * The [car_details] spider: scatter/gather assembly of one car record

    Embedding of [src/sawari/spiders/car_details_spider.py].  A car read from
    [cars_data.json] gets a dictionary [car_data]; the first page is fetched,
    [parse_first_page] dispatches one request per navigation tab and records
    the tab's data key in the set [car_data["_pending_tabs"]]; every tab
    callback ([process_tab]) or errback ([handle_error]) stores its outcome in
    [car_data], removes the key from the set and asks [finalize_car_data]
    whether the merged record can be yielded.

    Python dictionaries are [gmap]s (Python compares dictionaries by content,
    not by insertion order), Python sets are [gset]s, and the one mutable
    object, [car_data], is threaded through a small state/output/exception
    monad.  The constructor [scrapy.Request] is a parameter of the model
    (the class [Scrapy]), and so are the extractors of the tab pages where
    the assembly is concerned.

    The extractors themselves ([_extract_*_data]) and the two spiders that
    come before this one, [cars_spider.py] and [brands_spider.py], are
    embedded after the assembly. *)

From Stdlib Require Import Ascii.
From stdpp Require Import base gmap sets list strings.

#[local] Open Scope string_scope.
#[local] Open Scope list_scope.
#[local] Open Scope nat_scope.
#[local] Set Warnings "-register-all,-clear-no-such-hyp".

(** ** Python values *)

Module Py.

(** A dictionary key or set element of the spider: a [str], or [None] (what
    [.get()] returns for a missing attribute). *)
Inductive pykey := KNone | KStr (s : string).

#[global] Instance pykey_eq_dec : EqDecision pykey.
Proof. solve_decision. Defined.

Definition pykey_to_option (k : pykey) : option string :=
  match k with KNone => None | KStr s => Some s end.

Definition pykey_of_option (o : option string) : pykey :=
  match o with None => KNone | Some s => KStr s end.

Definition pykey_of_to_option (k : pykey)
  : pykey_of_option (pykey_to_option k) = k :=
  match k with KNone => eq_refl | KStr _ => eq_refl end.

#[global] Instance pykey_countable : Countable pykey :=
  inj_countable' pykey_to_option pykey_of_option pykey_of_to_option.

(** The values the spider stores: JSON read from [cars_data.json], what the
    extractors return, the error dictionaries, and the set of pending tabs. *)
Inductive pyval :=
| PNone
| PBool (b : bool)
| PInt (z : Z)
| PStr (s : string)
| PList (l : list pyval)
| PDict (d : gmap pykey pyval)
| PSet (s : gset pykey).

Inductive exn := KeyError | AttributeError | TypeError | ValueError.

(** [bool(v)], as used by [not v] and [if v:]. *)
Definition truthy (v : pyval) : bool :=
  match v with
  | PNone => false
  | PBool b => b
  | PInt z => negb (Z.eqb z 0)
  | PStr s => negb (String.eqb s "")
  | PList l => negb (Nat.eqb (length l) 0)
  | PDict d => negb (Nat.eqb (size d) 0)
  | PSet s => negb (Nat.eqb (size s) 0)
  end.

(** [v == k] for a key [k]. *)
Definition eq_key (k : pykey) (v : pyval) : bool :=
  match k, v with
  | KNone, PNone => true
  | KStr a, PStr b => String.eqb a b
  | _, _ => false
  end.

(** [l.remove(k)] on a list: drops the first element equal to [k]. *)
Fixpoint list_remove (k : pykey) (l : list pyval) : option (list pyval) :=
  match l with
  | [] => None
  | v :: l' => if eq_key k v then Some l' else cons v <$> list_remove k l'
  end.

(** [v.add(k)]: only sets have the method. *)
Definition add (v : pyval) (k : pykey) : exn + pyval :=
  match v with
  | PSet s => inr (PSet ({[k]} ∪ s))
  | _ => inl AttributeError
  end.

(** [v.remove(k)]: [KeyError] on a set that lacks [k], [ValueError] on a list
    that lacks it, [AttributeError] on a value without the method. *)
Definition remove (v : pyval) (k : pykey) : exn + pyval :=
  match v with
  | PSet s => if bool_decide (k ∈ s) then inr (PSet (s ∖ {[k]})) else inl KeyError
  | PList l => match list_remove k l with
               | Some l' => inr (PList l')
               | None => inl ValueError
               end
  | _ => inl AttributeError
  end.

(** [{**v, ...}]: only a dictionary unpacks. *)
Definition mapping (v : pyval) : exn + gmap pykey pyval :=
  match v with
  | PDict d => inr d
  | _ => inl TypeError
  end.

(** [s.replace(old, new)] for a non-empty [old]: every occurrence, left to
    right, without overlap.  [skip] counts the characters of a match still
    to be dropped. *)
Fixpoint replace_from (old new : string) (skip : nat) (s : string) : string :=
  match s with
  | EmptyString => EmptyString
  | String c s' =>
      match skip with
      | S n => replace_from old new n s'
      | O => if String.prefix old s
             then new +:+ replace_from old new (String.length old - 1) s'
             else String c (replace_from old new 0 s')
      end
  end.

Definition replace (old new s : string) : string := replace_from old new 0 s.

(** [old in s] for a non-empty [old]. *)
Fixpoint occurs (old s : string) : bool :=
  match s with
  | EmptyString => false
  | String c s' => String.prefix old s || occurs old s'
  end.

End Py.

Export Py.

Abbreviation dict := (gmap pykey pyval).
Abbreviation K := KStr.

(** ** Requests, responses and what a callback produces *)

(** The callables a request can carry as [callback]. *)
Inductive callback :=
| cb_first_page
| cb_price
| cb_specifications
| cb_variants
| cb_colours
| cb_mileage
| cb_reviews
| cb_gallery
| cb_unknown.

(** A [scrapy.Request] of this spider.  Every request carries the car's
    [car_data] in [meta] (the one dictionary of its entity, threaded as the
    state below), [errback=self.handle_error] and [dont_filter=True];
    [req_url] is the request's [url] attribute, [req_data_key] is
    [meta["data_key"]], absent on the first request. *)
Record request := Request {
  req_url : string;
  req_callback : callback;
  req_data_key : option pykey
}.

(** What the constructor [scrapy.Request(url, ...)] does with its URL
    argument, a [str]: it keeps the URL in a safe form (percent-encoded by
    [safe_url_string]) as the request's [url], and raises [ValueError] when
    that form has no scheme, as for an [href] like ["javascript:void(0)"].
    [request_url url] is the [url] of the request made, and [None] when the
    constructor raises. *)
Class Scrapy := {
  request_url : string → option string
}.

Definition scrapy_Request `{!Scrapy} (url : string) (cb : callback)
    (data_key : option pykey) : exn + request :=
  match request_url url with
  | Some safe_url => inr (Request safe_url cb data_key)
  | None => inl ValueError
  end.

(** One [a] element of the navigation bar: its [id] attribute and its
    [href] resolved by [response.urljoin]. *)
Record tab := Tab {
  tab_id : pykey;
  tab_url : string
}.

(** A response, by what the spider reads from it: its URL, the elements
    that [response.css("ul.flex.gap-9 li a")] selects, and its body. *)
Record response := Response {
  resp_url : string;
  resp_tabs : list tab;
  resp_body : string
}.

Inductive log_entry :=
| error_request_failed (data_key : pykey) (value : string)
| warning_unknown_tab (url : string)
| error_cars_file_missing
| error_invalid_json.

Inductive yielded :=
| YRequest (r : request)
| YItem (item : dict).

(** The outcome of running a generator callback to its end on [car_data]:
    the dictionary as it was left, the log lines written, the objects
    yielded, and the exception that ended it or its return value. *)
Record outcome (A : Type) := Outcome {
  o_data : dict;
  o_log : list log_entry;
  o_out : list yielded;
  o_ret : exn + A
}.
Arguments Outcome {A}.
Arguments o_data {A}.
Arguments o_log {A}.
Arguments o_out {A}.
Arguments o_ret {A}.

Definition M (A : Type) : Type := dict → outcome A.

#[global] Instance M_ret : MRet M := λ A a cd, Outcome cd [] [] (inr a).

#[global] Instance M_bind : MBind M := λ A B f m cd,
  let r := m cd in
  match o_ret r with
  | inl e => Outcome (o_data r) (o_log r) (o_out r) (inl e)
  | inr a =>
      let r' := f a (o_data r) in
      Outcome (o_data r') (o_log r ++ o_log r') (o_out r ++ o_out r') (o_ret r')
  end.

Definition raise {A} (e : exn) : M A := λ cd, Outcome cd [] [] (inl e).
Definition lift {A} (x : exn + A) : M A := λ cd, Outcome cd [] [] x.
Definition log (l : log_entry) : M unit := λ cd, Outcome cd [l] [] (inr ()).
Definition yield (y : yielded) : M unit := λ cd, Outcome cd [] [y] (inr ()).
Definition copy : M dict := λ cd, Outcome cd [] [] (inr cd).

(** [car_data[k]] *)
Definition getitem (k : pykey) : M pyval := λ cd,
  match cd !! k with
  | Some v => Outcome cd [] [] (inr v)
  | None => Outcome cd [] [] (inl KeyError)
  end.

(** [car_data[k] = v] *)
Definition setitem (k : pykey) (v : pyval) : M unit := λ cd,
  Outcome (<[k := v]> cd) [] [] (inr ()).

(** [meta["data_key"]] *)
Definition meta_data_key (req : request) : M pykey :=
  match req_data_key req with
  | Some k => mret k
  | None => raise KeyError
  end.

Definition items (out : list yielded) : list dict :=
  omap (λ y, match y with YItem r => Some r | YRequest _ => None end) out.

Definition requests (out : list yielded) : list request :=
  omap (λ y, match y with YRequest r => Some r | YItem _ => None end) out.

Definition request_key (req : request) : pykey :=
  default KNone (req_data_key req).

(** ** The spider *)

Definition base_info : pykey := K "base_info".
Definition pending_tabs : pykey := K "_pending_tabs".

(** The seven keys that [start_requests] initialises to [None]. *)
Definition tab_keys : list pykey :=
  [K "price"; K "specifications"; K "variants"; K "colours";
   K "mileage"; K "reviews"; K "gallery"].

(** [car_data] as [start_requests] creates it for [car]. *)
Definition new_car_data (car : dict) : dict :=
  <[base_info := PDict car]>
  (<[K "price" := PNone]>
  (<[K "specifications" := PNone]>
  (<[K "variants" := PNone]>
  (<[K "colours" := PNone]>
  (<[K "mileage" := PNone]>
  (<[K "reviews" := PNone]>
  (<[K "gallery" := PNone]>
  (<[pending_tabs := PSet ∅]> ∅)))))))).

(** What opening and decoding [cars_data.json] gives: the file as the cars
    spider writes it holds a list of objects. *)
Inductive cars_file :=
| file_not_found
| json_decode_error
| loaded (cars : list dict).

(** A request of [start_requests] with the [car_data] in its [meta]. *)
Record entity := Entity {
  ent_request : request;
  ent_car_data : dict
}.

(** The loop of [start_requests]: it ends at the first car for which
    [car["detail_url"]], [.replace] or [scrapy.Request] raises, with the
    requests of the cars before it yielded. *)
Fixpoint start_cars `{!Scrapy} (cars : list dict)
  : list entity * option exn :=
  match cars with
  | [] => ([], None)
  | car :: rest =>
      let car_data := new_car_data car in
      match car !! K "detail_url" with
      | None => ([], Some KeyError)
      | Some (PStr detail_url) =>
          match scrapy_Request (Py.replace "/overview" "/price" detail_url)
                               cb_first_page None with
          | inl e => ([], Some e)
          | inr req =>
              let '(es, e) := start_cars rest in
              (Entity req car_data :: es, e)
          end
      | Some _ => ([], Some AttributeError)
      end
  end.

Definition start_requests `{!Scrapy} (f : cars_file)
  : list entity * list log_entry * option exn :=
  match f with
  | file_not_found => ([], [error_cars_file_missing], None)
  | json_decode_error => ([], [error_invalid_json], None)
  | loaded cars => let '(es, e) := start_cars cars in (es, [], e)
  end.

Definition tab_mapping : gmap pykey (pykey * option callback) :=
  list_to_map
    [(K "specs", (K "specifications", Some cb_specifications));
     (K "price", (K "price", Some cb_price));
     (K "variants", (K "variants", Some cb_variants));
     (K "colours", (K "colours", Some cb_colours));
     (K "reviews", (K "reviews", Some cb_reviews));
     (K "gallery", (K "gallery", Some cb_gallery));
     (K "mileage", (K "mileage", Some cb_mileage));
     (K "range", (K "mileage", Some cb_mileage));
     (K "model", (K "base_info", None));
     (K "compare", (K "compare", None))].

(** [tab_mapping.get(tab_id, (tab_id, self.parse_unknown))] *)
Definition tab_mapping_get (tab_id : pykey) : pykey * option callback :=
  default (tab_id, Some cb_unknown) (tab_mapping !! tab_id).

(** The loop of [parse_first_page] over the tabs of the page.  The data key
    enters the pending set before [scrapy.Request] is called: when the
    constructor raises, the key stays in the set and the loop ends there,
    with the requests of the tabs before it yielded. *)
Fixpoint dispatch_tabs `{!Scrapy} (tabs : list tab) : M unit :=
  match tabs with
  | [] => mret ()
  | t :: rest =>
      if bool_decide (tab_id t ∈ [K "model"; K "compare"])
      then dispatch_tabs rest
      else
        let '(data_key, parser) := tab_mapping_get (tab_id t) in
        match parser with
        | Some cb =>
            pending ← getitem pending_tabs;
            pending' ← lift (Py.add pending data_key);
            setitem pending_tabs pending';;
            req ← lift (scrapy_Request (tab_url t) cb (Some data_key));
            yield (YRequest req);;
            dispatch_tabs rest
        | None => dispatch_tabs rest
        end
  end.

(** [finalize_car_data]: reads [car_data] and changes nothing; the record
    is built on the copy [final_data]. *)
Definition finalize_car_data (car_data : dict) : exn + option dict :=
  match car_data !! pending_tabs with
  | None => inl KeyError
  | Some pending =>
      if negb (truthy pending) then
        let final_data := delete pending_tabs car_data in
        match final_data !! base_info with
        | None => inl KeyError
        | Some base =>
            match Py.mapping base with
            | inl e => inl e
            | inr b => inr (Some (delete base_info (final_data ∪ b)))
            end
        end
      else inr None
  end.

(** The tail shared by [process_tab] and [handle_error]:
    [final_data = self.finalize_car_data(car_data)] and
    [if final_data: yield final_data]. *)
Definition yield_if_complete : M unit :=
  car_data ← copy;
  final_data ← lift (finalize_car_data car_data);
  match final_data with
  | Some r => if truthy (PDict r) then yield (YItem r) else mret ()
  | None => mret ()
  end.

(** [process_tab(response, parser_func)], with [parsed] what the call
    [parser_func(response)] gives: the value it returns or the exception it
    raises.  The call comes after the two reads of [meta] and before
    anything is written. *)
Definition process_tab (req : request) (parsed : exn + pyval) : M unit :=
  data_key ← meta_data_key req;
  value ← lift parsed;
  setitem data_key value;;
  pending ← getitem pending_tabs;
  pending' ← lift (Py.remove pending data_key);
  setitem pending_tabs pending';;
  yield_if_complete.

Definition unknown_tab_value : pyval :=
  PDict {[K "error" := PStr "Unknown tab type"]}.

Definition parse_unknown (req : request) (resp : response) : M unit :=
  log (warning_unknown_tab (resp_url resp));;
  process_tab req (inr unknown_tab_value).

Definition error_value (value url : string) : pyval :=
  PDict (<[K "error" := PStr value]> {[K "url" := PStr url]}).

(** [handle_error(failure)], with [value] the text [str(failure.value)]. *)
Definition handle_error (req : request) (value : string) : M unit :=
  data_key ← meta_data_key req;
  log (error_request_failed data_key value);;
  setitem data_key (error_value value (req_url req));;
  pending ← getitem pending_tabs;
  pending' ← lift (Py.remove pending data_key);
  setitem pending_tabs pending';;
  yield_if_complete.

Definition parse_first_page `{!Scrapy} (resp : response) : M unit :=
  dispatch_tabs (resp_tabs resp).

(** [car_data] and the requests after the first page of [car] came back. *)
Definition discovered `{!Scrapy} (car : dict) (resp : response)
  : outcome unit :=
  parse_first_page resp (new_car_data car).

(** The sub-tasks of a car: the tab requests its first page gave rise to,
    their data keys, and [car_data] as assembly starts. *)
Definition sub_tasks `{!Scrapy} (car : dict) (resp : response)
  : list request :=
  requests (o_out (discovered car resp)).

Definition field_keys `{!Scrapy} (car : dict) (resp : response)
  : list pykey :=
  request_key <$> sub_tasks car resp.

Definition assembling `{!Scrapy} (car : dict) (resp : response) : dict :=
  o_data (discovered car resp).

(** What the downloader hands back for a request. *)
Inductive event :=
| Fetched (req : request) (resp : response)
| Failed (req : request) (value : string).

Definition event_request (ev : event) : request :=
  match ev with Fetched req _ | Failed req _ => req end.

Section Spider.

Context {web : Scrapy}.

(** The markup-specific helpers, outside the assembly logic: the seven
    [_extract_*_data] methods, selected by the callback that wraps them;
    each returns a value or raises. *)
Variable extract_data : callback → response → exn + pyval.

(** The engine calls the request's callback on a response and its errback
    on a failure. *)
Definition deliver (ev : event) : M unit :=
  match ev with
  | Fetched req resp =>
      match req_callback req with
      | cb_first_page => parse_first_page resp
      | cb_unknown => parse_unknown req resp
      | cb => process_tab req (extract_data cb resp)
      end
  | Failed req value => handle_error req value
  end.

(** What an event has to store under its data key: the value, or the
    exception that the extractor raises instead. *)
Definition event_result (ev : event) : exn + pyval :=
  match ev with
  | Fetched req resp =>
      match req_callback req with
      | cb_unknown => inr unknown_tab_value
      | cb => extract_data cb resp
      end
  | Failed req value => inr (error_value value (req_url req))
  end.

(** The engine delivers the events one at a time and runs each callback to
    its end before the next (so [parse_first_page] has yielded all its
    requests before a tab event arrives); an exception raised by a callback
    ends that callback only, and [car_data] keeps what the callback had
    written. *)
Fixpoint engine (evs : list event) (cd : dict) : list (outcome unit) :=
  match evs with
  | [] => []
  | ev :: rest => let r := deliver ev cd in r :: engine rest (o_data r)
  end.

End Spider.

(** All records yielded along a run, in order. *)
Definition emitted (trace : list (outcome unit)) : list dict :=
  trace ≫= (λ r, items (o_out r)).

(** [car_data] after a run that started from [cd]. *)
Definition final_data (cd : dict) (trace : list (outcome unit)) : dict :=
  default cd (o_data <$> last trace).

(** The set under [car_data["_pending_tabs"]], when it is one. *)
Definition pending_of (cd : dict) : option (gset pykey) :=
  match cd !! pending_tabs with
  | Some (PSet s) => Some s
  | _ => None
  end.

(** The assembled fields: [car_data] without its two bookkeeping entries. *)
Definition fields_of (cd : dict) : dict :=
  delete base_info (delete pending_tabs cd).

(** ** Reading the callbacks as functions of [car_data] *)

(** The data key and the parser that the loop of [parse_first_page] finds
    for a tab, when it goes on to request the tab. *)
Definition tab_target (t : tab) : option (pykey * callback) :=
  if bool_decide (tab_id t ∈ [K "model"; K "compare"]) then None
  else match tab_mapping_get (tab_id t) with
       | (data_key, Some cb) => Some (data_key, cb)
       | (_, None) => None
       end.

(** The request that the body of the loop yields for one tab, if any. *)
Definition request_of_tab `{!Scrapy} (t : tab) : option request :=
  match tab_target t with
  | Some (data_key, cb) =>
      match request_url (tab_url t) with
      | Some safe_url => Some (Request safe_url cb (Some data_key))
      | None => None
      end
  | None => None
  end.

(** What the loop of [parse_first_page] does on a list of tabs: the
    requests it yields, the keys it adds to the pending set, and the
    exception that ends it, if any. *)
Record found := Found {
  found_requests : list request;
  found_keys : gset pykey;
  found_error : option exn
}.

Fixpoint discovery `{!Scrapy} (tabs : list tab) : found :=
  match tabs with
  | [] => Found [] ∅ None
  | t :: rest =>
      match tab_target t with
      | None => discovery rest
      | Some (data_key, cb) =>
          match request_url (tab_url t) with
          | None => Found [] {[data_key]} (Some ValueError)
          | Some safe_url =>
              let f := discovery rest in
              Found (Request safe_url cb (Some data_key) :: found_requests f)
                    ({[data_key]} ∪ found_keys f)
                    (found_error f)
          end
      end
  end.

(** What [process_tab] and [handle_error] do once [data_key] and the value
    to store are known. *)
Definition resolve (k : pykey) (v : pyval) (cd : dict) : outcome unit :=
  let cd1 := <[k := v]> cd in
  match cd1 !! pending_tabs with
  | None => Outcome cd1 [] [] (inl KeyError)
  | Some p =>
      match Py.remove p k with
      | inl e => Outcome cd1 [] [] (inl e)
      | inr p' =>
          let cd2 := <[pending_tabs := p']> cd1 in
          match finalize_car_data cd2 with
          | inl e => Outcome cd2 [] [] (inl e)
          | inr (Some r) =>
              if truthy (PDict r) then Outcome cd2 [] [YItem r] (inr ())
              else Outcome cd2 [] [] (inr ())
          | inr None => Outcome cd2 [] [] (inr ())
          end
      end
  end.

#[global] Arguments error_value : simpl never.
#[global] Arguments unknown_tab_value : simpl never.
#[global] Arguments new_car_data : simpl never.
#[global] Arguments tab_mapping : simpl never.

(** The record [finalize_car_data] builds when nothing is pending. *)
Definition merged_record (cd b : dict) : dict :=
  delete base_info (delete pending_tabs cd ∪ b).

Definition is_dict (v : pyval) : Prop := ∃ d, v = PDict d.

Definition event_key (ev : event) : pykey := request_key (event_request ev).

(** The event answers a request that [parse_first_page] can yield. *)
Definition tab_event `{!Scrapy} (ev : event) : Prop :=
  ∃ t, request_of_tab t = Some (event_request ev).

(** The event has a value to store: it is a failure, or a response whose
    extractor returns. *)
Definition returns (extract_data : callback → response → exn + pyval)
    (ev : event) : Prop :=
  ∃ v, event_result extract_data ev = inr v.

(** [car_data] as the callbacks keep it: the pending entry is the set
    (or a dictionary written over it by a tab whose id is
    ["_pending_tabs"]), [base_info] holds a dictionary, and the seven
    initialised keys are present. *)
Record ok (cd : dict) : Prop := {
  ok_pending : is_Some (pending_of cd) ∨ ∃ d, cd !! pending_tabs = Some (PDict d);
  ok_base : ∃ b, cd !! base_info = Some (PDict b);
  ok_keys : ∀ k, k ∈ tab_keys → is_Some (cd !! k)
}.

(** Nothing can be yielded any more: nothing is pending, or the pending
    entry is no longer a set. *)
Definition settled (cd : dict) : Prop :=
  pending_of cd = Some ∅ ∨ pending_of cd = None.

(** The values that [parse_unknown] and [handle_error] store. *)
Definition is_placeholder (v : pyval) : Prop :=
  v = unknown_tab_value ∨ ∃ value url, v = error_value value url.

(** No pending key holds a value yet: its entry is absent or [None]. *)
Definition pending_unset (cd : dict) : Prop :=
  ∀ s k, pending_of cd = Some s → k ∈ s →
         fields_of cd !! k = None ∨ fields_of cd !! k = Some PNone.

(** The base dictionary has no ["_pending_tabs"] entry, and the initialised
    keys that no tab request writes to are still [None]. *)
Definition untouched (keys : list pykey) (cd : dict) : Prop :=
  (∀ b, cd !! base_info = Some (PDict b) → b !! pending_tabs = None) ∧
  (∀ k, k ∈ tab_keys → k ∉ keys → cd !! k = Some PNone).

(** ** Further notions for the properties of the spider *)

(** The request and [car_data] that [start_requests] makes for [car] when
    [scrapy.Request] holds the URL [url]. *)
Definition start_entity (car : dict) (url : string) : entity :=
  Entity (Request url cb_first_page None) (new_car_data car).

Definition has_detail_url (car : dict) : Prop :=
  ∃ detail_url, car !! K "detail_url" = Some (PStr detail_url).

(** The car has a string under ["detail_url"], and [scrapy.Request] accepts
    the price URL made from it, which it holds as [url]. *)
Definition price_url `{!Scrapy} (car : dict) (url : string) : Prop :=
  ∃ detail_url,
    car !! K "detail_url" = Some (PStr detail_url) ∧
    request_url (Py.replace "/overview" "/price" detail_url) = Some url.

Definition startable `{!Scrapy} (car : dict) : Prop :=
  ∃ url, price_url car url.

(** The exception that ends [start_requests] at a car that is not
    [startable]. *)
Definition start_error (car : dict) : exn :=
  match car !! K "detail_url" with
  | None => KeyError
  | Some (PStr _) => ValueError
  | Some _ => AttributeError
  end.

(** The data key that [tab_mapping] pairs with each tab parser. *)
Definition callback_key (cb : callback) : option pykey :=
  match cb with
  | cb_price => Some (K "price")
  | cb_specifications => Some (K "specifications")
  | cb_variants => Some (K "variants")
  | cb_colours => Some (K "colours")
  | cb_mileage => Some (K "mileage")
  | cb_reviews => Some (K "reviews")
  | cb_gallery => Some (K "gallery")
  | cb_first_page | cb_unknown => None
  end.

(** The log lines of the callback that an event starts. *)
Definition event_log (ev : event) : list log_entry :=
  match ev with
  | Fetched req resp =>
      match req_callback req with
      | cb_unknown => [warning_unknown_tab (resp_url resp)]
      | _ => []
      end
  | Failed req value => [error_request_failed (request_key req) value]
  end.


(** How the callback of an event ends when the event's data key is
    pending: with the exception of its extractor, if that raises. *)
Definition callback_end (extract_data : callback → response → exn + pyval)
    (ev : event) : exn + unit :=
  match event_result extract_data ev with
  | inl e => inl e
  | inr _ => inr ()
  end.

(** How it ends once the pending set has been overwritten. *)
Definition callback_end_dead
    (extract_data : callback → response → exn + pyval)
    (ev : event) : exn + unit :=
  match event_result extract_data ev with
  | inl e => inl e
  | inr _ => inl AttributeError
  end.

(** ** Generators that stop at an exception *)

(** A [for] loop that yields [f x] for each [x], until [f] raises. *)
Fixpoint yield_each {A B} (f : A → exn + B) (l : list A)
  : list B * option exn :=
  match l with
  | [] => ([], None)
  | x :: l' =>
      match f x with
      | inl e => ([], Some e)
      | inr y => let '(ys, e) := yield_each f l' in (y :: ys, e)
      end
  end.

(** [x.strip()] and the like on what [.get()] returned: [None] has no
    methods. *)
Definition method (f : string → string) (x : option string) : exn + string :=
  match x with
  | Some s => inr (f s)
  | None => inl AttributeError
  end.

(** [bool(x)] for what [.get()] returned. *)
Definition truthy_text (x : option string) : bool :=
  match x with
  | Some s => negb (String.eqb s "")
  | None => false
  end.

Definition text_value (x : option string) : pyval :=
  match x with
  | Some s => PStr s
  | None => PNone
  end.

(** ** The cars spider ([cars_spider.py]) *)

Module CarsSpider.

(** A brand link of the start page: the text of its [span] and its [href]
    attribute, each absent or a string. *)
Record brand_card := BrandCard {
  brand_span : option string;
  brand_href : option string
}.

(** A [div.model-card], by what the selectors of [parse_cars] give on it. *)
Record car_card := CarCard {
  card_href : option string;
  card_name : option string;
  card_price : option string;
  card_specs : list (option string * option string);
  card_features : list string;
  card_images : list string;
  card_video : option string
}.

Inductive yielded :=
| YRequest (url : string) (brand_name : string)
| YItem (item : dict).

Section Parse.

(** [str.strip], [str.lower] and [response.urljoin] (which returns the
    base URL for [None]). *)
Context {web : Scrapy}.
Variable strip lower : string → string.
Variable urljoin : option string → string.

(** [response.follow(href, ...)] joins [href] with the base URL of the page
    and makes a [scrapy.Request] with the encoding of the page: the URL
    which that request holds, or [None] when [scrapy.Request] rejects the
    joined URL with [ValueError]. *)
Variable follow_url : string → option string.

(** The body of the loop of [parse]: the request for one brand link, with
    the URL as [scrapy.Request] holds it, or the exception raised. *)
Definition brand_request (card : brand_card) : exn + yielded :=
  match method strip (brand_span card) with
  | inl e => inl e
  | inr brand_name =>
      match brand_href card with
      | None => inl KeyError
      | Some href =>
          match request_url (urljoin (Some href)) with
          | Some url => inr (YRequest url brand_name)
          | None => inl ValueError
          end
      end
  end.

(** [parse]: one request per brand link. *)
Definition parse (cards : list brand_card) : list yielded * option exn :=
  yield_each brand_request cards.

(** A brand link with a [span] text and an [href] whose joined URL
    [scrapy.Request] accepts. *)
Definition brand_link_ok (card : brand_card) : Prop :=
  is_Some (brand_span card) ∧
  ∃ href, brand_href card = Some href ∧
          is_Some (request_url (urljoin (Some href))).

(** The loop that fills [specs_data]. *)
Fixpoint specs_loop (specs : list (option string * option string))
    (specs_data : dict) : exn + dict :=
  match specs with
  | [] => inr specs_data
  | (label, value) :: rest =>
      match method strip label with
      | inl e => inl e
      | inr label =>
          match method strip value with
          | inl e => inl e
          | inr value =>
              specs_loop rest (<[K (lower label) := PStr value]> specs_data)
          end
      end
  end.

Definition car_item (brand_name : string) (card : car_card) : exn + dict :=
  let detail_url := urljoin (card_href card) in
  match method strip (card_name card) with
  | inl e => inl e
  | inr car_name =>
      match method strip (card_price card) with
      | inl e => inl e
      | inr price_range =>
          match specs_loop (card_specs card) ∅ with
          | inl e => inl e
          | inr specs_data =>
              inr (<[K "brand" := PStr brand_name]>
                   (<[K "name" := PStr car_name]>
                   (<[K "detail_url" := PStr detail_url]>
                   (<[K "price_range" := PStr price_range]>
                   (<[K "specifications" := PDict specs_data]>
                   (<[K "key_features" := PList (PStr <$> card_features card)]>
                   (<[K "images" := PList (PStr <$> card_images card)]>
                   (<[K "video_thumbnail" := text_value (card_video card)]>
                      ∅))))))))
          end
      end
  end.

(** What follows the loop of [parse_cars]: [if next_page:] is false when
    the page has no next-page link and when its [href] is empty. *)
Definition follow_next_page (brand_name : string)
    (next_page : option string) : list yielded * option exn :=
  match next_page with
  | Some href =>
      if String.eqb href "" then ([], None)
      else
        match follow_url href with
        | Some url => ([YRequest url brand_name], None)
        | None => ([], Some ValueError)
        end
  | None => ([], None)
  end.

(** [parse_cars], given [response.meta.get] of ["brand_name"], the model
    cards of the page and the [href] of its next-page link. *)
Definition parse_cars (meta_brand_name : option string)
    (cards : list car_card) (next_page : option string)
  : list yielded * option exn :=
  match meta_brand_name with
  | None => ([], Some KeyError)
  | Some brand_name =>
      let '(cars, e) := yield_each (car_item brand_name) cards in
      match e with
      | Some _ => (YItem <$> cars, e)
      | None =>
          let '(next, e') := follow_next_page brand_name next_page in
          ((YItem <$> cars) ++ next, e')
      end
  end.

End Parse.

Definition items (out : list yielded) : list dict :=
  omap (λ y, match y with YItem r => Some r | YRequest _ _ => None end) out.

(** The keys of an item of [parse_cars]. *)
Definition item_keys : gset pykey :=
  list_to_set [K "brand"; K "name"; K "detail_url"; K "price_range";
               K "specifications"; K "key_features"; K "images";
               K "video_thumbnail"].


End CarsSpider.

(** ** The brands spider ([brands_spider.py]) *)

Module BrandsSpider.

Record brand_card := BrandCard {
  brand_span : option string;
  brand_href : option string;
  brand_logo : option string
}.

Section Parse.

Variable strip : string → string.

Definition brand_item (card : brand_card) : exn + dict :=
  match method strip (brand_span card) with
  | inl e => inl e
  | inr name =>
      match brand_href card with
      | None => inl KeyError
      | Some href =>
          inr (<[K "name" := PStr name]>
               (<[K "url" := PStr href]>
               (<[K "logo" := text_value (brand_logo card)]> ∅)))
      end
  end.

Definition parse (cards : list brand_card) : list dict * option exn :=
  yield_each brand_item cards.

End Parse.

End BrandsSpider.

(** ** The extractors of the details spider *)

(** [t in s] on strings. *)
Definition str_in (t s : string) : bool :=
  if String.eqb t "" then true else occurs t s.

(** [s.split(sep)[0]] and [s.split(sep)[-1]] for a one-character [sep]. *)
Fixpoint before (sep : Ascii.ascii) (s : string) : string :=
  match s with
  | EmptyString => EmptyString
  | String c s' => if Ascii.eqb c sep then EmptyString
                   else String c (before sep s')
  end.

Fixpoint has_char (sep : Ascii.ascii) (s : string) : bool :=
  match s with
  | EmptyString => false
  | String c s' => Ascii.eqb c sep || has_char sep s'
  end.

Fixpoint after_last (sep : Ascii.ascii) (s : string) : string :=
  match s with
  | EmptyString => EmptyString
  | String c s' =>
      if has_char sep s' then after_last sep s'
      else if Ascii.eqb c sep then s' else String c s'
  end.

(** [t in container] and [container[t] = v] for a string [t]. *)
Definition contains (container : pyval) (t : string) : exn + bool :=
  match container with
  | PDict d => inr (bool_decide (is_Some (d !! K t)))
  | PSet s => inr (bool_decide (K t ∈ s))
  | PList l => inr (existsb (Py.eq_key (K t)) l)
  | PStr s => inr (str_in t s)
  | _ => inl TypeError
  end.

Definition setitem_in (container : pyval) (t : string) (v : pyval)
  : exn + pyval :=
  match container with
  | PDict d => inr (PDict (<[K t := v]> d))
  | _ => inl TypeError
  end.

Section Extractors.

(** [str.strip] and [str.lower]. *)
Variable strip lower : string → string.

(** [extract_spec_section]: the rows of the section's table, each with the
    text of its first and of its last cell. *)
Fixpoint spec_rows (rows : list (option string * option string))
    (specs : dict) : dict :=
  match rows with
  | [] => specs
  | (key, value) :: rest =>
      match key, value with
      | Some k, Some v =>
          if truthy_text key && truthy_text value
          then spec_rows rest (<[K (strip k) := PStr (strip v)]> specs)
          else spec_rows rest specs
      | _, _ => spec_rows rest specs
      end
  end.

Definition extract_spec_section
    (rows : list (option string * option string)) : dict :=
  spec_rows rows ∅.

(** [_extract_specifications_data], given the rows of the four tables. *)
Definition _extract_specifications_data
    (section_rows : string → list (option string * option string)) : pyval :=
  PDict (<[K "engine" := PDict (extract_spec_section (section_rows "engine"))]>
        (<[K "dimensions" :=
             PDict (extract_spec_section (section_rows "dimensions"))]>
        (<[K "transmission" :=
             PDict (extract_spec_section (section_rows "transmission"))]>
        (<[K "features" :=
             PDict (extract_spec_section (section_rows "features"))]> ∅)))).

(** [_extract_mileage_data]. *)
Definition mileage_init : dict :=
  <[K "petrol" := PDict (<[K "manual" := PNone]> {[K "automatic" := PNone]})]>
  (<[K "cng" := PDict {[K "manual" := PNone]}]>
  (<[K "overview" := PNone]>
  (<[K "fuel_tank_capacity" := PNone]> ∅))).

(** The fuel type that a row is filed under. *)
Definition fuel_type_of (fuel_cell : string) : string :=
  let fuel_type := strip (lower fuel_cell) in
  if occurs "(" fuel_type then strip (before "("%char fuel_type)
  else fuel_type.

(** One row of the table: the texts of its fuel, transmission and mileage
    cells ([""] for a missing cell). *)
Definition mileage_row (row : string * string * string)
    (mileage_data : dict) : exn + dict :=
  let '(fuel_cell, transmission, mileage) := row in
  if truthy (PStr fuel_cell) && truthy (PStr transmission)
     && truthy (PStr mileage)
  then
    let fuel_type := fuel_type_of fuel_cell in
    let transmission := strip (lower transmission) in
    match mileage_data !! K fuel_type with
    | None => inr mileage_data
    | Some sub =>
        match contains sub transmission with
        | inl e => inl e
        | inr false => inr mileage_data
        | inr true =>
            match setitem_in sub transmission (PStr (strip mileage)) with
            | inl e => inl e
            | inr sub' => inr (<[K fuel_type := sub']> mileage_data)
            end
        end
    end
  else inr mileage_data.

Fixpoint mileage_rows (rows : list (string * string * string))
    (mileage_data : dict) : exn + dict :=
  match rows with
  | [] => inr mileage_data
  | row :: rest =>
      match mileage_row row mileage_data with
      | inl e => inl e
      | inr mileage_data' => mileage_rows rest mileage_data'
      end
  end.

Definition _extract_mileage_data (overview : string)
    (rows : list (string * string * string)) : exn + dict :=
  mileage_rows rows
    (if truthy (PStr overview)
     then <[K "overview" := PStr (strip overview)]> mileage_init
     else mileage_init).

(** [_extract_colours_data]: a [div[data-selected]] by the text of its [p],
    its [id], and the [src] and [srcset] of its image ([""] when absent). *)
Record colour_section := ColourSection {
  colour_p : string;
  colour_id : string;
  colour_src : string;
  colour_srcset : string
}.

Definition colour_entry (sec : colour_section) : option pyval :=
  let name := strip (colour_p sec) in
  let name := if truthy (PStr name) then name else strip (colour_id sec) in
  let img_url := colour_src sec in
  let srcset := colour_srcset sec in
  let hq_url :=
    if truthy (PStr srcset)
    then strip (before " "%char (after_last ","%char srcset))
    else "" in
  if truthy (PStr name) && truthy (PStr img_url)
  then Some (PDict (<[K "name" := PStr name]>
                   (<[K "image" := PStr img_url]>
                   (<[K "hq_image" :=
                        PStr (if truthy (PStr hq_url) then hq_url
                              else img_url)]> ∅))))
  else None.

Definition _extract_colours_data (sections : list colour_section) : pyval :=
  PList (omap colour_entry sections).

End Extractors.

(** The shape that [_extract_mileage_data] gives its result. *)
Definition mileage_keys : gset pykey :=
  {[K "petrol"; K "cng"; K "overview"; K "fuel_tank_capacity"]}.

Definition mileage_shape (overview : pyval) (mileage_data : dict) : Prop :=
  dom mileage_data = mileage_keys ∧
  mileage_data !! K "fuel_tank_capacity" = Some PNone ∧
  mileage_data !! K "overview" = Some overview ∧
  (∃ d, mileage_data !! K "petrol" = Some (PDict d) ∧
        dom d = {[K "manual"; K "automatic"]}) ∧
  (∃ d, mileage_data !! K "cng" = Some (PDict d) ∧ dom d = {[K "manual"]}).

(** The value of [overview] in the result, for the overview text of the
    page ([""] when the page has none). *)
Definition overview_value (strip : string → string) (overview : string)
  : pyval :=
  if truthy (PStr overview) then PStr (strip overview) else PNone.

(** The three places of the result that a table row can fill. *)
Definition mileage_slots : list (string * string) :=
  [("petrol", "manual"); ("petrol", "automatic"); ("cng", "manual")].

(** A row with a text in each of its three cells. *)
Definition filled_row (row : string * string * string) : Prop :=
  row.1.1 ≠ "" ∧ row.1.2 ≠ "" ∧ row.2 ≠ "".

Module DemoMileage.

Definition overview : string := "Up to 33 km/kg".

Definition petrol_row : string * string * string :=
  ("petrol", "manual", "24.3 kmpl").
Definition diesel_row : string * string * string :=
  ("diesel", "manual", "20 kmpl").
Definition cng_row : string * string * string :=
  ("cng", "manual", "33 km/kg").
Definition tank_row : string * string * string :=
  ("fuel_tank_capacity", "manual", "27 litres").

Definition rows : list (string * string * string) :=
  [petrol_row; diesel_row; cng_row].

(** What [_extract_mileage_data] returns for [overview] and [rows]. *)
Definition result : dict :=
  <[K "petrol" := PDict (<[K "manual" := PStr "24.3 kmpl"]>
                          {[K "automatic" := PNone]})]>
  (<[K "cng" := PDict {[K "manual" := PStr "33 km/kg"]}]>
  (<[K "overview" := PStr "Up to 33 km/kg"]>
  (<[K "fuel_tank_capacity" := PNone]> ∅))).

End DemoMileage.

(** ** The price and gallery extractors of the details spider *)

(** [s.split(sep)] for a one-character [sep]. *)
Fixpoint split_char (sep : Ascii.ascii) (s : string) : list string :=
  match s with
  | EmptyString => [EmptyString]
  | String c s' =>
      if Ascii.eqb c sep then EmptyString :: split_char sep s'
      else match split_char sep s' with
           | p :: ps => String c p :: ps
           | [] => [String c EmptyString]
           end
  end.

(** A [for] loop over [l] whose body updates a dictionary and may raise. *)
Fixpoint for_each {A} (body : dict → A → exn + dict) (l : list A)
    (d : dict) : exn + dict :=
  match l with
  | [] => inr d
  | x :: rest =>
      match body d x with
      | inl e => inl e
      | inr d' => for_each body rest d'
      end
  end.

Section Price.

(** [str.strip], [str.lower] and the removal of the currency mark,
    [s.replace(mark, "")]. *)
Variable strip lower remove_mark : string → string.

Definition price_init : dict :=
  <[K "ex_showroom" := PNone]>
  (<[K "rto" := PNone]>
  (<[K "insurance" := PNone]>
  (<[K "other_charges" :=
       PDict (<[K "total" := PNone]> {[K "breakdown" := PDict ∅]})]>
  (<[K "on_road" := PNone]>
  {[K "city" := PStr "New Delhi"]})))).

Definition price_mapping : list (string * string) :=
  [("price-ex-showroom", "ex_showroom");
   ("price-rto", "rto");
   ("price-insurance", "insurance");
   ("price-other-charges", "other_charges.total");
   ("price-on-road", "on_road")].

(** One turn of the first loop; [values html_id] is what [.get()] gives for
    the value element of the [div] with that id. *)
Definition price_item (values : string → option string)
    (price_data : dict) (entry : string * string) : exn + dict :=
  let '(html_id, data_key) := entry in
  match values html_id with
  | Some value =>
      if truthy (PStr value) then
        let value := strip (remove_mark (strip value)) in
        if occurs "." data_key then
          match split_char "."%char data_key with
          | [main_key; sub_key] =>
              match price_data !! K main_key with
              | None => inl KeyError
              | Some sub =>
                  match setitem_in sub sub_key (PStr value) with
                  | inl e => inl e
                  | inr sub' => inr (<[K main_key := sub']> price_data)
                  end
              end
          | _ => inl ValueError
          end
        else inr (<[K data_key := PStr value]> price_data)
      else inr price_data
  | None => inr price_data
  end.

(** One turn of the second loop; a charge is given by the texts of its
    label and of its value ([""] when absent). *)
Definition price_charge (price_data : dict) (charge : string * string)
  : exn + dict :=
  let label := strip (fst charge) in
  let value := strip (snd charge) in
  if truthy (PStr label) && truthy (PStr value) then
    match price_data !! K "other_charges" with
    | None => inl KeyError
    | Some (PDict other) =>
        match other !! K "breakdown" with
        | None => inl KeyError
        | Some breakdown =>
            match setitem_in breakdown (lower label) (PStr value) with
            | inl e => inl e
            | inr breakdown' =>
                inr (<[K "other_charges" :=
                         PDict (<[K "breakdown" := breakdown']> other)]>
                       price_data)
            end
        end
    | Some _ => inl TypeError
    end
  else inr price_data.

Definition _extract_price_data (values : string → option string)
    (charges : list (string * string)) : exn + dict :=
  match for_each (price_item values) price_mapping price_init with
  | inl e => inl e
  | inr price_data => for_each price_charge charges price_data
  end.

(** What the first loop stores for the element with id [html_id]: its
    cleaned text, and [None] when the element is missing or empty. *)
Definition price_field (values : string → option string)
    (html_id : string) : pyval :=
  match values html_id with
  | Some value =>
      if truthy (PStr value) then PStr (strip (remove_mark (strip value)))
      else PNone
  | None => PNone
  end.

(** [price_data] after the first loop. *)
Definition price_fields (values : string → option string) : dict :=
  <[K "ex_showroom" := price_field values "price-ex-showroom"]>
  (<[K "rto" := price_field values "price-rto"]>
  (<[K "insurance" := price_field values "price-insurance"]>
  (<[K "other_charges" :=
       PDict (<[K "total" := price_field values "price-other-charges"]>
                {[K "breakdown" := PDict ∅]})]>
  (<[K "on_road" := price_field values "price-on-road"]>
  {[K "city" := PStr "New Delhi"]})))).

End Price.

(** An [img] element by its [src], [alt] and [srcset] attributes ([""] when
    absent). *)
Record image := Image {
  img_src : string;
  img_alt : string;
  img_srcset : string
}.

Fixpoint drop_string (n : nat) (s : string) : string :=
  match n, s with
  | O, _ => s
  | S n', String _ s' => drop_string n' s'
  | S _, EmptyString => EmptyString
  end.

(** [s.split(sep)[-1]] for a non-empty [sep]: what follows the last of the
    occurrences of [sep] that a scan from the left finds; [skip] characters
    still belong to the occurrence found last. *)
Fixpoint split_last_from (sep : string) (skip : nat) (s : string)
  : option string :=
  match s with
  | EmptyString => None
  | String _ s' =>
      if Nat.eqb skip 0 && String.prefix sep s
      then match split_last_from sep (String.length sep - 1) s' with
           | Some r => Some r
           | None => Some (drop_string (String.length sep) s)
           end
      else split_last_from sep (skip - 1) s'
  end.

Definition split_last (sep s : string) : string :=
  default s (split_last_from sep 0 s).

Section Gallery.

Variable strip : string → string.

(** [srcset.split(",")[-1].split(" ")[0].strip()]. *)
Definition hq_url_of (srcset : string) : string :=
  strip (before " "%char (after_last ","%char srcset)).

(** The entry for an image of the exterior or interior, when it has a
    [src]. *)
Definition image_entry (img : image) : option pyval :=
  let image_data : dict :=
    <[K "url" := PStr (img_src img)]>
    (<[K "alt" := PStr (img_alt img)]>
    {[K "hq_url" := PStr (hq_url_of (img_srcset img))]}) in
  if truthy (PStr (img_src img)) then Some (PDict image_data) else None.

(** The entry for an image of a colour. *)
Definition colour_image_entry (img : image) : option pyval :=
  let image_data : dict :=
    <[K "url" := PStr (img_src img)]>
    (<[K "alt" := PStr (img_alt img)]>
    (<[K "color_name" := PStr (strip (split_last "Alto K10" (img_alt img)))]>
    {[K "hq_url" := PStr (hq_url_of (img_srcset img))]})) in
  if truthy (PStr (img_src img)) then Some (PDict image_data) else None.

(** [_extract_gallery_data], given the images that the three CSS selectors
    and the two XPath expressions select. *)
Definition _extract_gallery_data
    (css_exterior css_interior color_images : list image)
    (xpath_exterior xpath_interior : list image) : dict :=
  let exterior := omap image_entry css_exterior in
  let interior := omap image_entry css_interior in
  let colors := omap colour_image_entry color_images in
  let exterior :=
    if negb (truthy (PList exterior))
    then exterior ++ omap image_entry xpath_exterior
    else exterior in
  let interior :=
    if negb (truthy (PList interior))
    then interior ++ omap image_entry xpath_interior
    else interior in
  <[K "exterior" := PList exterior]>
  (<[K "interior" := PList interior]>
  {[K "colors" := PList colors]}).

End Gallery.

(** An entry of the gallery with a non-empty [url]. *)
Definition has_url (v : pyval) : Prop :=
  ∃ d url, v = PDict d ∧ d !! K "url" = Some (PStr url) ∧ url ≠ "".

Module DemoGallery.

(** An image whose [srcset] separates its candidates by a comma and a
    space. *)
Definition front : image :=
  Image "front.jpg" "Alto K10 front" "front-1x.jpg 1x, front-2x.jpg 2x".

Definition red : colour_section :=
  ColourSection "Red" "colour-red" "red.jpg" "red-1x.jpg 1x, red-2x.jpg 2x".

End DemoGallery.

(** ** A car, its pages and its events, for the examples *)

Module Demo.

(** A [scrapy.Request] that keeps a URL with ["://"] as it is and rejects
    any other. *)
Definition scrapy : Scrapy :=
  {| request_url := λ url, if occurs "://" url then Some url else None |}.

#[local] Existing Instance scrapy.

(** [str.strip] and [str.lower] on the texts of the examples, which have
    no blanks at their ends and no capitals. *)
Definition strip (s : string) : string := s.
Definition lower (s : string) : string := s.

(** The extractors on the pages of the examples.  The body of a mileage
    page stands for the text of the fuel cell of the one row of its table,
    whose other two cells read ["manual"] and ["24 kmpl"]; the page has no
    overview text, and [_extract_mileage_data] is run on it.  For the other
    tabs the body of the page stands for what the extractor returns. *)
Definition extract (cb : callback) (resp : response) : exn + pyval :=
  match cb with
  | cb_mileage =>
      match _extract_mileage_data strip lower ""
              [(resp_body resp, "manual", "24 kmpl")] with
      | inl e => inl e
      | inr mileage_data => inr (PDict mileage_data)
      end
  | _ => inr (PStr (resp_body resp))
  end.

(** An item as the cars spider writes it to [cars_data.json]. *)
Definition car : dict :=
  <[K "brand" := PStr "Maruti"]>
  (<[K "name" := PStr "Alto K10"]>
  (<[K "detail_url" := PStr "https://x/alto/overview"]>
  (<[K "price_range" := PStr "4 - 6 Lakh"]>
  (<[K "specifications" := PDict {[K "engine" := PStr "998 cc"]}]>
  (<[K "key_features" := PList [PStr "ABS"]]>
  (<[K "images" := PList []]>
  (<[K "video_thumbnail" := PNone]> ∅))))))).

Definition first_request : request :=
  Request "https://x/alto/price" cb_first_page None.

Definition req_price : request :=
  Request "https://x/alto/price" cb_price (Some (K "price")).
Definition req_specs : request :=
  Request "https://x/alto/specs" cb_specifications (Some (K "specifications")).
Definition req_mileage : request :=
  Request "https://x/alto/mileage" cb_mileage (Some (K "mileage")).
Definition req_range : request :=
  Request "https://x/alto/range" cb_mileage (Some (K "mileage")).

(** First pages: with a price and a specs tab; with a mileage and a range
    tab; with no tab to request; with a tab that [tab_mapping] lacks; with
    a mileage tab only; with a price tab and a specs tab whose [href] has
    no scheme. *)
Definition page_two : response :=
  Response "https://x/alto/price"
    [Tab (K "model") "https://x/alto/overview";
     Tab (K "price") "https://x/alto/price";
     Tab (K "specs") "https://x/alto/specs"] "".
Definition page_dup : response :=
  Response "https://x/alto/price"
    [Tab (K "mileage") "https://x/alto/mileage";
     Tab (K "range") "https://x/alto/range"] "".
Definition page_none : response :=
  Response "https://x/alto/price"
    [Tab (K "model") "https://x/alto/overview";
     Tab (K "compare") "https://x/alto/compare"] "".
Definition page_mileage : response :=
  Response "https://x/alto/price"
    [Tab (K "mileage") "https://x/alto/mileage"] "".
Definition page_script : response :=
  Response "https://x/alto/price"
    [Tab (K "price") "https://x/alto/price";
     Tab (K "specs") "javascript:void(0)"] "".

(** A first page with a price tab and a tab whose id is
    ["_pending_tabs"], and the response to the request for that tab. *)
Definition page_pending : response :=
  Response "https://x/alto/price"
    [Tab (K "price") "https://x/alto/price";
     Tab (K "_pending_tabs") "https://x/alto/pending"] "".
Definition ev_pending : event :=
  Fetched (Request "https://x/alto/pending" cb_unknown
                   (Some (K "_pending_tabs")))
          (Response "https://x/alto/pending" [] "").

Definition ev_price : event :=
  Fetched req_price (Response "https://x/alto/price" [] "100000").
Definition ev_specs_failed : event := Failed req_specs "timeout".
Definition ev_mileage : event :=
  Fetched req_mileage (Response "https://x/alto/mileage" [] "petrol").
Definition ev_mileage_raises : event :=
  Fetched req_mileage
          (Response "https://x/alto/mileage" [] "fuel_tank_capacity").

(** What [_extract_mileage_data] returns for the page of [ev_mileage]. *)
Definition mileage_value : pyval :=
  PDict (<[K "petrol" := PDict (<[K "manual" := PStr "24 kmpl"]>
                                 {[K "automatic" := PNone]})]>
        (<[K "cng" := PDict {[K "manual" := PNone]}]>
        (<[K "overview" := PNone]>
        (<[K "fuel_tank_capacity" := PNone]> ∅)))).
Definition ev_range_failed : event := Failed req_range "timeout".

(** [car_data] of the car of [page_dup] once the mileage tab came back. *)
Definition after_mileage : dict :=
  final_data (assembling car page_dup)
             (engine extract [ev_mileage] (assembling car page_dup)).

End Demo.

(** ** Pages of the cars site, for the examples *)

Module DemoCars.

Definition strip (s : string) : string := s.
Definition lower (s : string) : string := s.
Definition urljoin (href : option string) : string :=
  "https://x" +:+ default "" href.
Definition follow_url (href : string) : option string :=
  @request_url Demo.scrapy (urljoin (Some href)).



End DemoCars.

(** * Properties *)

(** One step of a callback at a time. *)

Lemma bind_ret {A B} (a : A) (f : A → M B) cd : (mret a ≫= f) cd = f a cd.
Proof. unfold mbind, M_bind, mret, M_ret. simpl. by destruct (f a cd). Qed.

Lemma bind_raise {A B} (e : exn) (f : A → M B) cd :
  (raise e ≫= f) cd = Outcome cd [] [] (inl e).
Proof. done. Qed.

Lemma bind_lift {A B} (x : exn + A) (f : A → M B) cd :
  (lift x ≫= f) cd =
    match x with inl e => Outcome cd [] [] (inl e) | inr a => f a cd end.
Proof.
  unfold mbind, M_bind, lift. simpl. destruct x; [done|]. by destruct (f a cd).
Qed.

Lemma bind_copy {B} (f : dict → M B) cd : (copy ≫= f) cd = f cd cd.
Proof. unfold mbind, M_bind, copy. simpl. by destruct (f cd cd). Qed.

Lemma bind_getitem {B} k (f : pyval → M B) cd :
  (getitem k ≫= f) cd =
    match cd !! k with
    | Some v => f v cd
    | None => Outcome cd [] [] (inl KeyError)
    end.
Proof.
  unfold mbind, M_bind, getitem. destruct (cd !! k); simpl; [|done].
  by destruct (f _ cd).
Qed.

Lemma bind_setitem {B} k v (f : unit → M B) cd :
  (setitem k v ≫= f) cd = f () (<[k := v]> cd).
Proof. unfold mbind, M_bind, setitem. simpl. by destruct (f () _). Qed.

Lemma bind_log {B} l (f : unit → M B) cd :
  (log l ≫= f) cd =
    let r := f () cd in Outcome (o_data r) (l :: o_log r) (o_out r) (o_ret r).
Proof. done. Qed.

Lemma bind_yield {B} y (f : unit → M B) cd :
  (yield y ≫= f) cd =
    let r := f () cd in Outcome (o_data r) (o_log r) (y :: o_out r) (o_ret r).
Proof. done. Qed.

Lemma bind_meta_data_key {B} req (f : pykey → M B) cd :
  (meta_data_key req ≫= f) cd =
    match req_data_key req with
    | Some k => f k cd
    | None => Outcome cd [] [] (inl KeyError)
    end.
Proof.
  unfold meta_data_key. destruct (req_data_key req).
  - apply bind_ret.
  - apply bind_raise.
Qed.

Lemma yield_if_complete_eq cd :
  yield_if_complete cd =
    match finalize_car_data cd with
    | inl e => Outcome cd [] [] (inl e)
    | inr (Some r) =>
        if truthy (PDict r) then Outcome cd [] [YItem r] (inr ())
        else Outcome cd [] [] (inr ())
    | inr None => Outcome cd [] [] (inr ())
    end.
Proof.
  unfold yield_if_complete. rewrite bind_copy, bind_lift.
  destruct (finalize_car_data cd) as [e|[r|]]; [done| |done].
  by destruct (truthy (PDict r)).
Qed.

Lemma resolve_tail k v cd :
  (setitem k v ≫= λ _,
   getitem pending_tabs ≫= λ pending,
   lift (Py.remove pending k) ≫= λ pending',
   setitem pending_tabs pending' ≫= λ _, yield_if_complete) cd
  = resolve k v cd.
Proof.
  rewrite bind_setitem, bind_getitem. unfold resolve.
  destruct (<[k:=v]> cd !! pending_tabs) as [p|]; [|done].
  rewrite bind_lift. destruct (Py.remove p k) as [e|p']; [done|].
  rewrite bind_setitem. apply yield_if_complete_eq.
Qed.

Lemma process_tab_resolve req k v cd :
  req_data_key req = Some k →
  process_tab req (inr v) cd = resolve k v cd.
Proof.
  intros Hk. unfold process_tab. rewrite bind_meta_data_key, Hk, bind_lift.
  apply resolve_tail.
Qed.

(** When the extractor raises, [process_tab] ends there: nothing is
    written, logged or yielded. *)
Lemma process_tab_raise req k e cd :
  req_data_key req = Some k →
  process_tab req (inl e) cd = Outcome cd [] [] (inl e).
Proof.
  intros Hk. unfold process_tab. by rewrite bind_meta_data_key, Hk, bind_lift.
Qed.

Lemma handle_error_resolve req k value cd :
  req_data_key req = Some k →
  let r := handle_error req value cd in
  let r' := resolve k (error_value value (req_url req)) cd in
  o_data r = o_data r' ∧ o_out r = o_out r' ∧ o_ret r = o_ret r' ∧
  o_log r = error_request_failed k value :: o_log r'.
Proof.
  intros Hk. unfold handle_error. rewrite bind_meta_data_key, Hk, bind_log.
  by rewrite resolve_tail.
Qed.

Lemma parse_unknown_resolve req resp k cd :
  req_data_key req = Some k →
  let r := parse_unknown req resp cd in
  let r' := resolve k unknown_tab_value cd in
  o_data r = o_data r' ∧ o_out r = o_out r' ∧ o_ret r = o_ret r' ∧
  o_log r = warning_unknown_tab (resp_url resp) :: o_log r'.
Proof.
  intros Hk. unfold parse_unknown. rewrite bind_log.
  by rewrite (process_tab_resolve _ k).
Qed.

Lemma missing_data_key_process_tab req parsed cd :
  req_data_key req = None →
  process_tab req parsed cd = Outcome cd [] [] (inl KeyError).
Proof. intros Hk. unfold process_tab. by rewrite bind_meta_data_key, Hk. Qed.

Lemma missing_data_key_handle_error req value cd :
  req_data_key req = None →
  handle_error req value cd = Outcome cd [] [] (inl KeyError).
Proof. intros Hk. unfold handle_error. by rewrite bind_meta_data_key, Hk. Qed.

Lemma resolve_log k v cd : o_log (resolve k v cd) = [].
Proof.
  unfold resolve. repeat case_match; done.
Qed.

(** *** [finalize_car_data] on a well-formed [car_data] *)

Lemma pending_of_Some cd s :
  pending_of cd = Some s ↔ cd !! pending_tabs = Some (PSet s).
Proof.
  unfold pending_of. destruct (cd !! pending_tabs) as [[]|]; naive_solver.
Qed.

Lemma truthy_set s : truthy (PSet s) = false ↔ s = ∅.
Proof.
  unfold truthy. rewrite negb_false_iff, Nat.eqb_eq, size_empty_iff.
  by rewrite leibniz_equiv_iff.
Qed.

Lemma truthy_dict d : truthy (PDict d) = false ↔ d = ∅.
Proof.
  unfold truthy. rewrite negb_false_iff, Nat.eqb_eq. apply map_size_empty_iff.
Qed.

Lemma finalize_pending cd s :
  pending_of cd = Some s → s ≠ ∅ → finalize_car_data cd = inr None.
Proof.
  intros Hs%pending_of_Some Hne. unfold finalize_car_data. rewrite Hs.
  destruct (truthy (PSet s)) eqn:Ht; [done|].
  by apply truthy_set in Ht.
Qed.

Lemma finalize_complete cd b :
  pending_of cd = Some ∅ → cd !! base_info = Some (PDict b) →
  finalize_car_data cd = inr (Some (merged_record cd b)).
Proof.
  intros Hs%pending_of_Some Hb. unfold finalize_car_data. rewrite Hs.
  replace (truthy (PSet ∅)) with false by (symmetry; by apply truthy_set).
  simpl. rewrite lookup_delete_ne by done. by rewrite Hb.
Qed.

Lemma finalize_Some cd r :
  finalize_car_data cd = inr (Some r) →
  truthy (default PNone (cd !! pending_tabs)) = false ∧
  ∃ b, cd !! base_info = Some (PDict b) ∧ r = merged_record cd b.
Proof.
  unfold finalize_car_data. intros H.
  destruct (cd !! pending_tabs) as [p|]; simpl in *; [|done].
  destruct (truthy p); simpl in *; [done|]. split; [done|].
  rewrite lookup_delete_ne in H by done.
  destruct (cd !! base_info) as [[]|]; simpl in *; try done.
  eexists; split; [done|]. unfold merged_record. by simplify_eq.
Qed.

Lemma merged_record_lookup cd b k :
  k ≠ base_info →
  merged_record cd b !! k =
    match delete pending_tabs cd !! k with
    | Some v => Some v
    | None => b !! k
    end.
Proof.
  intros Hk. unfold merged_record.
  rewrite lookup_delete_ne by done. rewrite lookup_union.
  destruct (delete pending_tabs cd !! k), (b !! k); done.
Qed.

Lemma merged_record_base_info cd b : merged_record cd b !! base_info = None.
Proof. apply lookup_delete_eq. Qed.

(** *** [resolve] by cases on the pending set *)

Lemma resolve_pending k v cd s :
  pending_of cd = Some s → k ≠ pending_tabs → k ∈ s →
  resolve k v cd =
    yield_if_complete (<[pending_tabs := PSet (s ∖ {[k]})]> (<[k := v]> cd)).
Proof.
  intros Hs%pending_of_Some Hk Hin. unfold resolve.
  rewrite lookup_insert_ne, Hs by done. unfold Py.remove.
  rewrite bool_decide_eq_true_2 by done. by rewrite yield_if_complete_eq.
Qed.

Lemma resolve_absent k v cd s :
  pending_of cd = Some s → k ≠ pending_tabs → k ∉ s →
  resolve k v cd = Outcome (<[k := v]> cd) [] [] (inl KeyError).
Proof.
  intros Hs%pending_of_Some Hk Hin. unfold resolve.
  rewrite lookup_insert_ne, Hs by done. unfold Py.remove.
  by rewrite bool_decide_eq_false_2.
Qed.

Lemma resolve_dead k v cd d :
  cd !! pending_tabs = Some (PDict d) → k ≠ pending_tabs →
  resolve k v cd = Outcome (<[k := v]> cd) [] [] (inl AttributeError).
Proof.
  intros Hd Hk. unfold resolve. by rewrite lookup_insert_ne, Hd.
Qed.

Lemma resolve_overwrite d cd :
  resolve pending_tabs (PDict d) cd =
    Outcome (<[pending_tabs := PDict d]> cd) [] [] (inl AttributeError).
Proof. unfold resolve. by rewrite lookup_insert_eq. Qed.

Lemma not_tab_key_pending : pending_tabs ∉ tab_keys.
Proof. by apply (bool_decide_unpack _). Qed.

Lemma not_tab_key_base : base_info ∉ tab_keys.
Proof. by apply (bool_decide_unpack _). Qed.

(** *** Removing one key from a set *)

Lemma difference_singleton_empty (s : gset pykey) k k0 :
  s ∖ {[k]} = ∅ → k0 ∈ s → k0 = k.
Proof.
  intros He Hk0. destruct (decide (k0 = k)) as [|Hne]; [done|].
  assert (k0 ∈ s ∖ {[k]}) as Hin by set_solver.
  rewrite He in Hin. by apply not_elem_of_empty in Hin.
Qed.

Lemma elem_of_difference_singleton (s : gset pykey) k k0 :
  k0 ∈ s ∖ {[k]} ↔ k0 ∈ s ∧ k0 ≠ k.
Proof. set_solver. Qed.

Lemma union_singleton_assoc (s : gset pykey) k (keys : gset pykey) :
  keys ∪ ({[k]} ∪ s) = {[k]} ∪ keys ∪ s.
Proof. set_solver. Qed.

(** *** The requests of [parse_first_page] *)

Lemma tab_mapping_Some i k p :
  tab_mapping !! i = Some (k, p) →
  (k ∈ tab_keys ∧ p ≠ Some cb_unknown ∧ p ≠ Some cb_first_page) ∨ p = None.
Proof.
  intros H. apply elem_of_list_to_map_2 in H.
  repeat (apply elem_of_cons in H as [H|H];
          [simplify_eq; first [by right | left; split; [|done];
             by apply (bool_decide_unpack _)] |]).
  by apply elem_of_nil in H.
Qed.

Lemma tab_target_Some t k cb :
  tab_target t = Some (k, cb) →
  (tab_id t ∉ [K "model"; K "compare"]) ∧
  tab_mapping_get (tab_id t) = (k, Some cb) ∧
  cb ≠ cb_first_page ∧
  ((cb = cb_unknown ∧ k = tab_id t ∧ tab_mapping !! tab_id t = None)
   ∨ (k ∈ tab_keys ∧ cb ≠ cb_unknown)).
Proof.
  unfold tab_target, tab_mapping_get. case_bool_decide as Hskip; [done|].
  destruct (tab_mapping !! tab_id t) as [[k' p]|] eqn:E; simpl.
  - destruct p as [cb'|]; [|done]. intros [= <- <-].
    apply tab_mapping_Some in E as [(?&?&?)|?]; [|done].
    split_and!; [done|done|congruence|right]. split; [done|congruence].
  - intros [= <- <-]. split_and!; [done|done|done|by left].
Qed.

Section Discovery.

Context {web : Scrapy}.

Lemma request_of_tab_Some t req :
  request_of_tab t = Some req →
  ∃ k, req_data_key req = Some k ∧
       request_url (tab_url t) = Some (req_url req) ∧
       tab_target t = Some (k, req_callback req) ∧
       req_callback req ≠ cb_first_page ∧
       ((req_callback req = cb_unknown ∧ k = tab_id t) ∨ k ∈ tab_keys).
Proof.
  unfold request_of_tab.
  destruct (tab_target t) as [[k cb]|] eqn:E; [|done].
  destruct (request_url (tab_url t)) as [u|] eqn:Eu; [|done].
  intros [= <-]. cbn [req_data_key req_url req_callback].
  apply tab_target_Some in E as E'. destruct E' as (_&_&Hcb&Hor).
  exists k. split_and!; [done..|].
  destruct Hor as [(?&?&_)|[? _]]; [by left|by right].
Qed.

(** The requests that [discovery] lists come from tabs of the page, and
    their data keys are among the keys marked as pending. *)
Lemma discovery_requests tabs req :
  req ∈ found_requests (discovery tabs) →
  ∃ t, t ∈ tabs ∧ request_of_tab t = Some req.
Proof.
  induction tabs as [|t tabs IH]; cbn [discovery].
  { intros Hin. by apply elem_of_nil in Hin. }
  destruct (tab_target t) as [[k cb]|] eqn:E.
  2:{ intros (t'&?&?)%IH. exists t'. split; [by right|done]. }
  destruct (request_url (tab_url t)) as [u|] eqn:Eu.
  2:{ intros Hin. by apply elem_of_nil in Hin. }
  cbn [found_requests]. intros [->|Hin]%elem_of_cons.
  - exists t. split; [by left|]. unfold request_of_tab. by rewrite E, Eu.
  - destruct (IH Hin) as (t'&?&?). exists t'. split; [by right|done].
Qed.

Lemma discovery_keys tabs :
  list_to_set (request_key <$> found_requests (discovery tabs))
    ⊆ found_keys (discovery tabs).
Proof.
  induction tabs as [|t tabs IH]; cbn [discovery]; [done|].
  destruct (tab_target t) as [[k cb]|]; [|done].
  destruct (request_url (tab_url t)) as [u|]; [set_solver|].
  cbn [found_requests found_keys]. set_solver.
Qed.

(** When the loop runs to its end, it has yielded the request of every tab
    that has one, and the keys marked are exactly the keys of these
    requests. *)
Lemma request_of_tab_skip t :
  tab_target t = None → request_of_tab t = None.
Proof. intros E. unfold request_of_tab. by rewrite E. Qed.

Lemma request_of_tab_accepted t k cb u :
  tab_target t = Some (k, cb) → request_url (tab_url t) = Some u →
  request_of_tab t = Some (Request u cb (Some k)).
Proof. intros E Eu. unfold request_of_tab. by rewrite E, Eu. Qed.

Lemma discovery_complete tabs :
  found_error (discovery tabs) = None →
  found_requests (discovery tabs) = omap request_of_tab tabs ∧
  found_keys (discovery tabs)
    = list_to_set (request_key <$> omap request_of_tab tabs) ∧
  Forall (λ t, is_Some (tab_target t) → is_Some (request_url (tab_url t)))
         tabs.
Proof.
  induction tabs as [|t tabs IH]; cbn [discovery omap list_omap].
  { intros _. split_and!; [done|done|constructor]. }
  destruct (tab_target t) as [[k cb]|] eqn:E.
  2:{ rewrite (request_of_tab_skip t E). intros (?&?&?)%IH.
      split_and!; [done|done|]. constructor; [|done].
      rewrite E. by intros [? ?]. }
  destruct (request_url (tab_url t)) as [u|] eqn:Eu; [|done].
  rewrite (request_of_tab_accepted t k cb u E Eu).
  cbn [found_requests found_keys found_error].
  intros He. destruct (IH He) as (->&->&Hall). split_and!.
  - done.
  - rewrite fmap_cons. by cbn [list_to_set request_key req_data_key default].
  - constructor; [|done]. intros _. by eexists.
Qed.

(** When the loop ends with an exception, it is the [ValueError] of
    [scrapy.Request] on the first tab to fetch whose URL it rejects; the
    tabs before it have their requests, and its key has been marked. *)
Lemma discovery_raises tabs e :
  found_error (discovery tabs) = Some e →
  e = ValueError ∧
  ∃ good t rest k cb,
    tabs = good ++ t :: rest ∧
    found_error (discovery good) = None ∧
    tab_target t = Some (k, cb) ∧ request_url (tab_url t) = None ∧
    found_requests (discovery tabs) = omap request_of_tab good ∧
    found_keys (discovery tabs)
      = {[k]} ∪ list_to_set (request_key <$> omap request_of_tab good).
Proof.
  induction tabs as [|t tabs IH]; cbn [discovery]; [done|].
  destruct (tab_target t) as [[k cb]|] eqn:E.
  2:{ intros (->&good&t'&rest&k&cb&->&Hgood&?&?&Hreqs&Hkeys)%IH.
      split; [done|]. exists (t :: good), t', rest, k, cb.
      cbn [discovery omap list_omap].
      rewrite E, (request_of_tab_skip t E). by split_and!. }
  destruct (request_url (tab_url t)) as [u|] eqn:Eu.
  2:{ intros [= <-]. split; [done|]. exists [], t, tabs, k, cb.
      cbn [found_requests found_keys found_error discovery
           omap list_omap fmap list_fmap list_to_set].
      split_and!; [done..|]. by rewrite (right_id_L ∅ (∪)). }
  cbn [found_requests found_keys found_error]. intros He.
  destruct (IH He) as (->&good&t'&rest&k'&cb'&->&Hgood&?&?&Hreqs&Hkeys).
  split; [done|]. exists (t :: good), t', rest, k', cb'.
  cbn [discovery omap list_omap].
  rewrite E, Eu, (request_of_tab_accepted t k cb u E Eu).
  cbn [found_error]. rewrite Hreqs, Hkeys.
  split_and!; [done..|].
  rewrite fmap_cons. cbn [list_to_set request_key req_data_key default].
  set_solver.
Qed.

(** [dispatch_tabs] on a [car_data] whose pending entry is a set. *)
Lemma dispatch_tabs_spec tabs cd s :
  pending_of cd = Some s →
  dispatch_tabs tabs cd =
    Outcome
      (<[pending_tabs := PSet (found_keys (discovery tabs) ∪ s)]> cd)
      [] (YRequest <$> found_requests (discovery tabs))
      (match found_error (discovery tabs) with
       | None => inr ()
       | Some e => inl e
       end).
Proof.
  revert cd s. induction tabs as [|t tabs IH]; intros cd s Hs.
  - simpl. unfold mret, M_ret. f_equal.
    rewrite (left_id_L ∅ (∪)). symmetry. apply insert_id.
    by apply pending_of_Some.
  - assert (Htarget : tab_target t =
      if bool_decide (tab_id t ∈ [K "model"; K "compare"]) then None
      else match tab_mapping_get (tab_id t) with
           | (data_key, Some cb) => Some (data_key, cb)
           | (_, None) => None
           end) by done.
    cbn [dispatch_tabs discovery]. rewrite Htarget. clear Htarget.
    case_bool_decide; [by apply IH|].
    destruct (tab_mapping_get (tab_id t)) as [k [cb|]]; [|by apply IH].
    rewrite bind_getitem. apply pending_of_Some in Hs as Hs'. rewrite Hs'.
    rewrite bind_lift. cbn [Py.add]. rewrite bind_setitem, bind_lift.
    unfold scrapy_Request.
    destruct (request_url (tab_url t)) as [u|].
    + rewrite bind_yield. rewrite (IH _ ({[k]} ∪ s)).
      2:{ apply pending_of_Some. by rewrite lookup_insert_eq. }
      cbn [found_requests found_keys found_error
           o_data o_log o_out o_ret fmap list_fmap].
      by rewrite insert_insert_eq, union_singleton_assoc.
    + by cbn [found_requests found_keys found_error fmap list_fmap].
Qed.

End Discovery.

(** ** Runs of the engine on one car *)

Section Runs.

Context {web : Scrapy}.
Variable extract_data : callback → response → exn + pyval.

Lemma deliver_fetched req resp cd :
  deliver extract_data (Fetched req resp) cd =
    match req_callback req with
    | cb_first_page => parse_first_page resp cd
    | cb_unknown => parse_unknown req resp cd
    | cb => process_tab req (extract_data cb resp) cd
    end.
Proof. unfold deliver. by destruct (req_callback req). Qed.

Lemma event_result_fetched req resp :
  event_result extract_data (Fetched req resp) =
    match req_callback req with
    | cb_unknown => inr unknown_tab_value
    | cb => extract_data cb resp
    end.
Proof. done. Qed.

Lemma event_result_failed req value :
  event_result extract_data (Failed req value)
    = inr (error_value value (req_url req)).
Proof. done. Qed.

Local Abbreviation deliver := (deliver extract_data).
Local Abbreviation engine := (engine extract_data).
Local Abbreviation event_result := (event_result extract_data).
Local Abbreviation returns := (returns extract_data).

Lemma tab_event_inv ev :
  tab_event ev →
  req_data_key (event_request ev) = Some (event_key ev) ∧
  req_callback (event_request ev) ≠ cb_first_page ∧
  (event_key ev ∈ tab_keys ∨ ∃ d, event_result ev = inr (PDict d)).
Proof.
  intros [t (k&Hk&_&_&Hcb&Hor)%request_of_tab_Some].
  unfold event_key, request_key. rewrite Hk. simpl. split_and!; [done..|].
  destruct Hor as [[Hu _]|?]; [right|by left].
  destruct ev as [req resp|req value]; cbn [event_request] in *.
  - rewrite event_result_fetched, Hu. by eexists.
  - rewrite event_result_failed. by eexists.
Qed.

Lemma tab_event_dict ev v :
  tab_event ev → event_result ev = inr v →
  event_key ev ∈ tab_keys ∨ is_dict v.
Proof.
  intros (_&_&[?|[d Hd]])%tab_event_inv Hv; [by left|right].
  rewrite Hd in Hv. injection Hv as <-. by exists d.
Qed.

Lemma deliver_failed req value cd :
  deliver (Failed req value) cd = handle_error req value cd.
Proof. done. Qed.

Lemma deliver_first_page url key resp cd :
  deliver (Fetched (Request url cb_first_page key) resp) cd =
    parse_first_page resp cd.
Proof. done. Qed.

Lemma deliver_resolve ev cd v :
  tab_event ev → event_result ev = inr v →
  let r := deliver ev cd in
  let r' := resolve (event_key ev) v cd in
  o_data r = o_data r' ∧ o_out r = o_out r' ∧ o_ret r = o_ret r'.
Proof.
  intros (Hk&Hcb&_)%tab_event_inv Hv.
  destruct ev as [req resp|req value]; cbn [event_request] in *.
  - rewrite deliver_fetched. rewrite event_result_fetched in Hv.
    destruct (req_callback req) eqn:E; try done;
      try (rewrite Hv; by rewrite (process_tab_resolve _ _ _ _ Hk)).
    injection Hv as <-.
    by destruct (parse_unknown_resolve req resp _ cd Hk) as (?&?&?&_).
  - rewrite event_result_failed in Hv. injection Hv as <-.
    rewrite deliver_failed.
    by destruct (handle_error_resolve req _ value cd Hk) as (?&?&?&_).
Qed.

(** A response whose extractor raises: the callback ends with that
    exception and has changed, logged and yielded nothing. *)
Lemma deliver_raise ev cd e :
  tab_event ev → event_result ev = inl e →
  deliver ev cd = Outcome cd [] [] (inl e).
Proof.
  intros (Hk&Hcb&_)%tab_event_inv He.
  destruct ev as [req resp|req value]; cbn [event_request] in *; [|done].
  rewrite deliver_fetched. rewrite event_result_fetched in He.
  destruct (req_callback req) eqn:E; try done;
    rewrite He; by rewrite (process_tab_raise _ _ _ _ Hk).
Qed.

Lemma ok_new_car_data car : ok (new_car_data car).
Proof.
  split.
  - left. exists ∅. by apply pending_of_Some.
  - by exists car.
  - intros k Hk. unfold tab_keys in Hk.
    repeat (apply elem_of_cons in Hk as [->|Hk]; [by eexists|]).
    by apply elem_of_nil in Hk.
Qed.

Lemma ok_insert cd k v :
  ok cd → k ∈ tab_keys ∨ is_dict v → ok (<[k := v]> cd).
Proof.
  intros [Hp Hb Hk] Hv. split.
  - destruct (decide (k = pending_tabs)) as [->|Hne].
    + destruct Hv as [?%not_tab_key_pending|[d ->]]; [done|].
      right. exists d. by rewrite lookup_insert_eq.
    + unfold pending_of. by rewrite lookup_insert_ne.
  - destruct (decide (k = base_info)) as [->|Hne].
    + destruct Hv as [?%not_tab_key_base|[d ->]]; [done|].
      exists d. by rewrite lookup_insert_eq.
    + by rewrite lookup_insert_ne.
  - intros k' Hk'. rewrite lookup_insert. case_decide; [by eexists|auto].
Qed.

Lemma ok_insert_pending cd s : ok cd → ok (<[pending_tabs := PSet s]> cd).
Proof.
  intros [Hp Hb Hk]. split.
  - left. exists s. apply pending_of_Some. by rewrite lookup_insert_eq.
  - by rewrite lookup_insert_ne.
  - intros k' Hk'. rewrite lookup_insert_ne; [auto|].
    intros <-. by apply not_tab_key_pending.
Qed.

Lemma merged_record_truthy cd b :
  ok cd → truthy (PDict (merged_record cd b)) = true.
Proof.
  intros [_ _ Hk]. apply not_false_iff_true. rewrite truthy_dict.
  intros Hempty. destruct (Hk (K "price")) as [v Hv].
  { by apply (bool_decide_unpack _). }
  assert (merged_record cd b !! K "price" = Some v) as Hl.
  { rewrite merged_record_lookup by done.
    by rewrite lookup_delete_ne, Hv by done. }
  by rewrite Hempty in Hl.
Qed.

(** What delivering one event does to a well-formed [car_data]: the key
    was pending and is resolved (and the record is yielded exactly when the
    set becomes empty); or the callback stores the value and ends with an
    exception, yielding nothing; or the extractor raises and the callback
    ends with that exception, leaving [car_data] as it was. *)
Lemma deliver_step ev cd :
  tab_event ev → ok cd →
  let r := deliver ev cd in
  let k := event_key ev in
  (∃ v s b, event_result ev = inr v ∧
            pending_of cd = Some s ∧ k ∈ s ∧ k ≠ pending_tabs ∧
            o_data r = <[pending_tabs := PSet (s ∖ {[k]})]> (<[k := v]> cd) ∧
            o_data r !! base_info = Some (PDict b) ∧
            o_ret r = inr () ∧
            o_out r = if decide (s ∖ {[k]} = ∅)
                      then [YItem (merged_record (o_data r) b)] else [])
  ∨ (∃ v, event_result ev = inr v ∧
          o_data r = <[k := v]> cd ∧ o_out r = [] ∧
          (∃ e, o_ret r = inl e) ∧
          ∀ s, pending_of cd = Some s → k ∉ s ∨ k = pending_tabs)
  ∨ (∃ e, event_result ev = inl e ∧ r = Outcome cd [] [] (inl e)).
Proof.
  intros Hev Hok r k.
  destruct (event_result ev) as [e|v] eqn:Hres.
  { right. right. exists e. split; [done|]. by apply deliver_raise. }
  destruct (deliver_resolve ev cd v Hev Hres) as (Hd&Ho&Hr).
  pose proof (tab_event_dict ev v Hev Hres) as Hv.
  fold k in Hd, Ho, Hr, Hv. fold r in Hd, Ho, Hr.
  rewrite Hd, Ho, Hr. clear Hd Ho Hr.
  assert (Hok1 : ok (<[k := v]> cd)) by by apply ok_insert.
  destruct (decide (k = pending_tabs)) as [Hpt|Hpt].
  { right. left. exists v. split; [done|]. destruct Hv as [Hv|[d Hd]].
    { rewrite Hpt in Hv. by apply not_tab_key_pending in Hv. }
    rewrite Hpt, Hd, resolve_overwrite. simpl.
    split_and!; [done|done|by eexists|by right]. }
  destruct (ok_pending _ Hok) as [[s Hs]|[d Hd]].
  - destruct (decide (k ∈ s)) as [Hin|Hin].
    + left. rewrite (resolve_pending _ _ _ s) by done.
      rewrite yield_if_complete_eq.
      set (cd2 := <[pending_tabs := PSet (s ∖ {[k]})]> (<[k := v]> cd)).
      assert (Hok2 : ok cd2) by by apply ok_insert_pending.
      destruct (ok_base _ Hok2) as [b Hb].
      assert (Hs2 : pending_of cd2 = Some (s ∖ {[k]})).
      { apply pending_of_Some. unfold cd2. by rewrite lookup_insert_eq. }
      exists v, s, b. destruct (decide (s ∖ {[k]} = ∅)) as [He|He];
        (split_and!; [done|done|done|done|..]).
      all: try (rewrite He in Hs2; rewrite (finalize_complete _ b) by done;
                by rewrite merged_record_truthy).
      all: by rewrite (finalize_pending _ _ Hs2).
    + right. left. exists v. rewrite (resolve_absent _ _ _ s) by done. simpl.
      split_and!; [done|done|done|by eexists|].
      intros s' Hs'. left. congruence.
  - right. left. exists v. rewrite (resolve_dead _ _ _ d) by done. simpl.
    split_and!; [done|done|done|by eexists|].
    intros s' Hs'%pending_of_Some. congruence.
Qed.

Lemma deliver_ok ev cd : tab_event ev → ok cd → ok (o_data (deliver ev cd)).
Proof.
  intros Hev Hok.
  destruct (deliver_step ev cd Hev Hok)
    as [(v&s&b&Hv&_&_&_&->&_)|[(v&Hv&->&_)|(e&_&->)]]; [| |done].
  - apply ok_insert_pending, ok_insert; [done|]. by eapply tab_event_dict.
  - apply ok_insert; [done|]. by eapply tab_event_dict.
Qed.

(** *** Whole runs *)

Lemma engine_cons ev evs cd :
  engine (ev :: evs) cd = deliver ev cd :: engine evs (o_data (deliver ev cd)).
Proof. done. Qed.

Lemma emitted_cons r trace :
  emitted (r :: trace) = items (o_out r) ++ emitted trace.
Proof. done. Qed.

Lemma final_data_cons cd r trace :
  final_data cd (r :: trace) = final_data (o_data r) trace.
Proof.
  unfold final_data. rewrite last_cons. by destruct (last trace).
Qed.

Lemma pending_of_insert_pending cd s :
  pending_of (<[pending_tabs := PSet s]> cd) = Some s.
Proof. apply pending_of_Some, lookup_insert_eq. Qed.

Lemma pending_of_insert_ne cd k v :
  k ≠ pending_tabs → pending_of (<[k := v]> cd) = pending_of cd.
Proof. intros. unfold pending_of. by rewrite lookup_insert_ne. Qed.

(** Storing the value of a tab event under ["_pending_tabs"] leaves no
    pending set. *)
Lemma pending_of_overwritten ev v cd :
  tab_event ev → event_result ev = inr v → event_key ev = pending_tabs →
  pending_of (<[event_key ev := v]> cd) = None.
Proof.
  intros Hev Hv Hk. unfold pending_of. rewrite Hk, lookup_insert_eq.
  destruct (tab_event_dict ev v Hev Hv) as [Hin|[d ->]]; [|done].
  rewrite Hk in Hin. by apply not_tab_key_pending in Hin.
Qed.

Lemma deliver_settled ev cd :
  tab_event ev → ok cd → settled cd →
  o_out (deliver ev cd) = [] ∧ settled (o_data (deliver ev cd)) ∧
  (pending_of cd = None → pending_of (o_data (deliver ev cd)) = None).
Proof.
  intros Hev Hok Hq.
  destruct (deliver_step ev cd Hev Hok)
    as [(v&s&b&Hv&Hs&Hin&_)|[(v&Hv&Hd&Ho&_&_)|(e&_&->)]].
  { destruct Hq as [Hq|Hq]; rewrite Hq in Hs; simplify_eq.
    by apply not_elem_of_empty in Hin. }
  2:{ by split_and!. }
  rewrite Hd. unfold settled.
  destruct (decide (event_key ev = pending_tabs)) as [Hk|Hk].
  - rewrite (pending_of_overwritten ev v cd Hev Hv Hk).
    split_and!; [done|by right|done].
  - rewrite pending_of_insert_ne by done. by split_and!.
Qed.

Lemma engine_settled evs cd :
  Forall tab_event evs → ok cd → settled cd →
  emitted (engine evs cd) = [].
Proof.
  revert cd. induction evs as [|ev evs IH]; intros cd Hevs Hok Hq; [done|].
  apply Forall_cons in Hevs as [Hev Hevs]. rewrite engine_cons, emitted_cons.
  destruct (deliver_settled ev cd Hev Hok Hq) as (->&Hq'&_). simpl.
  apply IH; [done| |done]. by apply deliver_ok.
Qed.

(** A record is yielded only by the event that empties the pending set. *)
Lemma engine_yield_empties evs cd :
  Forall tab_event evs → ok cd →
  Forall (λ r, o_out r = [] ∨ pending_of (o_data r) = Some ∅)
         (engine evs cd).
Proof.
  revert cd. induction evs as [|ev evs IH]; intros cd Hevs Hok; [done|].
  apply Forall_cons in Hevs as [Hev Hevs]. simpl. apply Forall_cons. split.
  - destruct (deliver_step ev cd Hev Hok)
      as [(v&s&b&_&Hs&Hin&_&Hd&_&_&Ho)|[(v&_&_&Ho&_)|(e&_&Hr)]];
      [|by left|by rewrite Hr; left].
    rewrite Ho, Hd. case_decide as He; [right|by left].
    by rewrite He, pending_of_insert_pending.
  - apply IH; [done|]. by apply deliver_ok.
Qed.

Lemma engine_at_most_one evs cd :
  Forall tab_event evs → ok cd → length (emitted (engine evs cd)) ≤ 1.
Proof.
  revert cd. induction evs as [|ev evs IH]; intros cd Hevs Hok; [simpl; lia|].
  apply Forall_cons in Hevs as [Hev Hevs]. rewrite engine_cons, emitted_cons.
  pose proof (deliver_ok ev cd Hev Hok) as Hok'.
  destruct (deliver_step ev cd Hev Hok)
    as [(v&s&b&_&Hs&Hin&_&Hd&_&_&Ho)|[(v&_&_&Ho&_)|(e&_&Hr)]].
  - rewrite Ho. case_decide as He.
    + rewrite engine_settled; [simpl; lia|done|done|].
      left. by rewrite Hd, He, pending_of_insert_pending.
    + simpl. by apply IH.
  - rewrite Ho. simpl. by apply IH.
  - rewrite Hr in Hok' |- *. simpl. by apply IH.
Qed.

Lemma engine_too_few evs cd s :
  Forall tab_event evs → ok cd → pending_of cd = Some s →
  length evs < size s → emitted (engine evs cd) = [].
Proof.
  revert cd s. induction evs as [|ev evs IH]; intros cd s Hevs Hok Hs Hlt;
    [done|].
  apply Forall_cons in Hevs as [Hev Hevs]. rewrite engine_cons, emitted_cons.
  simpl in Hlt.
  pose proof (deliver_ok ev cd Hev Hok) as Hok'.
  destruct (deliver_step ev cd Hev Hok)
    as [(v&s'&b&_&Hs'&Hin&_&Hd&_&_&Ho)|[(v&Hv&Hd&Ho&_&_)|(e&_&Hr)]].
  - rewrite Hs in Hs'. injection Hs' as <-.
    assert (size (s ∖ {[event_key ev]}) = size s - 1) as Hsz.
    { rewrite size_difference by set_solver. by rewrite size_singleton. }
    rewrite Ho. rewrite decide_False.
    2:{ intros He. rewrite He, size_empty in Hsz. lia. }
    simpl. apply (IH _ (s ∖ {[event_key ev]})); [done|done| |lia].
    by rewrite Hd, pending_of_insert_pending.
  - rewrite Ho. simpl.
    destruct (decide (event_key ev = pending_tabs)) as [Hk|Hk].
    + apply engine_settled; [done|done|]. right. rewrite Hd.
      by apply pending_of_overwritten.
    + apply (IH _ s); [done|done| |lia].
      by rewrite Hd, pending_of_insert_ne.
  - rewrite Hr in Hok' |- *. simpl. apply (IH _ s); [done|done|done|lia].
Qed.

(** Gathering: when every event has a value to store and the events cover
    every pending key, exactly one record is yielded; it is built from the
    [car_data] [F] of that moment, in which every key that was pending
    holds the value of one of its events and every other key holds what it
    held before, unless an event wrote to it. *)
Lemma engine_gather evs cd s :
  Forall tab_event evs → Forall returns evs →
  ok cd → pending_of cd = Some s → s ≠ ∅ →
  (∀ ev, ev ∈ evs → event_key ev ≠ pending_tabs) →
  (∀ k, k ∈ s → ∃ ev, ev ∈ evs ∧ event_key ev = k) →
  ∃ F b, emitted (engine evs cd) = [merged_record F b] ∧
         F !! base_info = Some (PDict b) ∧ pending_of F = Some ∅ ∧
         (∀ k, k ∈ s → ∃ ev v, ev ∈ evs ∧ event_key ev = k ∧
                           event_result ev = inr v ∧ F !! k = Some v) ∧
         (∀ k, k ∉ s → k ≠ pending_tabs →
               F !! k = cd !! k ∨
               ∃ ev v, ev ∈ evs ∧ event_key ev = k ∧
                       event_result ev = inr v ∧ F !! k = Some v).
Proof.
  revert cd s.
  induction evs as [|ev evs IH]; intros cd s Hevs Hret Hok Hs Hne Hpt Hcov.
  { apply set_choose_L in Hne as [k Hk].
    destruct (Hcov k Hk) as (ev&Hev&_). by apply elem_of_nil in Hev. }
  apply Forall_cons in Hevs as [Hev Hevs].
  apply Forall_cons in Hret as [[v0 Hv0] Hret].
  rewrite engine_cons, emitted_cons.
  pose proof (deliver_ok ev cd Hev Hok) as Hok'.
  assert (Hkpt : event_key ev ≠ pending_tabs) by (apply Hpt; left).
  assert (Hpt' : ∀ ev', ev' ∈ evs → event_key ev' ≠ pending_tabs).
  { intros ev' Hin. apply Hpt. by right. }
  destruct (deliver_step ev cd Hev Hok)
    as [(v&s'&b&Hv&Hs'&Hin&_&Hd&Hb&_&Ho)|[(v&Hv&Hd&Ho&_&Hrej)|(e&He&_)]];
    [| |congruence].
  - rewrite Hs in Hs'. injection Hs' as <-.
    set (k := event_key ev) in *.
    rewrite Ho. destruct (decide (s ∖ {[k]} = ∅)) as [He|He].
    + rewrite engine_settled; [|done|done|].
      2:{ left. by rewrite Hd, He, pending_of_insert_pending. }
      exists (o_data (deliver ev cd)), b. split_and!; [done|done|..].
      * by rewrite Hd, He, pending_of_insert_pending.
      * intros k0 Hk0.
        rewrite (difference_singleton_empty s k k0 He Hk0).
        exists ev, v. split_and!; [by left|done|done|].
        by rewrite Hd, lookup_insert_ne, lookup_insert_eq.
      * intros k0 Hk0 Hk0pt. left.
        rewrite Hd, !lookup_insert_ne; [done| |done]. by intros <-.
    + destruct (IH (o_data (deliver ev cd)) (s ∖ {[k]}))
        as (F&b'&Hem&HFb&HFp&HF1&HF2); [done|done|done| |done|done| |].
      { by rewrite Hd, pending_of_insert_pending. }
      { intros k0 [Hk0 Hkk]%elem_of_difference_singleton.
        destruct (Hcov k0 Hk0) as (ev'&Hev'&Hkey).
        apply elem_of_cons in Hev' as [->|Hev']; [done|eauto]. }
      exists F, b'. rewrite Hem. split_and!; [done|done|done|..].
      * intros k0 Hk0. destruct (decide (k0 = k)) as [->|Hkk].
        -- destruct (HF2 k) as [HFk|(ev'&v'&?&?&?&?)]; [|done|..].
           { rewrite elem_of_difference_singleton. by intros [_ ?]. }
           ++ exists ev, v. split_and!; [by left|done|done|].
              by rewrite HFk, Hd, lookup_insert_ne, lookup_insert_eq.
           ++ exists ev', v'. split_and!; [by right|done|done|done].
        -- destruct (HF1 k0) as (ev'&v'&?&?&?&?).
           { by apply elem_of_difference_singleton. }
           exists ev', v'. split_and!; [by right|done|done|done].
      * intros k0 Hk0 Hk0pt.
        destruct (HF2 k0) as [HFk|(ev'&v'&?&?&?&?)]; [|done|..].
        { rewrite elem_of_difference_singleton. by intros [? _]. }
        -- left. rewrite HFk, Hd, !lookup_insert_ne; [done| |done].
           by intros <-.
        -- right. exists ev', v'. split_and!; [by right|done|done|done].
  - assert (Hk : event_key ev ∉ s).
    { by destruct (Hrej s Hs). }
    set (k := event_key ev) in *.
    rewrite Ho. simpl.
    destruct (IH (o_data (deliver ev cd)) s)
      as (F&b&Hem&HFb&HFp&HF1&HF2); [done|done|done| |done|done| |].
    { by rewrite Hd, pending_of_insert_ne. }
    { intros k0 Hk0. destruct (Hcov k0 Hk0) as (ev'&Hev'&Hkey).
      apply elem_of_cons in Hev' as [->|Hev']; [by subst|eauto]. }
    exists F, b. split_and!; [done|done|done|..].
    + intros k0 Hk0. destruct (HF1 k0 Hk0) as (ev'&v'&?&?&?&?).
      exists ev', v'. split_and!; [by right|done|done|done].
    + intros k0 Hk0 Hk0pt.
      destruct (HF2 k0 Hk0 Hk0pt) as [HFk|(ev'&v'&?&?&?&?)].
      * rewrite HFk, Hd. destruct (decide (k0 = k)) as [->|Hkk].
        -- right. exists ev, v. split_and!; [by left|done|done|].
           by rewrite lookup_insert_eq.
        -- left. by rewrite lookup_insert_ne.
      * right. exists ev', v'. split_and!; [by right|done|done|done].
Qed.

(** *** Invariants along a run *)

Lemma engine_invariant (P : dict → Prop) evs cd :
  (∀ ev cd, ev ∈ evs → P cd → P (o_data (deliver ev cd))) →
  P cd →
  P (final_data cd (engine evs cd)) ∧
  Forall (λ r, P (o_data r)) (engine evs cd).
Proof.
  revert cd. induction evs as [|ev evs IH]; intros cd Hstep HP; [done|].
  rewrite engine_cons, final_data_cons.
  assert (P (o_data (deliver ev cd))) as HP' by (apply Hstep; [by left|done]).
  destruct (IH (o_data (deliver ev cd))) as [? ?]; [|done|].
  { intros ev' cd' Hin. apply Hstep. by right. }
  split; [done|]. by apply Forall_cons.
Qed.

(** Every yielded record is the merge of a [car_data] that satisfies the
    invariant and has nothing pending. *)
Lemma emitted_inv (P : dict → Prop) evs cd r :
  (∀ cd, P cd → ok cd) →
  (∀ ev cd, ev ∈ evs → P cd → P (o_data (deliver ev cd))) →
  Forall tab_event evs → P cd →
  r ∈ emitted (engine evs cd) →
  ∃ F b, P F ∧ pending_of F = Some ∅ ∧ F !! base_info = Some (PDict b) ∧
         r = merged_record F b.
Proof.
  intros HPok. revert cd.
  induction evs as [|ev evs IH]; intros cd Hstep Hevs HP Hr.
  { by apply elem_of_nil in Hr. }
  apply Forall_cons in Hevs as [Hev Hevs].
  rewrite engine_cons, emitted_cons in Hr.
  assert (P (o_data (deliver ev cd))) as HP' by (apply Hstep; [by left|done]).
  apply elem_of_app in Hr as [Hr|Hr].
  - destruct (deliver_step ev cd Hev (HPok _ HP))
      as [(v&s&b&_&Hs&Hin&_&Hd&Hb&_&Ho)|[(v&_&_&Ho&_)|(e&_&Hraise)]].
    + rewrite Ho in Hr. case_decide as He; [|by apply elem_of_nil in Hr].
      apply list_elem_of_singleton in Hr as ->.
      exists (o_data (deliver ev cd)), b. split_and!; [done| |done|done].
      by rewrite Hd, He, pending_of_insert_pending.
    + rewrite Ho in Hr. by apply elem_of_nil in Hr.
    + rewrite Hraise in Hr. by apply elem_of_nil in Hr.
  - apply (IH (o_data (deliver ev cd))); [|done|done|done].
    intros ev' cd' Hin. apply Hstep. by right.
Qed.

Lemma engine_dead evs cd :
  Forall tab_event evs → ok cd → pending_of cd = None →
  pending_of (final_data cd (engine evs cd)) = None.
Proof.
  revert cd. induction evs as [|ev evs IH]; intros cd Hevs Hok Hp; [done|].
  apply Forall_cons in Hevs as [Hev Hevs].
  rewrite engine_cons, final_data_cons.
  destruct (deliver_settled ev cd Hev Hok) as (_&Hq&Hd); [by right|].
  apply IH; [done|by apply deliver_ok|by apply Hd].
Qed.

(** The pending set only shrinks once assembly has started. *)
Lemma engine_pending_shrinks evs cd s s2 :
  Forall tab_event evs → ok cd → pending_of cd = Some s →
  pending_of (final_data cd (engine evs cd)) = Some s2 → s2 ⊆ s.
Proof.
  revert cd s. induction evs as [|ev evs IH]; intros cd s Hevs Hok Hs Hs2.
  { change (pending_of cd = Some s2) in Hs2. rewrite Hs in Hs2.
    by injection Hs2 as <-. }
  apply Forall_cons in Hevs as [Hev Hevs].
  rewrite engine_cons, final_data_cons in Hs2.
  pose proof (deliver_ok ev cd Hev Hok) as Hok'.
  destruct (deliver_step ev cd Hev Hok)
    as [(v&s'&b&_&Hs'&Hin&_&Hd&_)|[(v&Hv&Hd&_)|(e&_&Hraise)]].
  - rewrite Hs in Hs'. injection Hs' as <-.
    transitivity (s ∖ {[event_key ev]}); [|set_solver].
    apply (IH (o_data (deliver ev cd))); [done|done| |done].
    by rewrite Hd, pending_of_insert_pending.
  - destruct (decide (event_key ev = pending_tabs)) as [Hk|Hk].
    + rewrite engine_dead in Hs2; [done|done|done|].
      rewrite Hd. by apply pending_of_overwritten.
    + apply (IH (o_data (deliver ev cd))); [done|done| |done].
      by rewrite Hd, pending_of_insert_ne.
  - rewrite Hraise in Hok', Hs2. by apply (IH cd).
Qed.

End Runs.

(** ** Discovery *)

Lemma requests_fmap (l : list request) : requests (YRequest <$> l) = l.
Proof.
  induction l as [|r l IH]; [done|]. unfold requests in *. simpl. by f_equal.
Qed.


Lemma NoDup_fmap_eq {A B} (f : A → B) (l : list A) x y :
  NoDup (f <$> l) → x ∈ l → y ∈ l → f x = f y → x = y.
Proof.
  induction l as [|a l IH]; intros Hnd Hx Hy Hf.
  { by apply elem_of_nil in Hx. }
  rewrite fmap_cons in Hnd. apply NoDup_cons in Hnd as [Ha Hnd].
  apply elem_of_cons in Hx as [->|Hx]; apply elem_of_cons in Hy as [->|Hy].
  - done.
  - destruct Ha. rewrite Hf. by apply list_elem_of_fmap_2.
  - destruct Ha. rewrite <- Hf. by apply list_elem_of_fmap_2.
  - by apply IH.
Qed.

Lemma event_keys_eq (evs : list event) :
  event_key <$> evs = request_key <$> (event_request <$> evs).
Proof. by rewrite <- list_fmap_compose. Qed.

Lemma new_car_data_lookup car k :
  k ≠ base_info → k ≠ pending_tabs →
  new_car_data car !! k = if decide (k ∈ tab_keys) then Some PNone else None.
Proof.
  intros Hb Hp. unfold new_car_data. rewrite lookup_insert_ne by done.
  case_decide as Hk.
  - unfold tab_keys in Hk.
    repeat (apply elem_of_cons in Hk as [->|Hk]; [done|]).
    by apply elem_of_nil in Hk.
  - unfold tab_keys in Hk. rewrite !not_elem_of_cons in Hk.
    destruct Hk as (?&?&?&?&?&?&?&_).
    by rewrite !lookup_insert_ne, lookup_empty by done.
Qed.

Lemma fields_of_lookup cd k :
  fields_of cd !! k =
    if decide (k = base_info ∨ k = pending_tabs) then None else cd !! k.
Proof.
  unfold fields_of. case_decide as Hk.
  - destruct Hk as [->| ->]; [apply lookup_delete_eq|].
    rewrite lookup_delete_ne by done. apply lookup_delete_eq.
  - rewrite !lookup_delete_ne; [done|naive_solver..].
Qed.

Lemma placeholder_dict v :
  is_placeholder v → ∃ b, v = PDict b ∧ b !! pending_tabs = None.
Proof.
  intros [->|(value&url&->)]; eexists; (split; [done|]).
  - by apply lookup_singleton_ne.
  - rewrite lookup_insert_ne by done. by apply lookup_singleton_ne.
Qed.

Section Assembly.

Context {web : Scrapy}.

Lemma discovered_eq car resp :
  discovered car resp =
    Outcome
      (<[pending_tabs := PSet (found_keys (discovery (resp_tabs resp)))]>
         (new_car_data car))
      [] (YRequest <$> found_requests (discovery (resp_tabs resp)))
      (match found_error (discovery (resp_tabs resp)) with
       | None => inr ()
       | Some e => inl e
       end).
Proof.
  unfold discovered, parse_first_page.
  rewrite (dispatch_tabs_spec _ _ ∅) by by apply pending_of_Some.
  by rewrite (right_id_L ∅ (∪)).
Qed.

Lemma sub_tasks_eq car resp :
  sub_tasks car resp = found_requests (discovery (resp_tabs resp)).
Proof. unfold sub_tasks. rewrite discovered_eq. apply requests_fmap. Qed.

Lemma assembling_eq car resp :
  assembling car resp =
    <[pending_tabs := PSet (found_keys (discovery (resp_tabs resp)))]>
      (new_car_data car).
Proof. unfold assembling. by rewrite discovered_eq. Qed.

Lemma pending_of_assembling car resp :
  pending_of (assembling car resp)
    = Some (found_keys (discovery (resp_tabs resp))).
Proof. rewrite assembling_eq. apply pending_of_insert_pending. Qed.

Lemma ok_assembling car resp : ok (assembling car resp).
Proof. rewrite assembling_eq. apply ok_insert_pending, ok_new_car_data. Qed.

(** The data key of every tab request is pending when assembly starts. *)
Lemma field_keys_pending car resp k :
  k ∈ field_keys car resp → k ∈ found_keys (discovery (resp_tabs resp)).
Proof.
  intros Hk. apply (discovery_keys (resp_tabs resp)).
  apply elem_of_list_to_set. unfold field_keys in Hk.
  by rewrite sub_tasks_eq in Hk.
Qed.

Lemma discovered_returns car resp :
  o_ret (discovered car resp) = inr () ↔
  found_error (discovery (resp_tabs resp)) = None.
Proof.
  rewrite discovered_eq. cbn [o_ret].
  by destruct (found_error (discovery (resp_tabs resp))).
Qed.

(** When [parse_first_page] returns, the pending set is exactly the set of
    the data keys of the requests it yielded. *)
Lemma assembling_complete car resp :
  o_ret (discovered car resp) = inr () →
  sub_tasks car resp = omap request_of_tab (resp_tabs resp) ∧
  pending_of (assembling car resp)
    = Some (list_to_set (field_keys car resp)).
Proof.
  intros (Hreqs&Hkeys&_)%discovered_returns%discovery_complete.
  rewrite pending_of_assembling. unfold field_keys.
  by rewrite sub_tasks_eq, Hreqs, Hkeys.
Qed.

Lemma sub_task_event car resp ev :
  event_request ev ∈ sub_tasks car resp →
  tab_event ev ∧ event_key ev ∈ field_keys car resp.
Proof.
  intros Hin. split.
  - rewrite sub_tasks_eq in Hin.
    apply discovery_requests in Hin as (t&_&Ht). by exists t.
  - unfold field_keys, event_key. by apply list_elem_of_fmap_2.
Qed.

Lemma sub_task_events car resp evs :
  Forall (λ ev, event_request ev ∈ sub_tasks car resp) evs →
  Forall tab_event evs.
Proof.
  intros H. eapply Forall_impl; [done|].
  intros ev Hev. by apply (sub_task_event car resp).
Qed.

Lemma start_cars_entity cars es e ent :
  start_cars cars = (es, e) → ent ∈ es →
  ∃ car url, car ∈ cars ∧
    ent = Entity (Request url cb_first_page None) (new_car_data car).
Proof.
  revert es e. induction cars as [|car cars IH]; intros es e Heq Hin.
  { injection Heq as <- <-. by apply elem_of_nil in Hin. }
  cbn [start_cars] in Heq. unfold scrapy_Request in Heq.
  destruct (car !! K "detail_url") as [[]|];
    try (injection Heq as <- <-; by apply elem_of_nil in Hin).
  destruct (request_url _) as [u|];
    [|injection Heq as <- <-; by apply elem_of_nil in Hin].
  destruct (start_cars cars) as [es' e'] eqn:E. injection Heq as <- <-.
  apply elem_of_cons in Hin as [->|Hin].
  - eexists _, _. split; [by left|done].
  - destruct (IH es' e' eq_refl Hin) as (car'&url&?&?).
    exists car', url. split; [by right|done].
Qed.

Lemma start_requests_entity f es l e ent :
  start_requests f = (es, l, e) → ent ∈ es →
  ∃ car url, ent = Entity (Request url cb_first_page None) (new_car_data car).
Proof.
  destruct f as [| |cars]; simpl.
  - intros [= <- _ _] Hin. by apply elem_of_nil in Hin.
  - intros [= <- _ _] Hin. by apply elem_of_nil in Hin.
  - destruct (start_cars cars) as [es' e'] eqn:E. intros [= <- _ _] Hin.
    destruct (start_cars_entity _ _ _ _ E Hin) as (car&url&_&?). eauto.
Qed.

(** A page without a tab to fetch: [parse_first_page] does nothing. *)
Lemma discovery_no_target tabs :
  Forall (λ t, tab_target t = None) tabs → discovery tabs = Found [] ∅ None.
Proof.
  induction 1 as [|t tabs Ht _ IH]; [done|].
  cbn [discovery]. by rewrite Ht.
Qed.

Lemma discovered_no_target car resp :
  Forall (λ t, tab_target t = None) (resp_tabs resp) →
  discovered car resp = Outcome (new_car_data car) [] [] (inr ()).
Proof.
  intros Hno. rewrite discovered_eq, (discovery_no_target _ Hno).
  cbn [found_keys found_requests found_error fmap list_fmap].
  rewrite insert_id; [done|]. by apply pending_of_Some.
Qed.


(** What a run must provide for [engine_gather], when [parse_first_page]
    returned and the events answer each tab request of the car once. *)
Lemma all_sub_tasks_answered car resp evs :
  sub_tasks car resp ≠ [] →
  pending_tabs ∉ field_keys car resp →
  event_request <$> evs ≡ₚ sub_tasks car resp →
  Forall tab_event evs ∧
  (list_to_set (field_keys car resp) : gset pykey) ≠ ∅ ∧
  (∀ ev, ev ∈ evs → event_key ev ∈ field_keys car resp) ∧
  (∀ ev, ev ∈ evs → event_key ev ≠ pending_tabs) ∧
  (∀ k, k ∈ (list_to_set (field_keys car resp) : gset pykey) →
        ∃ ev, ev ∈ evs ∧ event_key ev = k).
Proof.
  intros Hne Hpt Hperm.
  assert (Hsub : ∀ ev, ev ∈ evs → event_request ev ∈ sub_tasks car resp).
  { intros ev Hev. rewrite <- Hperm. by apply list_elem_of_fmap_2. }
  assert (Hkeys : ∀ ev, ev ∈ evs → event_key ev ∈ field_keys car resp).
  { intros ev Hev. by apply (sub_task_event car resp), Hsub. }
  split_and!.
  - apply Forall_forall. intros ev Hev.
    by apply (sub_task_event car resp), Hsub.
  - unfold field_keys. destruct (sub_tasks car resp) as [|req reqs]; [done|].
    rewrite fmap_cons. set_solver.
  - done.
  - intros ev Hev Hk. apply Hpt. rewrite <- Hk. by apply Hkeys.
  - intros k Hk%elem_of_list_to_set. unfold field_keys in Hk.
    apply list_elem_of_fmap in Hk as (req&->&Hreq). rewrite <- Hperm in Hreq.
    apply list_elem_of_fmap in Hreq as (ev&->&Hev). by exists ev.
Qed.

Lemma tab_event_placeholder extract_data ev v :
  tab_event ev → event_key ev ∉ tab_keys →
  event_result extract_data ev = inr v →
  is_placeholder v.
Proof.
  intros [t (k&Hk&_&_&_&Hor)%request_of_tab_Some] Hnk.
  unfold event_key, request_key in Hnk. rewrite Hk in Hnk. simpl in Hnk.
  destruct Hor as [[Hu _]|?]; [|done].
  destruct ev as [req resp|req value]; cbn [event_request] in *.
  - rewrite event_result_fetched, Hu. intros [= <-]. by left.
  - rewrite event_result_failed. intros [= <-]. right. by eexists _, _.
Qed.

Lemma pending_unset_assembling car resp : pending_unset (assembling car resp).
Proof.
  intros s k _ _. rewrite fields_of_lookup. case_decide as Hk; [by left|].
  rewrite assembling_eq, lookup_insert_ne by naive_solver.
  rewrite new_car_data_lookup by naive_solver. case_decide; auto.
Qed.

Lemma pending_unset_deliver extract_data ev cd :
  tab_event ev → ok cd → pending_unset cd →
  pending_unset (o_data (deliver extract_data ev cd)).
Proof.
  intros Hev Hok Hun s1 k1 Hs1 Hk1.
  destruct (deliver_step extract_data ev cd Hev Hok)
    as [(v&s&b&Hv&Hs&Hin&Hpt&Hd&_)|[(v&Hv&Hd&_&_&Hrej)|(e&_&Hraise)]].
  - rewrite Hd in Hs1 |- *.
    rewrite pending_of_insert_pending in Hs1. injection Hs1 as <-.
    apply elem_of_difference_singleton in Hk1 as [Hk1 Hne].
    specialize (Hun s k1 Hs Hk1). rewrite !fields_of_lookup in *.
    case_decide as Hk; [by left|].
    by rewrite !lookup_insert_ne by naive_solver.
  - rewrite Hd in Hs1 |- *.
    destruct (decide (event_key ev = pending_tabs)) as [Hk|Hk].
    { by rewrite (pending_of_overwritten extract_data ev v cd) in Hs1. }
    rewrite pending_of_insert_ne in Hs1 by done.
    specialize (Hun s1 k1 Hs1 Hk1). rewrite !fields_of_lookup in *.
    case_decide as Hk'; [by left|].
    rewrite lookup_insert_ne; [done|]. intros <-.
    by destruct (Hrej s1 Hs1).
  - rewrite Hraise in Hs1 |- *. by apply (Hun s1).
Qed.

Lemma untouched_assembling car resp keys :
  car !! pending_tabs = None → untouched keys (assembling car resp).
Proof.
  intros Hcar. rewrite assembling_eq. split.
  - intros b. rewrite lookup_insert_ne by done. unfold new_car_data.
    rewrite lookup_insert_eq. by intros [= <-].
  - intros k Hk _.
    assert (k ≠ pending_tabs) by (intros ->; by apply not_tab_key_pending).
    assert (k ≠ base_info) by (intros ->; by apply not_tab_key_base).
    rewrite lookup_insert_ne, new_car_data_lookup by done.
    by rewrite decide_True.
Qed.

Lemma untouched_deliver extract_data keys ev cd :
  tab_event ev → event_key ev ∈ keys → ok cd → untouched keys cd →
  untouched keys (o_data (deliver extract_data ev cd)).
Proof.
  intros Hev Hkey Hok [Hb Hu].
  assert (Hins : ∀ v, event_result extract_data ev = inr v →
                      untouched keys (<[event_key ev := v]> cd)).
  { intros v Hv. split.
    - intros b. destruct (decide (event_key ev = base_info)) as [Hk|Hk].
      + rewrite Hk, lookup_insert_eq. intros Heq.
        destruct (placeholder_dict v) as (b'&Hb'&?).
        { apply (tab_event_placeholder extract_data ev); [done| |done].
          rewrite Hk. apply not_tab_key_base. }
        congruence.
      + rewrite lookup_insert_ne by done. apply Hb.
    - intros k Hk Hnk. rewrite lookup_insert_ne; [by apply Hu|].
      by intros <-. }
  destruct (deliver_step extract_data ev cd Hev Hok)
    as [(v&s&b&Hv&_&_&_&Hd&_)|[(v&Hv&Hd&_)|(e&_&Hraise)]].
  - rewrite Hd. destruct (Hins v Hv) as [Hb' Hu']. split.
    + intros b'. rewrite lookup_insert_ne by done. apply Hb'.
    + intros k Hk Hnk. rewrite lookup_insert_ne; [by apply Hu'|].
      intros <-. by apply not_tab_key_pending.
  - rewrite Hd. by apply Hins.
  - by rewrite Hraise.
Qed.

End Assembly.

(** * The claims *)

Section Claims.

Context {web : Scrapy}.
Variable extract_data : callback → response → exn + pyval.

Local Abbreviation deliver := (deliver extract_data).
Local Abbreviation engine := (engine extract_data).
Local Abbreviation event_result := (event_result extract_data).
Local Abbreviation returns := (returns extract_data).

(** C2, as amended.  An event whose data key is not in the pending set
    leaves the set as it is and yields nothing, but it is not dropped: the
    callback stores the event's value under the key (over any value it
    held) and then ends with the [KeyError] of [set.remove].  A response
    whose extractor raises has no value to store: its callback ends with
    the extractor's exception and leaves [car_data] as it was. *)
Theorem C2_event_for_key_not_pending ev cd s :
  tab_event ev → pending_of cd = Some s →
  event_key ev ∉ s → event_key ev ≠ pending_tabs →
  let r := deliver ev cd in
  pending_of (o_data r) = Some s ∧
  o_out r = [] ∧
  (∀ v, event_result ev = inr v →
        o_data r = <[event_key ev := v]> cd ∧ o_ret r = inl KeyError) ∧
  (∀ e, event_result ev = inl e → o_data r = cd ∧ o_ret r = inl e).
Proof.
  intros Hev Hs Hk Hpt r. subst r.
  destruct (event_result ev) as [e|v] eqn:Hres.
  - rewrite (deliver_raise extract_data ev cd e Hev Hres). cbn.
    split_and!; [done|done| |by intros ? [= <-]]. by intros ? [=].
  - destruct (deliver_resolve extract_data ev cd v Hev Hres) as (Hd&Ho&Hr).
    rewrite Hd, Ho, Hr. rewrite (resolve_absent _ _ _ s) by done. cbn.
    split_and!; [by rewrite pending_of_insert_ne|done| |by intros ? [=]].
    by intros ? [= <-].
Qed.

(** C3, as amended.  Along any run of events that answer the car's tab
    requests: a callback yields only when it leaves the pending set empty;
    when the data keys of the [N] tab requests are pairwise distinct,
    nothing is yielded while fewer than [N] events were delivered; and at
    most one record is yielded in all. *)
Theorem C3_no_early_no_second_record car resp evs :
  Forall (λ ev, event_request ev ∈ sub_tasks car resp) evs →
  Forall (λ r, o_out r = [] ∨ pending_of (o_data r) = Some ∅)
         (engine evs (assembling car resp)) ∧
  (NoDup (field_keys car resp) →
   length evs < length (sub_tasks car resp) →
   emitted (engine evs (assembling car resp)) = []) ∧
  length (emitted (engine evs (assembling car resp))) ≤ 1.
Proof.
  intros Hevs%sub_task_events. pose proof (ok_assembling car resp) as Hok.
  split_and!.
  - by apply engine_yield_empties.
  - intros Hnd Hlt.
    apply (engine_too_few _ _ _ _ Hevs Hok (pending_of_assembling car resp)).
    eapply Nat.lt_le_trans; [exact Hlt|].
    replace (length (sub_tasks car resp))
      with (size (list_to_set (field_keys car resp) : gset pykey)).
    + apply subseteq_size. intros k Hk%elem_of_list_to_set.
      by apply (field_keys_pending car resp).
    + rewrite size_list_to_set by done. unfold field_keys.
      by rewrite length_fmap.
  - by apply engine_at_most_one.
Qed.

(** C4, as amended.  When nothing is pending, [finalize_car_data] returns
    the flat merge of the car's base fields with the assembled fields, in
    which an assembled field wins over a base field of the same key (and
    the key ["base_info"] itself is dropped). *)
Theorem C4_merge_assembled_wins cd b :
  pending_of cd = Some ∅ → cd !! base_info = Some (PDict b) →
  ∃ r, finalize_car_data cd = inr (Some r) ∧
       r !! base_info = None ∧
       ∀ k, k ≠ base_info →
            r !! k = match fields_of cd !! k with
                     | Some v => Some v
                     | None => b !! k
                     end.
Proof.
  intros Hs Hb. exists (merged_record cd b). split_and!.
  - by apply finalize_complete.
  - apply merged_record_base_info.
  - intros k Hk. rewrite merged_record_lookup by done.
    rewrite fields_of_lookup.
    destruct (decide (k = pending_tabs)) as [->|Hpt].
    + rewrite lookup_delete_eq. by rewrite decide_True by by right.
    + rewrite lookup_delete_ne by done.
      by rewrite decide_False by naive_solver.
Qed.



(** C8, as amended.  When the first fetch of a car fails, or the first
    page has no tab to fetch (none but the skipped ["model"] and
    ["compare"]), nothing is yielded for the car, neither a record nor a
    request, and [car_data] stays as [start_requests] made it; in the
    second case [parse_first_page] returns without a log line or an
    exception. *)
Theorem C8_discovery_failure f es l e ent value resp :
  start_requests f = (es, l, e) → ent ∈ es →
  (let r := deliver (Failed (ent_request ent) value) (ent_car_data ent) in
   o_out r = [] ∧ o_data r = ent_car_data ent) ∧
  (Forall (λ t, tab_target t = None) (resp_tabs resp) →
   deliver (Fetched (ent_request ent) resp) (ent_car_data ent) =
     Outcome (ent_car_data ent) [] [] (inr ())).
Proof.
  intros Hst Hin.
  destruct (start_requests_entity _ _ _ _ _ Hst Hin) as (car&url&->).
  cbn [ent_request ent_car_data]. rewrite deliver_failed, deliver_first_page.
  split.
  - by rewrite missing_data_key_handle_error.
  - intros Hno. by apply discovered_no_target.
Qed.



(** C9.  At every point of the assembly of a car, a key that is still in
    the pending set has no value among the assembled fields (no entry, or
    the [None] it was initialised with), and the pending set of any later
    point is a subset of the present one: a key that left does not
    return. *)
Theorem C9_pending_keys_unset_and_never_return car resp evs evs2 :
  Forall (λ ev, event_request ev ∈ sub_tasks car resp) (evs ++ evs2) →
  let F := final_data (assembling car resp)
                      (engine evs (assembling car resp)) in
  (∀ s k, pending_of F = Some s → k ∈ s →
          fields_of F !! k = None ∨ fields_of F !! k = Some PNone) ∧
  (∀ s s2, pending_of F = Some s →
           pending_of (final_data F (engine evs2 F)) = Some s2 → s2 ⊆ s).
Proof.
  intros [Hevs Hevs2]%sub_task_events%Forall_app F.
  destruct (engine_invariant extract_data (λ cd, ok cd ∧ pending_unset cd)
              evs (assembling car resp)) as [[HokF HunF] _].
  { intros ev cd Hev [Hok Hun]. rewrite Forall_forall in Hevs. split.
    - apply deliver_ok; auto.
    - apply pending_unset_deliver; auto. }
  { split; [apply ok_assembling|apply pending_unset_assembling]. }
  split; [done|]. intros s s2 Hs Hs2.
  by apply (engine_pending_shrinks extract_data evs2 F).
Qed.

(** C10.  For a car whose dictionary in [cars_data.json] has no
    ["_pending_tabs"] entry (the cars spider writes none), every record
    yielded has the seven initialised keys, holds [None] under each of
    them that is the data key of no tab request, and has neither
    ["base_info"] nor ["_pending_tabs"]. *)
Theorem C10_record_keys car resp evs :
  car !! pending_tabs = None →
  Forall (λ ev, event_request ev ∈ sub_tasks car resp) evs →
  Forall (λ r : dict,
            (∀ k, k ∈ tab_keys → is_Some (r !! k)) ∧
            (∀ k, k ∈ tab_keys → k ∉ field_keys car resp →
                  r !! k = Some PNone) ∧
            r !! base_info = None ∧
            r !! pending_tabs = None)
         (emitted (engine evs (assembling car resp))).
Proof.
  intros Hcar Hevs. apply Forall_forall. intros r Hr.
  rewrite Forall_forall in Hevs.
  destruct (emitted_inv extract_data
              (λ cd, ok cd ∧ untouched (field_keys car resp) cd)
              evs (assembling car resp) r)
    as (F&b&[HokF [HbF HuF]]&_&HFb&->); [naive_solver| | | |done|].
  { intros ev cd Hev [Hok Hun].
    destruct (sub_task_event car resp ev (Hevs ev Hev)). split.
    - by apply deliver_ok.
    - by apply untouched_deliver. }
  { apply Forall_forall. intros ev Hev.
    by apply (sub_task_event car resp), Hevs. }
  { split; [apply ok_assembling|by apply untouched_assembling]. }
  assert (Hlook : ∀ k, k ∈ tab_keys → merged_record F b !! k = F !! k).
  { intros k Hk.
    assert (k ≠ pending_tabs) by (intros ->; by apply not_tab_key_pending).
    assert (k ≠ base_info) by (intros ->; by apply not_tab_key_base).
    rewrite merged_record_lookup, lookup_delete_ne by done.
    by destruct (ok_keys _ HokF k Hk) as [v ->]. }
  split_and!.
  - intros k Hk. rewrite Hlook by done. by apply ok_keys.
  - intros k Hk Hnk. rewrite Hlook by done. by apply HuF.
  - apply merged_record_base_info.
  - rewrite merged_record_lookup, lookup_delete_eq by done. by apply HbF.
Qed.

End Claims.

(** * The claims on a concrete car *)

Section ConcreteCar.

#[local] Existing Instance Demo.scrapy.



(** C2: the range tab of [Demo.page_dup] fails after the mileage tab was
    stored; ["mileage"] is no longer pending, yet the stored value is
    replaced by the error placeholder, the log line is the error of
    [handle_error], and the errback ends with [KeyError]. *)
Lemma C2_counterexample :
  let r := deliver Demo.extract Demo.ev_range_failed Demo.after_mileage in
  pending_of Demo.after_mileage = Some ∅ ∧
  Demo.after_mileage !! K "mileage" = Some Demo.mileage_value ∧
  o_data r !! K "mileage"
    = Some (PDict (<[K "error" := PStr "timeout"]>
                     {[K "url" := PStr "https://x/alto/range"]})) ∧
  o_data r ≠ Demo.after_mileage ∧
  o_log r = [error_request_failed (K "mileage") "timeout"] ∧
  o_ret r = inl KeyError.
Proof.
  split_and!.
  - vm_compute. reflexivity.
  - vm_compute. reflexivity.
  - vm_compute. reflexivity.
  - intros H. apply (f_equal (.!! K "mileage")) in H. vm_compute in H.
    discriminate H.
  - vm_compute. reflexivity.
  - vm_compute. reflexivity.
Qed.

Lemma C2_witness :
  let r := deliver Demo.extract Demo.ev_range_failed Demo.after_mileage in
  pending_of (o_data r) = Some ∅ ∧
  o_out r = [] ∧
  (∀ v, event_result Demo.extract Demo.ev_range_failed = inr v →
        o_data r = <[event_key Demo.ev_range_failed := v]>
                     Demo.after_mileage ∧
        o_ret r = inl KeyError) ∧
  (∀ e, event_result Demo.extract Demo.ev_range_failed = inl e →
        o_data r = Demo.after_mileage ∧ o_ret r = inl e).
Proof.
  apply (C2_event_for_key_not_pending Demo.extract Demo.ev_range_failed
           Demo.after_mileage ∅).
  - exists (Tab (K "range") "https://x/alto/range"). by vm_compute.
  - by vm_compute.
  - apply not_elem_of_empty.
  - by vm_compute.
Defined.

(** C3: the car of [Demo.page_dup] has two tab requests, and the first of
    their two events already yields the record. *)
Lemma C3_counterexample :
  length (sub_tasks Demo.car Demo.page_dup) = 2 ∧
  length (emitted (engine Demo.extract [Demo.ev_mileage]
                          (assembling Demo.car Demo.page_dup))) = 1.
Proof. split; vm_compute; reflexivity. Qed.

Lemma C3_witness :
  Forall (λ r, o_out r = [] ∨ pending_of (o_data r) = Some ∅)
         (engine Demo.extract [Demo.ev_price]
                 (assembling Demo.car Demo.page_two)) ∧
  (NoDup (field_keys Demo.car Demo.page_two) →
   length [Demo.ev_price] < length (sub_tasks Demo.car Demo.page_two) →
   emitted (engine Demo.extract [Demo.ev_price]
                   (assembling Demo.car Demo.page_two)) = []) ∧
  length (emitted (engine Demo.extract [Demo.ev_price]
                          (assembling Demo.car Demo.page_two))) ≤ 1.
Proof.
  apply (C3_no_early_no_second_record Demo.extract Demo.car Demo.page_two).
  vm_compute. repeat constructor.
Defined.

(** C4: the car has a base field ["specifications"], as every item of the
    cars spider has; in the record it is replaced by what the specs tab
    gave, here the error placeholder. *)
Lemma C4_counterexample :
  Demo.car !! K "specifications"
    = Some (PDict {[K "engine" := PStr "998 cc"]}) ∧
  (λ r : dict, r !! K "specifications")
    <$> emitted (engine Demo.extract [Demo.ev_price; Demo.ev_specs_failed]
                        (assembling Demo.car Demo.page_two))
    = [Some (PDict (<[K "error" := PStr "timeout"]>
                      {[K "url" := PStr "https://x/alto/specs"]}))] ∧
  (λ r : dict, r !! K "specifications")
    <$> emitted (engine Demo.extract [Demo.ev_price; Demo.ev_specs_failed]
                        (assembling Demo.car Demo.page_two))
    ≠ [Demo.car !! K "specifications"].
Proof.
  split_and!.
  - vm_compute. reflexivity.
  - vm_compute. reflexivity.
  - intros H. vm_compute in H. discriminate H.
Qed.

Lemma C4_witness :
  ∃ r, finalize_car_data (new_car_data Demo.car) = inr (Some r) ∧
       r !! base_info = None ∧
       ∀ k, k ≠ base_info →
            r !! k = match fields_of (new_car_data Demo.car) !! k with
                     | Some v => Some v
                     | None => Demo.car !! k
                     end.
Proof.
  apply (C4_merge_assembled_wins (new_car_data Demo.car) Demo.car).
  - by vm_compute.
  - by vm_compute.
Defined.







(** C8: the first page of the car comes back with no tab to request;
    [parse_first_page] writes no log line, raises nothing and yields
    nothing, so the failed discovery is reported nowhere. *)
Lemma C8_counterexample :
  start_requests (loaded [Demo.car])
    = ([Entity Demo.first_request (new_car_data Demo.car)], [], None) ∧
  deliver Demo.extract (Fetched Demo.first_request Demo.page_none)
          (new_car_data Demo.car)
    = Outcome (new_car_data Demo.car) [] [] (inr ()).
Proof. split; vm_compute; reflexivity. Qed.

Lemma C8_witness :
  let ent := Entity Demo.first_request (new_car_data Demo.car) in
  (let r := deliver Demo.extract (Failed (ent_request ent) "timeout")
                    (ent_car_data ent) in
   o_out r = [] ∧ o_data r = ent_car_data ent) ∧
  (Forall (λ t, tab_target t = None) (resp_tabs Demo.page_none) →
   deliver Demo.extract (Fetched (ent_request ent) Demo.page_none)
           (ent_car_data ent)
     = Outcome (ent_car_data ent) [] [] (inr ())).
Proof.
  apply (C8_discovery_failure Demo.extract (loaded [Demo.car])
           [Entity Demo.first_request (new_car_data Demo.car)] [] None).
  - vm_compute. reflexivity.
  - constructor.
Defined.

Lemma C9_witness :
  let F := final_data (assembling Demo.car Demo.page_two)
                      (engine Demo.extract [Demo.ev_price]
                              (assembling Demo.car Demo.page_two)) in
  (∀ s k, pending_of F = Some s → k ∈ s →
          fields_of F !! k = None ∨ fields_of F !! k = Some PNone) ∧
  (∀ s s2, pending_of F = Some s →
           pending_of (final_data F (engine Demo.extract
                                            [Demo.ev_specs_failed] F))
             = Some s2 →
           s2 ⊆ s).
Proof.
  apply (C9_pending_keys_unset_and_never_return Demo.extract
           Demo.car Demo.page_two [Demo.ev_price] [Demo.ev_specs_failed]).
  vm_compute. repeat constructor.
Defined.

Lemma C10_witness :
  Forall (λ r : dict,
            (∀ k, k ∈ tab_keys → is_Some (r !! k)) ∧
            (∀ k, k ∈ tab_keys → k ∉ field_keys Demo.car Demo.page_two →
                  r !! k = Some PNone) ∧
            r !! base_info = None ∧
            r !! pending_tabs = None)
         (emitted (engine Demo.extract [Demo.ev_price; Demo.ev_specs_failed]
                          (assembling Demo.car Demo.page_two))).
Proof.
  apply (C10_record_keys Demo.extract Demo.car Demo.page_two
           [Demo.ev_price; Demo.ev_specs_failed]).
  - vm_compute. reflexivity.
  - vm_compute. repeat constructor.
Defined.

End ConcreteCar.

(** * Further properties of the spider *)

(** ** [str.replace] *)

Lemma prefix_app (a s : string) : String.prefix a (a +:+ s) = true.
Proof.
  induction a as [|c a IH]; [by destruct s|]. simpl.
  destruct (Ascii.ascii_dec c c); [apply IH|done].
Qed.

Lemma replace_from_skip old new (a s : string) :
  Py.replace_from old new (String.length a) (a +:+ s)
    = Py.replace_from old new 0 s.
Proof. induction a as [|c a IH]; [done|]. simpl. apply IH. Qed.

Lemma replace_head old new s :
  old ≠ "" → Py.replace old new (old +:+ s) = new +:+ Py.replace old new s.
Proof.
  intros Hold. destruct old as [|c old]; [done|]. unfold Py.replace.
  change (String c old +:+ s) with (String c (old +:+ s)).
  cbn [Py.replace_from].
  change (String c (old +:+ s)) with (String c old +:+ s).
  rewrite prefix_app. f_equal.
  replace (String.length (String c old) - 1) with (String.length old)
    by (simpl; lia).
  apply replace_from_skip.
Qed.


(** ** [start_requests] *)

Section StartRequests.

Context {web : Scrapy}.

Lemma start_cars_cons_good car cars url :
  price_url car url →
  start_cars (car :: cars)
    = (start_entity car url :: (start_cars cars).1, (start_cars cars).2).
Proof.
  intros (u&Hu&Hurl). cbn [start_cars]. unfold scrapy_Request.
  rewrite Hu, Hurl. by destruct (start_cars cars).
Qed.

Lemma start_cars_cons_bad car cars :
  ¬ startable car → start_cars (car :: cars) = ([], Some (start_error car)).
Proof.
  intros Hbad. cbn [start_cars]. unfold start_error, scrapy_Request.
  destruct (car !! K "detail_url") as [[| | |u| | |]|] eqn:E; try done.
  destruct (request_url _) as [url|] eqn:Eu; [|done].
  destruct Hbad. exists url, u. by split.
Qed.

Lemma start_cars_good cars :
  Forall startable cars →
  ∃ es, start_cars cars = (es, None) ∧
        Forall2 (λ car ent, ∃ url, price_url car url ∧
                                   ent = start_entity car url) cars es.
Proof.
  induction 1 as [|car cars [url Hurl] _ (es&Hes&Hall)].
  - by exists [].
  - exists (start_entity car url :: es).
    rewrite (start_cars_cons_good car cars url Hurl), Hes.
    split; [done|]. constructor; [|done]. by exists url.
Qed.

Lemma start_cars_app good cars es :
  Forall2 (λ car ent, ∃ url, price_url car url ∧
                             ent = start_entity car url) good es →
  start_cars (good ++ cars) = (es ++ (start_cars cars).1, (start_cars cars).2).
Proof.
  induction 1 as [|car ent good es (url&Hurl&->) _ IH].
  - simpl. by destruct (start_cars cars).
  - rewrite <- app_comm_cons, (start_cars_cons_good car _ url Hurl).
    by rewrite IH.
Qed.

(** When every car of the file has a string under ["detail_url"] and
    [scrapy.Request] accepts the price URL made from it, [start_requests]
    yields one first-page request per car, in the order of the file, each
    with a [car_data] of its own made from that car, without a log line or
    an exception. *)
Theorem start_requests_one_per_car cars :
  Forall startable cars →
  ∃ es, start_requests (loaded cars) = (es, [], None) ∧
        Forall2 (λ car ent, ∃ url, price_url car url ∧
                                   ent = start_entity car url) cars es.
Proof.
  intros (es&Hes&Hall)%start_cars_good. exists es. simpl. by rewrite Hes.
Qed.

(** The first car for which no request can be made ends [start_requests]
    with an exception: [KeyError] when it has no ["detail_url"],
    [AttributeError] when its ["detail_url"] is not a string, [ValueError]
    when [scrapy.Request] rejects its price URL.  The cars before it have
    their requests, the cars after it get none, and the spider logs
    nothing. *)
Theorem start_requests_stops_at_bad_car good bad rest :
  Forall startable good → ¬ startable bad →
  ∃ es, start_requests (loaded (good ++ bad :: rest))
          = (es, [], Some (start_error bad)) ∧
        Forall2 (λ car ent, ∃ url, price_url car url ∧
                                   ent = start_entity car url) good es.
Proof.
  intros (es&Hes&Hall)%start_cars_good Hbad.
  exists es. simpl.
  rewrite (start_cars_app good _ es Hall), (start_cars_cons_bad _ _ Hbad).
  simpl. by rewrite (right_id_L [] (++)).
Qed.


End StartRequests.

(** ** [parse_first_page] *)

Lemma omap_length_le {A B} (f : A → option B) (l : list A) :
  length (omap f l) ≤ length l.
Proof.
  induction l as [|x l IH]; [done|].
  cbn [omap list_omap length]. destruct (f x); cbn [length]; lia.
Qed.

Lemma tab_mapping_callback_key i k cb :
  tab_mapping !! i = Some (k, Some cb) → callback_key cb = Some k.
Proof.
  intros H. apply elem_of_list_to_map_2 in H.
  repeat (apply elem_of_cons in H as [H|H]; [by simplify_eq|]).
  by apply elem_of_nil in H.
Qed.

Section FirstPage.

Context {web : Scrapy}.



(** A tab parser is only ever requested with its own data key
    ([parse_price] with ["price"], [parse_mileage] with ["mileage"], ...),
    and [parse_unknown] only with the id of a tab that [tab_mapping]
    lacks. *)
Theorem request_callback_and_key_agree car resp :
  Forall (λ req,
            match callback_key (req_callback req) with
            | Some k => req_data_key req = Some k
            | None =>
                req_callback req = cb_unknown ∧
                ∃ t, t ∈ resp_tabs resp ∧
                     req_data_key req = Some (tab_id t) ∧
                     tab_mapping !! tab_id t = None
            end)
         (sub_tasks car resp).
Proof.
  rewrite sub_tasks_eq. apply Forall_forall.
  intros req (t&Ht&Hreq)%discovery_requests.
  apply request_of_tab_Some in Hreq as (k&Hk&_&Htarget&_).
  apply tab_target_Some in Htarget as (_&Hget&_&Hor).
  destruct Hor as [(Hcb&->&Hnone)|[Hkey Hcb]].
  - rewrite Hcb. cbn [callback_key]. split; [done|]. by exists t.
  - unfold tab_mapping_get in Hget.
    destruct (tab_mapping !! tab_id t) as [[k' p]|] eqn:E;
      cbn [default] in Hget.
    + injection Hget as -> ->.
      by rewrite (tab_mapping_callback_key _ _ _ E).
    + injection Hget as _ Heq. by destruct Hcb.
Qed.

End FirstPage.

(** ** Runs, further *)

Section MoreRuns.

Context {web : Scrapy}.
Variable extract_data : callback → response → exn + pyval.

Local Abbreviation deliver := (deliver extract_data).
Local Abbreviation engine := (engine extract_data).
Local Abbreviation event_result := (event_result extract_data).
Local Abbreviation returns := (returns extract_data).

Lemma deliver_log ev cd :
  tab_event ev → o_log (deliver ev cd) = event_log ev.
Proof.
  intros (Hk&Hcb&_)%(tab_event_inv extract_data).
  unfold event_key in Hk.
  destruct ev as [req resp|req value]; cbn [event_request] in *.
  - rewrite deliver_fetched. cbn [event_log].
    destruct (req_callback req) eqn:E; try done;
      try (destruct (extract_data _ resp) as [e|v];
           [by rewrite (process_tab_raise _ _ _ _ Hk)
           |by rewrite (process_tab_resolve _ _ _ _ Hk), resolve_log]).
    destruct (parse_unknown_resolve req resp _ cd Hk) as (_&_&_&->).
    by rewrite resolve_log.
  - rewrite deliver_failed. cbn [event_log].
    destruct (handle_error_resolve req _ value cd Hk) as (_&_&_&->).
    by rewrite resolve_log.
Qed.

(** What a run logs does not depend on whether the events were expected: a
    failure writes the one error line of [handle_error] with its data key
    and error text, a response to an unknown tab the one warning of
    [parse_unknown] with the response's URL, and any other response
    nothing. *)
Theorem run_log car resp evs :
  Forall (λ ev, event_request ev ∈ sub_tasks car resp) evs →
  o_log <$> engine evs (assembling car resp) = event_log <$> evs.
Proof.
  intros Hevs%sub_task_events. generalize (assembling car resp).
  induction Hevs as [|ev evs Hev _ IH]; intros cd; [done|].
  rewrite engine_cons, !fmap_cons, IH. by rewrite deliver_log.
Qed.

(** Along a run, [finalize_car_data] never raises on the [car_data] it
    finds as long as the pending entry is a set, and it returns a record
    exactly when that set is empty. *)
Theorem finalize_never_raises car resp evs s :
  Forall (λ ev, event_request ev ∈ sub_tasks car resp) evs →
  pending_of (final_data (assembling car resp)
                         (engine evs (assembling car resp))) = Some s →
  ∃ res, finalize_car_data (final_data (assembling car resp)
                                       (engine evs (assembling car resp)))
           = inr res ∧
         (is_Some res ↔ s = ∅).
Proof.
  intros Hevs%sub_task_events Hs.
  set (F := final_data (assembling car resp)
                       (engine evs (assembling car resp))) in *.
  destruct (engine_invariant extract_data ok evs (assembling car resp))
    as [HokF _].
  { intros ev cd Hev Hok. rewrite Forall_forall in Hevs.
    apply deliver_ok; auto. }
  { apply ok_assembling. }
  fold F in HokF. destruct (ok_base _ HokF) as [b Hb].
  destruct (decide (s = ∅)) as [->|Hne].
  - exists (Some (merged_record F b)). split; [by apply finalize_complete|].
    split; [done|by eexists].
  - exists None. split; [by apply (finalize_pending _ s)|].
    split; [by intros [? ?]|done].
Qed.

Lemma engine_all_return evs cd s :
  Forall tab_event evs → ok cd → pending_of cd = Some s →
  NoDup (event_key <$> evs) →
  (∀ ev, ev ∈ evs → event_key ev ∈ s ∧ event_key ev ≠ pending_tabs) →
  Forall2 (λ ev r, o_ret r = callback_end extract_data ev)
          evs (engine evs cd).
Proof.
  revert cd s. induction evs as [|ev evs IH]; intros cd s Hevs Hok Hs Hnd Hin;
    [constructor|].
  apply Forall_cons in Hevs as [Hev Hevs]. rewrite engine_cons.
  rewrite fmap_cons in Hnd. apply NoDup_cons in Hnd as [Hnew Hnd].
  destruct (Hin ev) as [Hk Hpt]; [by left|].
  pose proof (deliver_ok extract_data ev cd Hev Hok) as Hok'.
  assert (Hrest : ∀ ev', ev' ∈ evs → event_key ev' ∈ s ∖ {[event_key ev]} ∧
                                     event_key ev' ≠ pending_tabs).
  { intros ev' Hev'. destruct (Hin ev') as [? ?]; [by right|].
    split; [|done]. apply elem_of_difference_singleton. split; [done|].
    intros Heq. apply Hnew. rewrite <- Heq. by apply list_elem_of_fmap_2. }
  destruct (deliver_step extract_data ev cd Hev Hok)
    as [(v&s'&b&Hv&Hs'&_&_&Hd&_&Hr&_)|[(v&_&_&_&_&Hrej)|(e&He&Hraise)]].
  - rewrite Hs in Hs'. injection Hs' as <-.
    constructor; [unfold callback_end; by rewrite Hv|].
    apply (IH _ (s ∖ {[event_key ev]})); [done|done| |done|done].
    by rewrite Hd, pending_of_insert_pending.
  - by destruct (Hrej s Hs).
  - rewrite Hraise in Hok' |- *.
    constructor; [unfold callback_end; by rewrite He|].
    apply (IH _ s); [done|done|done|done|].
    intros ev' Hev'. destruct (Hrest ev' Hev') as [Hin' ?].
    split; [|done]. by apply elem_of_difference_singleton in Hin' as [? _].
Qed.

(** When the data keys of a car's tab requests are pairwise distinct, none
    is ["_pending_tabs"] and each request is answered once, then the only
    callbacks of the run that end with an exception are those of the
    responses whose extractor raises, and they end with the exception of
    the extractor, in whatever order the answers come. *)
Theorem callbacks_end_as_extractors car resp evs :
  NoDup (field_keys car resp) →
  pending_tabs ∉ field_keys car resp →
  event_request <$> evs ≡ₚ sub_tasks car resp →
  Forall2 (λ ev r, o_ret r = callback_end extract_data ev)
          evs (engine evs (assembling car resp)).
Proof.
  intros Hnd Hpt Hperm.
  assert (Hsub : ∀ ev, ev ∈ evs → event_request ev ∈ sub_tasks car resp).
  { intros ev Hev. rewrite <- Hperm. by apply list_elem_of_fmap_2. }
  apply (engine_all_return _ _ (found_keys (discovery (resp_tabs resp)))).
  - apply Forall_forall. intros ev Hev.
    by apply (sub_task_event car resp), Hsub.
  - apply ok_assembling.
  - apply pending_of_assembling.
  - rewrite event_keys_eq, Hperm. done.
  - intros ev Hev.
    destruct (sub_task_event car resp ev (Hsub ev Hev)) as [_ Hk].
    split; [by apply (field_keys_pending car resp)|].
    by intros Heq; rewrite Heq in Hk.
Qed.

(** When, moreover, [parse_first_page] returned with at least one tab
    request, none has the data key ["base_info"], and every response has
    an extractor that returns, the one record of the run holds under the
    data key of every event what that event stored: the extractor's result
    for a response, the error placeholder for a failure. *)
Theorem record_holds_every_outcome car resp evs :
  o_ret (discovered car resp) = inr () →
  sub_tasks car resp ≠ [] →
  NoDup (field_keys car resp) →
  pending_tabs ∉ field_keys car resp →
  base_info ∉ field_keys car resp →
  event_request <$> evs ≡ₚ sub_tasks car resp →
  Forall returns evs →
  ∃ r, emitted (engine evs (assembling car resp)) = [r] ∧
       ∀ ev v, ev ∈ evs → event_result ev = inr v →
               r !! event_key ev = Some v.
Proof.
  intros Hret Hne Hnd Hpt Hbase Hperm Hreturns.
  destruct (all_sub_tasks_answered car resp evs Hne Hpt Hperm)
    as (Hevs&Hs&Hkeys&Hkpt&Hcov).
  destruct (assembling_complete car resp Hret) as [_ Hpend].
  destruct (engine_gather extract_data evs (assembling car resp) _ Hevs
              Hreturns (ok_assembling car resp) Hpend Hs Hkpt Hcov)
    as (F&b&Hem&HFb&HFp&HF1&_).
  exists (merged_record F b). split; [done|]. intros ev v0 Hev Hv0.
  assert (Hnd' : NoDup (event_key <$> evs)).
  { rewrite event_keys_eq, Hperm. done. }
  destruct (HF1 (event_key ev)) as (ev'&v&Hev'&Hk'&Hv&HFk).
  { apply elem_of_list_to_set. by apply Hkeys. }
  rewrite (NoDup_fmap_eq event_key evs ev' ev Hnd' Hev' Hev Hk') in Hv.
  rewrite merged_record_lookup.
  2:{ intros Heq. apply Hbase. rewrite <- Heq. by apply Hkeys. }
  rewrite lookup_delete_ne by (intros Heq; by apply (Hkpt ev)).
  rewrite HFk. congruence.
Qed.

(** A record keeps the car's own fields: under every key that is neither
    one of the seven initialised keys nor the data key of a tab request nor
    ["base_info"], it holds what the car holds (nothing, if the car has no
    such field), provided no tab request has the data key ["base_info"]. *)
Theorem record_keeps_base_fields car resp evs :
  base_info ∉ field_keys car resp →
  Forall (λ ev, event_request ev ∈ sub_tasks car resp) evs →
  Forall (λ r : dict,
            ∀ k, k ∉ tab_keys → k ∉ field_keys car resp → k ≠ base_info →
                 r !! k = car !! k)
         (emitted (engine evs (assembling car resp))).
Proof.
  intros Hbase Hevs. apply Forall_forall. intros r Hr.
  rewrite Forall_forall in Hevs.
  set (P := λ cd : dict,
         ok cd ∧ cd !! base_info = Some (PDict car) ∧
         ∀ k, k ∉ tab_keys → k ∉ field_keys car resp → k ≠ base_info →
              k ≠ pending_tabs → cd !! k = None).
  assert (Hins : ∀ cd k v, P cd → k ∈ field_keys car resp →
                           (k ∈ tab_keys ∨ is_dict v) → P (<[k := v]> cd)).
  { intros cd k v (Hok&Hb&Hnone) Hk Hv. split_and!.
    - by apply ok_insert.
    - rewrite lookup_insert_ne; [done|]. by intros ->.
    - intros k' ? ? ? ?. rewrite lookup_insert_ne; [auto|]. by intros ->. }
  destruct (emitted_inv extract_data P evs (assembling car resp) r)
    as (F&b&(HokF&HFcar&HFnone)&_&HFb&->); [by intros ? (?&_)| | | |done|].
  { intros ev cd Hev HP.
    destruct (sub_task_event car resp ev (Hevs ev Hev)) as [Htab Hkey].
    pose proof HP as (Hok&Hb&Hnone).
    destruct (deliver_step extract_data ev cd Htab Hok)
      as [(v&s&b&Hv&_&_&_&Hd&_)|[(v&Hv&Hd&_)|(e&_&Hraise)]].
    - rewrite Hd.
      destruct (Hins cd (event_key ev) v) as (Hok'&Hb'&Hnone');
        [done|done|by eapply tab_event_dict|].
      split_and!.
      + by apply ok_insert_pending.
      + by rewrite lookup_insert_ne.
      + intros k ? ? ? ?. rewrite lookup_insert_ne by done. auto.
    - rewrite Hd. apply Hins; [done|done|by eapply tab_event_dict].
    - by rewrite Hraise. }
  { apply Forall_forall. intros ev Hev.
    by apply (sub_task_event car resp), Hevs. }
  { split_and!.
    - apply ok_assembling.
    - rewrite assembling_eq, lookup_insert_ne by done. unfold new_car_data.
      by rewrite lookup_insert_eq.
    - intros k Hk _ ? ?. rewrite assembling_eq, lookup_insert_ne by done.
      rewrite new_car_data_lookup by done. by rewrite decide_False. }
  rewrite HFcar in HFb. injection HFb as <-.
  intros k Hk Hnk Hkb. rewrite merged_record_lookup by done.
  destruct (decide (k = pending_tabs)) as [->|Hpt].
  - by rewrite lookup_delete_eq.
  - rewrite lookup_delete_ne by done. by rewrite HFnone.
Qed.

End MoreRuns.

(** ** Cars that never yield a record *)

Section Blocked.

Context {web : Scrapy}.
Variable extract_data : callback → response → exn + pyval.

Local Abbreviation deliver := (deliver extract_data).
Local Abbreviation engine := (engine extract_data).
Local Abbreviation event_result := (event_result extract_data).

(** As long as the key [k] cannot leave the pending set, no record is
    yielded. *)
Lemma engine_blocked k evs cd :
  Forall tab_event evs → ok cd →
  (∀ s, pending_of cd = Some s → k ∈ s) →
  (∀ ev, ev ∈ evs → event_key ev = k → ∃ e, event_result ev = inl e) →
  emitted (engine evs cd) = [].
Proof.
  revert cd. induction evs as [|ev evs IH]; intros cd Hevs Hok Hk Hraise;
    [done|].
  apply Forall_cons in Hevs as [Hev Hevs]. rewrite engine_cons, emitted_cons.
  pose proof (deliver_ok extract_data ev cd Hev Hok) as Hok'.
  assert (Hrest : ∀ ev', ev' ∈ evs → event_key ev' = k →
                         ∃ e, event_result ev' = inl e).
  { intros ev' Hin. apply Hraise. by right. }
  destruct (deliver_step extract_data ev cd Hev Hok)
    as [(v&s&b&Hv&Hs&Hin&_&Hd&_&_&Ho)|[(v&Hv&Hd&Ho&_&_)|(e&_&Hr)]].
  - assert (Hne : event_key ev ≠ k).
    { intros Heq. destruct (Hraise ev) as [e He]; [by left|done|].
      congruence. }
    assert (Hks : k ∈ s ∖ {[event_key ev]}).
    { apply elem_of_difference_singleton. split; [by apply Hk|done]. }
    rewrite Ho, decide_False by set_solver. cbn [items omap list_omap app].
    apply IH; [done|done| |done].
    intros s'. rewrite Hd, pending_of_insert_pending. by intros [= <-].
  - rewrite Ho. cbn [items omap list_omap app].
    apply IH; [done|done| |done]. intros s'. rewrite Hd.
    destruct (decide (event_key ev = pending_tabs)) as [Hpt|Hpt].
    + by rewrite (pending_of_overwritten extract_data ev v cd).
    + rewrite pending_of_insert_ne by done. apply Hk.
  - rewrite Hr in Hok' |- *. cbn [o_out o_data items omap list_omap app].
    by apply IH.
Qed.

(** When the extractor of a response raises, the data key of its request
    stays pending for good: with pairwise distinct data keys and each tab
    request answered once, the car yields no record at all, although every
    request was answered. *)
Theorem extractor_exception_blocks_record car resp evs ev e :
  NoDup (field_keys car resp) →
  event_request <$> evs ≡ₚ sub_tasks car resp →
  ev ∈ evs → event_result ev = inl e →
  emitted (engine evs (assembling car resp)) = [].
Proof.
  intros Hnd Hperm Hev He.
  assert (Hsub : ∀ ev', ev' ∈ evs → event_request ev' ∈ sub_tasks car resp).
  { intros ev' Hev'. rewrite <- Hperm. by apply list_elem_of_fmap_2. }
  assert (Hnd' : NoDup (event_key <$> evs)).
  { rewrite event_keys_eq, Hperm. done. }
  apply (engine_blocked (event_key ev)).
  - apply Forall_forall. intros ev' Hev'.
    by apply (sub_task_event car resp), Hsub.
  - apply ok_assembling.
  - intros s. rewrite pending_of_assembling. intros [= <-].
    apply (field_keys_pending car resp).
    by apply (sub_task_event car resp), Hsub.
  - intros ev' Hev' Hk. exists e.
    by rewrite (NoDup_fmap_eq event_key evs ev' ev Hnd' Hev' Hev Hk).
Qed.

(** When [parse_first_page] ended with the [ValueError] of
    [scrapy.Request], the data key of the rejected tab is pending without a
    request: unless a request for another tab has the same data key, the
    car yields no record, whatever the answers to the requests that were
    made. *)
Theorem rejected_tab_blocks_record car resp evs :
  o_ret (discovered car resp) = inl ValueError →
  (∀ t k cb, t ∈ resp_tabs resp → tab_target t = Some (k, cb) →
             request_url (tab_url t) = None → k ∉ field_keys car resp) →
  Forall (λ ev, event_request ev ∈ sub_tasks car resp) evs →
  emitted (engine evs (assembling car resp)) = [].
Proof.
  intros Hret Hfree Hevs.
  rewrite discovered_eq in Hret. cbn [o_ret] in Hret.
  destruct (found_error (discovery (resp_tabs resp))) as [e|] eqn:E; [|done].
  destruct (discovery_raises _ _ E)
    as (_&good&t&rest&k&cb&Htabs&_&Htarget&Hurl&_&Hkeys).
  assert (Hk : k ∉ field_keys car resp).
  { apply (Hfree t k cb); [|done|done].
    rewrite Htabs. apply elem_of_app. right. by left. }
  apply (engine_blocked k).
  - by apply (sub_task_events car resp).
  - apply ok_assembling.
  - intros s. rewrite pending_of_assembling, Hkeys. intros [= <-].
    set_solver.
  - intros ev Hev Heq. destruct Hk. rewrite <- Heq.
    rewrite Forall_forall in Hevs.
    by apply (sub_task_event car resp), Hevs.
Qed.

(** Once the pending entry is a dictionary, every callback that has a
    value to store stores it and ends with [AttributeError]. *)
Lemma engine_dead_ends evs cd d :
  Forall tab_event evs → ok cd → cd !! pending_tabs = Some (PDict d) →
  Forall2 (λ ev r, o_ret r = callback_end_dead extract_data ev)
          evs (engine evs cd).
Proof.
  revert cd d. induction evs as [|ev evs IH]; intros cd d Hevs Hok Hd;
    [constructor|].
  apply Forall_cons in Hevs as [Hev Hevs]. rewrite engine_cons.
  pose proof (deliver_ok extract_data ev cd Hev Hok) as Hok'.
  destruct (event_result ev) as [e|v] eqn:Hres.
  - rewrite (deliver_raise extract_data ev cd e Hev Hres) in Hok' |- *.
    constructor; [unfold callback_end_dead; by rewrite Hres|].
    by apply (IH cd d).
  - destruct (deliver_resolve extract_data ev cd v Hev Hres) as (Hdata&_&Hr).
    destruct (decide (event_key ev = pending_tabs)) as [Hk|Hk].
    + destruct (tab_event_dict extract_data ev v Hev Hres) as [Hin|[d' ->]].
      { rewrite Hk in Hin. by apply not_tab_key_pending in Hin. }
      rewrite Hk, resolve_overwrite in Hdata, Hr. cbn in Hdata, Hr.
      constructor; [unfold callback_end_dead; by rewrite Hres|].
      apply (IH _ d'); [done|done|].
      by rewrite Hdata, lookup_insert_eq.
    + rewrite (resolve_dead _ _ _ d Hd Hk) in Hdata, Hr. cbn in Hdata, Hr.
      constructor; [unfold callback_end_dead; by rewrite Hres|].
      apply (IH _ d); [done|done|].
      by rewrite Hdata, lookup_insert_ne.
Qed.

(** A tab whose id is ["_pending_tabs"] ends the assembly of its car: the
    callback of its request (the response, or the failure) writes its
    dictionary over the pending set and ends with [AttributeError]; from
    then on nothing is pending any more, every callback that has a value
    to store ends with [AttributeError], and no record is yielded. *)
Theorem pending_tabs_tab_ends_assembly ev evs cd :
  tab_event ev → event_key ev = pending_tabs → ok cd →
  Forall tab_event evs →
  ∃ d, deliver ev cd
         = Outcome (<[pending_tabs := PDict d]> cd) (event_log ev) []
                   (inl AttributeError) ∧
       event_result ev = inr (PDict d) ∧
       emitted (engine evs (<[pending_tabs := PDict d]> cd)) = [] ∧
       Forall2 (λ ev' r, o_ret r = callback_end_dead extract_data ev')
               evs (engine evs (<[pending_tabs := PDict d]> cd)).
Proof.
  intros Hev Hk Hok Hevs.
  destruct (tab_event_inv extract_data ev Hev) as (_&_&[Hin|[d Hres]]).
  { rewrite Hk in Hin. by apply not_tab_key_pending in Hin. }
  exists d.
  destruct (deliver_resolve extract_data ev cd _ Hev Hres) as (Hd&Ho&Hr).
  rewrite Hk, resolve_overwrite in Hd, Ho, Hr. cbn in Hd, Ho, Hr.
  pose proof (deliver_log extract_data ev cd Hev) as Hl.
  assert (Hok' : ok (<[pending_tabs := PDict d]> cd)).
  { apply ok_insert; [done|]. right. by eexists. }
  split_and!.
  - destruct (deliver ev cd) as [data lg out ret]. cbn in *. by subst.
  - done.
  - apply engine_settled; [done|done|]. right. unfold pending_of.
    by rewrite lookup_insert_eq.
  - apply (engine_dead_ends _ _ d); [done|done|].
    by rewrite lookup_insert_eq.
Qed.

End Blocked.

(** ** The further properties on a concrete car *)

Section ConcreteRuns.

#[local] Existing Instance Demo.scrapy.

Lemma start_requests_one_per_car_witness :
  ∃ es, start_requests (loaded [Demo.car; Demo.car]) = (es, [], None) ∧
        Forall2 (λ car ent, ∃ url, price_url car url ∧
                                   ent = start_entity car url)
                [Demo.car; Demo.car] es.
Proof.
  apply (start_requests_one_per_car [Demo.car; Demo.car]).
  repeat constructor;
    exists "https://x/alto/price", "https://x/alto/overview";
    split; vm_compute; reflexivity.
Defined.

Lemma start_requests_stops_at_bad_car_witness :
  ∃ es, start_requests
          (loaded ([Demo.car]
                   ++ <[K "detail_url" := PStr "/alto/overview"]> ∅
                   :: [Demo.car]))
          = (es, [],
             Some (start_error (<[K "detail_url" := PStr "/alto/overview"]>
                                  ∅))) ∧
        Forall2 (λ car ent, ∃ url, price_url car url ∧
                                   ent = start_entity car url)
                [Demo.car] es.
Proof.
  apply (start_requests_stops_at_bad_car [Demo.car]
           (<[K "detail_url" := PStr "/alto/overview"]> ∅) [Demo.car]).
  - repeat constructor.
    exists "https://x/alto/price", "https://x/alto/overview".
    split; vm_compute; reflexivity.
  - intros (url&u&Hu&Hurl). vm_compute in Hu. injection Hu as <-.
    vm_compute in Hurl. discriminate Hurl.
Defined.


Lemma run_log_witness :
  o_log <$> engine Demo.extract [Demo.ev_price; Demo.ev_specs_failed]
                   (assembling Demo.car Demo.page_two)
    = event_log <$> [Demo.ev_price; Demo.ev_specs_failed].
Proof.
  apply (run_log Demo.extract Demo.car Demo.page_two).
  vm_compute. repeat constructor.
Defined.

Lemma finalize_never_raises_witness :
  ∃ res, finalize_car_data
           (final_data (assembling Demo.car Demo.page_two)
                       (engine Demo.extract [Demo.ev_price]
                               (assembling Demo.car Demo.page_two)))
           = inr res ∧
         (is_Some res ↔ ({[K "specifications"]} : gset pykey) = ∅).
Proof.
  apply (finalize_never_raises Demo.extract Demo.car Demo.page_two
           [Demo.ev_price]).
  - vm_compute. repeat constructor.
  - vm_compute. reflexivity.
Defined.

Lemma callbacks_end_as_extractors_witness :
  Forall2 (λ ev r, o_ret r = callback_end Demo.extract ev)
          [Demo.ev_specs_failed; Demo.ev_price]
          (engine Demo.extract [Demo.ev_specs_failed; Demo.ev_price]
                  (assembling Demo.car Demo.page_two)).
Proof.
  apply (callbacks_end_as_extractors Demo.extract Demo.car Demo.page_two).
  - apply (bool_decide_unpack _). by vm_compute.
  - apply (bool_decide_unpack _). by vm_compute.
  - vm_compute. apply perm_swap.
Defined.

Lemma record_holds_every_outcome_witness :
  ∃ r, emitted (engine Demo.extract [Demo.ev_price; Demo.ev_specs_failed]
                       (assembling Demo.car Demo.page_two)) = [r] ∧
       ∀ ev v, ev ∈ [Demo.ev_price; Demo.ev_specs_failed] →
               event_result Demo.extract ev = inr v →
               r !! event_key ev = Some v.
Proof.
  apply (record_holds_every_outcome Demo.extract Demo.car Demo.page_two).
  - vm_compute. reflexivity.
  - by vm_compute.
  - apply (bool_decide_unpack _). by vm_compute.
  - apply (bool_decide_unpack _). by vm_compute.
  - apply (bool_decide_unpack _). by vm_compute.
  - vm_compute. reflexivity.
  - repeat constructor; eexists; vm_compute; reflexivity.
Defined.

Lemma record_keeps_base_fields_witness :
  Forall (λ r : dict,
            ∀ k, k ∉ tab_keys → k ∉ field_keys Demo.car Demo.page_two →
                 k ≠ base_info → r !! k = Demo.car !! k)
         (emitted (engine Demo.extract [Demo.ev_price; Demo.ev_specs_failed]
                          (assembling Demo.car Demo.page_two))).
Proof.
  apply (record_keeps_base_fields Demo.extract Demo.car Demo.page_two).
  - apply (bool_decide_unpack _). by vm_compute.
  - vm_compute. repeat constructor.
Defined.

Lemma extractor_exception_blocks_record_witness :
  emitted (engine Demo.extract [Demo.ev_mileage_raises]
                  (assembling Demo.car Demo.page_mileage)) = [].
Proof.
  apply (extractor_exception_blocks_record Demo.extract Demo.car
           Demo.page_mileage [Demo.ev_mileage_raises]
           Demo.ev_mileage_raises TypeError).
  - apply (bool_decide_unpack _). by vm_compute.
  - vm_compute. reflexivity.
  - by left.
  - vm_compute. reflexivity.
Defined.

Lemma rejected_tab_blocks_record_witness :
  emitted (engine Demo.extract [Demo.ev_price]
                  (assembling Demo.car Demo.page_script)) = [].
Proof.
  apply (rejected_tab_blocks_record Demo.extract Demo.car Demo.page_script
           [Demo.ev_price]).
  - vm_compute. reflexivity.
  - intros t k cb Ht Htarget Hurl.
    apply elem_of_cons in Ht as [->|Ht].
    { vm_compute in Hurl. discriminate Hurl. }
    apply list_elem_of_singleton in Ht as ->.
    vm_compute in Htarget. injection Htarget as <- <-.
    apply (bool_decide_unpack _). by vm_compute.
  - vm_compute. repeat constructor.
Defined.

Lemma pending_tabs_tab_ends_assembly_witness :
  ∃ d, deliver Demo.extract Demo.ev_pending
               (assembling Demo.car Demo.page_pending)
         = Outcome (<[pending_tabs := PDict d]>
                      (assembling Demo.car Demo.page_pending))
                   (event_log Demo.ev_pending) [] (inl AttributeError) ∧
       event_result Demo.extract Demo.ev_pending = inr (PDict d) ∧
       emitted (engine Demo.extract [Demo.ev_price]
                       (<[pending_tabs := PDict d]>
                          (assembling Demo.car Demo.page_pending))) = [] ∧
       Forall2 (λ ev' r, o_ret r = callback_end_dead Demo.extract ev')
               [Demo.ev_price]
               (engine Demo.extract [Demo.ev_price]
                       (<[pending_tabs := PDict d]>
                          (assembling Demo.car Demo.page_pending))).
Proof.
  apply (pending_tabs_tab_ends_assembly Demo.extract Demo.ev_pending
           [Demo.ev_price] (assembling Demo.car Demo.page_pending)).
  - exists (Tab (K "_pending_tabs") "https://x/alto/pending").
    vm_compute. reflexivity.
  - vm_compute. reflexivity.
  - apply ok_assembling.
  - repeat constructor.
    exists (Tab (K "price") "https://x/alto/price"). vm_compute. reflexivity.
Defined.

End ConcreteRuns.

(** ** Generators that stop at an exception *)

Lemma yield_each_all {A B} (f : A → exn + B) l ys :
  Forall2 (λ x y, f x = inr y) l ys → yield_each f l = (ys, None).
Proof.
  induction 1 as [|x y l ys Hxy _ IH]; [done|].
  cbn [yield_each]. by rewrite Hxy, IH.
Qed.

Lemma yield_each_stop {A B} (f : A → exn + B) good bad rest ys e :
  Forall2 (λ x y, f x = inr y) good ys → f bad = inl e →
  yield_each f (good ++ bad :: rest) = (ys, Some e).
Proof.
  intros Hgood Hbad. induction Hgood as [|x y l ys' Hxy _ IH].
  - cbn [app yield_each]. by rewrite Hbad.
  - rewrite <- app_comm_cons. cbn [yield_each]. by rewrite Hxy, IH.
Qed.

Lemma yield_each_from {A B} (f : A → exn + B) l y :
  y ∈ (yield_each f l).1 → ∃ x, x ∈ l ∧ f x = inr y.
Proof.
  induction l as [|x l IH]; cbn [yield_each].
  { intros H. by apply elem_of_nil in H. }
  destruct (f x) as [e|y'] eqn:E.
  { intros H. by apply elem_of_nil in H. }
  destruct (yield_each f l) as [ys e]. cbn [fst] in *.
  intros [->|Hin]%elem_of_cons.
  - exists x. split; [by left|done].
  - destruct (IH Hin) as (x'&?&?). exists x'. split; [by right|done].
Qed.

Lemma yield_each_results {A B} (f : A → exn + B) l :
  Forall (λ x, ∃ y, f x = inr y) l →
  ∃ ys, Forall2 (λ x y, f x = inr y) l ys.
Proof.
  induction 1 as [|x l [y Hy] _ [ys IH]]; [by exists []|].
  exists (y :: ys). by constructor.
Qed.

Lemma yield_each_no_exception {A B} (f : A → exn + B) l :
  (yield_each f l).2 = None ↔ Forall (λ x, ∃ y, f x = inr y) l.
Proof.
  induction l as [|x l IH]; cbn [yield_each].
  { split; [constructor|done]. }
  destruct (f x) as [e|y] eqn:E.
  - cbn [snd]. split; [done|]. intros [[y Hy] _]%Forall_cons. congruence.
  - destruct (yield_each f l) as [ys e]. cbn [snd] in *. rewrite IH.
    split.
    + intros Hall. constructor; [by eexists|done].
    + by intros [_ ?]%Forall_cons.
Qed.

Lemma yield_each_length {A B} (f : A → exn + B) good bad rest :
  Forall (λ x, ∃ y, f x = inr y) good → (∃ e, f bad = inl e) →
  length (yield_each f (good ++ bad :: rest)).1 = length good.
Proof.
  intros [ys Hys]%yield_each_results [e He].
  rewrite (yield_each_stop f good bad rest ys e Hys He). cbn [fst].
  symmetry. by eapply Forall2_length.
Qed.

Lemma yield_each_length_all {A B} (f : A → exn + B) l :
  Forall (λ x, ∃ y, f x = inr y) l → length (yield_each f l).1 = length l.
Proof.
  intros [ys Hys]%yield_each_results. rewrite (yield_each_all f l ys Hys).
  cbn [fst]. symmetry. by eapply Forall2_length.
Qed.

(** ** The cars spider *)

Section CarsSpiderProperties.

Context {web : Scrapy}.
Variable strip lower : string → string.
Variable urljoin : option string → string.
Variable follow_url : string → option string.

Local Abbreviation car_item := (CarsSpider.car_item strip lower urljoin).
Local Abbreviation parse_cars :=
  (CarsSpider.parse_cars strip lower urljoin follow_url).
Local Abbreviation specs_loop := (CarsSpider.specs_loop strip lower).



Lemma car_item_shape brand_name card item :
  car_item brand_name card = inr item →
  dom item = CarsSpider.item_keys ∧
  item !! K "brand" = Some (PStr brand_name) ∧
  item !! K "detail_url" = Some (PStr (urljoin (CarsSpider.card_href card))) ∧
  (∃ name, CarsSpider.card_name card = Some name ∧
           item !! K "name" = Some (PStr (strip name))) ∧
  item !! pending_tabs = None.
Proof.
  unfold CarsSpider.car_item.
  destruct (CarsSpider.card_name card) as [name|]; cbn [method]; [|done].
  destruct (CarsSpider.card_price card) as [price|]; cbn [method]; [|done].
  destruct (specs_loop _ ∅) as [e|sd]; [done|].
  intros [= <-]. split_and!.
  - rewrite !dom_insert_L, dom_empty_L. unfold CarsSpider.item_keys.
    cbn [list_to_set foldr]. done.
  - by rewrite lookup_insert_eq.
  - by rewrite !lookup_insert_ne, lookup_insert_eq by done.
  - exists name. split; [done|].
    by rewrite !lookup_insert_ne, lookup_insert_eq by done.
  - by rewrite !lookup_insert_ne, lookup_empty by done.
Qed.

Lemma items_fmap_YItem (cars : list dict) :
  CarsSpider.items (CarsSpider.YItem <$> cars) = cars.
Proof.
  unfold CarsSpider.items. induction cars as [|c cars IH]; [done|].
  rewrite fmap_cons. cbn [omap list_omap]. by f_equal.
Qed.

Lemma items_follow_next_page brand_name next_page :
  CarsSpider.items
    (CarsSpider.follow_next_page follow_url brand_name next_page).1 = [].
Proof.
  unfold CarsSpider.follow_next_page.
  destruct next_page as [href|]; [|done].
  destruct (String.eqb href ""); [done|].
  by destruct (follow_url href).
Qed.

Lemma parse_cars_items_eq brand_name cards next_page :
  CarsSpider.items (parse_cars (Some brand_name) cards next_page).1
    = (yield_each (car_item brand_name) cards).1.
Proof.
  unfold CarsSpider.parse_cars.
  destruct (yield_each _ cards) as [cars [e|]]; cbn [fst].
  - apply items_fmap_YItem.
  - pose proof (items_follow_next_page brand_name next_page) as Hnext.
    destruct (CarsSpider.follow_next_page _ _ _) as [next e'].
    cbn [fst] in *. unfold CarsSpider.items in *.
    by rewrite omap_app, Hnext, (right_id_L [] (++)), items_fmap_YItem.
Qed.

(** Whatever the page, every item that [parse_cars] yields has exactly the
    eight keys [brand], [name], [detail_url], [price_range],
    [specifications], [key_features], [images] and [video_thumbnail]; its
    brand is the [brand_name] of the request's [meta], its [detail_url] is a
    string; in particular it has no entry ["_pending_tabs"]. *)
Theorem parse_cars_item_shape brand_name cards next_page :
  Forall (λ item : dict,
            dom item = CarsSpider.item_keys ∧
            item !! K "brand" = Some (PStr brand_name) ∧
            has_detail_url item ∧
            item !! pending_tabs = None)
         (CarsSpider.items (parse_cars (Some brand_name) cards next_page).1).
Proof.
  rewrite parse_cars_items_eq. apply Forall_forall.
  intros item (card&_&Hitem)%yield_each_from.
  destruct (car_item_shape _ _ _ Hitem) as (?&?&?&_&?).
  split_and!; [done|done| |done]. by eexists.
Qed.

Lemma startable_dec (car : dict) : startable car ∨ ¬ startable car.
Proof.
  destruct (car !! K "detail_url") as [v|] eqn:E.
  2:{ right. intros (url&u&Hu&_). congruence. }
  destruct v as [| | |u| | |];
    try (right; intros (url&u'&Hu&_); rewrite E in Hu; discriminate Hu).
  destruct (request_url (Py.replace "/overview" "/price" u)) as [url|] eqn:Eu.
  - left. by exists url, u.
  - right. intros (url&u'&Hu&Hurl). rewrite E in Hu. injection Hu as <-.
    congruence.
Qed.

Lemma start_cars_cases (cars : list dict) :
  (Forall startable cars ∧
   ∃ es, start_cars cars = (es, None) ∧ length es = length cars) ∨
  (∃ good bad rest es,
     cars = good ++ bad :: rest ∧ Forall startable good ∧ ¬ startable bad ∧
     start_cars cars = (es, Some (start_error bad)) ∧
     length es = length good).
Proof.
  induction cars as [|car cars IH]; [left; split; [done|by exists []]|].
  destruct (startable_dec car) as [[url Hurl]|Hbad].
  - rewrite (start_cars_cons_good car cars url Hurl).
    destruct IH as [(Hall&es&->&Hlen)|(good&bad&rest&es&->&Hg&Hb&->&Hlen)].
    + left. split; [constructor; [by exists url|done]|].
      eexists. split; [done|]. simpl. by rewrite Hlen.
    + right. exists (car :: good), bad, rest. eexists. split_and!; [done| |done|done|].
      * constructor; [by exists url|done].
      * simpl. by rewrite Hlen.
  - right. exists [], car, cars, []. split_and!; [done|done|done| |done].
    by apply start_cars_cons_bad.
Qed.

(** The cars spider feeds the details spider: on the items of any call of
    [parse_cars], read back from [cars_data.json], [start_requests] logs
    nothing and has no [KeyError] or [AttributeError] (every item has a
    string under ["detail_url"]); it ends without an exception, with one
    first-page request per item, exactly when [scrapy.Request] accepts the
    price URL of every item, and with [ValueError] otherwise. *)
Theorem start_requests_on_parse_cars_items brand_name cards next_page :
  ∃ es e,
    start_requests
      (loaded (CarsSpider.items
                 (parse_cars (Some brand_name) cards next_page).1))
      = (es, [], e) ∧
    (e = None ↔
     Forall startable
            (CarsSpider.items
               (parse_cars (Some brand_name) cards next_page).1)) ∧
    (e = None →
     length es
       = length (CarsSpider.items
                   (parse_cars (Some brand_name) cards next_page).1)) ∧
    (e ≠ None → e = Some ValueError).
Proof.
  pose proof (parse_cars_item_shape brand_name cards next_page) as Hshape.
  cbn [start_requests].
  destruct (start_cars_cases
              (CarsSpider.items
                 (parse_cars (Some brand_name) cards next_page).1))
    as [(Hall&es&Hes&Hlen)|(good&bad&rest&es&Heq&Hg&Hb&Hes&Hlen)].
  - exists es, None. rewrite Hes. by split_and!.
  - exists es, (Some (start_error bad)). rewrite Hes. split_and!; [done| |done|].
    + split; [done|]. rewrite Heq. intros [_ [? _]%Forall_cons]%Forall_app.
      done.
    + intros _. f_equal. rewrite Heq in Hshape.
      apply Forall_app in Hshape as [_ [(_&_&[u Hu]&_) _]%Forall_cons].
      unfold start_error. by rewrite Hu.
Qed.



End CarsSpiderProperties.

Section BrandLinks.

Context {web : Scrapy}.
Variable strip : string → string.
Variable urljoin : option string → string.

Local Abbreviation link_ok := (CarsSpider.brand_link_ok urljoin).
Local Abbreviation parse := (CarsSpider.parse strip urljoin).
Local Abbreviation brand_request := (CarsSpider.brand_request strip urljoin).

Lemma brand_request_ok card :
  (∃ y, brand_request card = inr y) ↔ link_ok card.
Proof.
  unfold CarsSpider.brand_request, CarsSpider.brand_link_ok.
  destruct (CarsSpider.brand_span card) as [name|]; cbn [method].
  2:{ split; [by intros [? ?]|by intros [[? ?] _]]. }
  destruct (CarsSpider.brand_href card) as [href|].
  2:{ split; [by intros [? ?]|by intros [_ (?&?&_)]]. }
  destruct (request_url (urljoin (Some href))) as [url|] eqn:E.
  - split; [|by eexists]. intros _. split; [by eexists|].
    exists href. split; [done|]. rewrite E. by eexists.
  - split; [by intros [? ?]|]. intros [_ (href'&[= <-]&Hurl)].
    rewrite E in Hurl. by destruct Hurl.
Qed.

Lemma brand_request_all l :
  Forall link_ok l ↔ Forall (λ x, ∃ y, brand_request x = inr y) l.
Proof.
  split; intros H; (eapply Forall_impl; [exact H|]);
    intros card ?; by apply brand_request_ok.
Qed.

Lemma brand_request_bad bad :
  ¬ link_ok bad →
  ∃ e, brand_request bad = inl e ∧
       (CarsSpider.brand_span bad = None → e = AttributeError) ∧
       (is_Some (CarsSpider.brand_span bad) →
        CarsSpider.brand_href bad = None → e = KeyError) ∧
       (is_Some (CarsSpider.brand_span bad) →
        is_Some (CarsSpider.brand_href bad) → e = ValueError).
Proof.
  intros Hbad. unfold CarsSpider.brand_request, CarsSpider.brand_link_ok in *.
  destruct (CarsSpider.brand_span bad) as [name|]; cbn [method].
  2:{ exists AttributeError. split_and!; [done|done| |]; by intros [? ?]. }
  destruct (CarsSpider.brand_href bad) as [href|].
  2:{ exists KeyError. split_and!; [done|done|done|]. by intros _ [? ?]. }
  destruct (request_url (urljoin (Some href))) as [url|] eqn:E.
  { destruct Hbad. split; [by eexists|]. exists href. split; [done|].
    rewrite E. by eexists. }
  exists ValueError. by split_and!.
Qed.

(** [CarsSpider.parse] yields only requests for [parse_cars], each for the
    joined [href] of a brand link, in the form that [scrapy.Request] gives
    it, and with the stripped text of its [span] as [brand_name] (so
    [parse_cars] finds its [meta] key).  It ends without an exception
    exactly when every link has a [span] text and an [href] whose joined
    URL [scrapy.Request] accepts, with one request per link; otherwise it
    stops at the first link that does not, with the requests of the links
    before it: with [AttributeError] when the link has no [span] text, else
    with [KeyError] when it has no [href], else with [ValueError]. *)
Theorem cars_parse_brand_links (cards : list CarsSpider.brand_card) :
  Forall (λ y, ∃ card name href url,
               card ∈ cards ∧
               CarsSpider.brand_span card = Some name ∧
               CarsSpider.brand_href card = Some href ∧
               request_url (urljoin (Some href)) = Some url ∧
               y = CarsSpider.YRequest url (strip name))
         (parse cards).1 ∧
  ((parse cards).2 = None ↔ Forall link_ok cards) ∧
  (Forall link_ok cards → length (parse cards).1 = length cards) ∧
  (∀ good bad rest, cards = good ++ bad :: rest → Forall link_ok good → ¬ link_ok bad →
     length (parse cards).1 = length good ∧
     ∃ e, (parse cards).2 = Some e ∧
          (CarsSpider.brand_span bad = None → e = AttributeError) ∧
          (is_Some (CarsSpider.brand_span bad) →
           CarsSpider.brand_href bad = None → e = KeyError) ∧
          (is_Some (CarsSpider.brand_span bad) →
           is_Some (CarsSpider.brand_href bad) → e = ValueError)).
Proof.
  unfold CarsSpider.parse. split_and!.
  - apply Forall_forall. intros y (card&Hin&Hy)%yield_each_from.
    unfold CarsSpider.brand_request in Hy.
    destruct (CarsSpider.brand_span card) as [name|] eqn:En;
      cbn [method] in Hy; [|done].
    destruct (CarsSpider.brand_href card) as [href|] eqn:Eh; [|done].
    destruct (request_url (urljoin (Some href))) as [url|] eqn:Eu; [|done].
    injection Hy as <-. by exists card, name, href, url.
  - by rewrite yield_each_no_exception, brand_request_all.
  - intros Hcards%brand_request_all. by apply yield_each_length_all.
  - intros good bad rest -> Hgood%brand_request_all Hbad.
    destruct (brand_request_bad bad Hbad) as (e&He&Hattr&Hkey&Hval).
    split; [apply yield_each_length; [done|by exists e]|].
    exists e. split; [|done].
    destruct (yield_each_results _ _ Hgood) as [ys Hys].
    by rewrite (yield_each_stop _ good bad rest ys e Hys He).
Qed.

End BrandLinks.

Section BrandsSpiderProperties.

Variable strip : string → string.

(** [BrandsSpider.parse] yields items with exactly the keys [name], [url]
    and [logo]: the stripped [span] text, the [href] as it stands in the
    page (not joined with the page URL) and the logo source or [None]; it
    ends without an exception exactly when every link has a [span] text and
    an [href], and then yields one item per link. *)
Theorem brands_parse_items (cards : list BrandsSpider.brand_card) :
  let ok := λ card, is_Some (BrandsSpider.brand_span card) ∧
                    is_Some (BrandsSpider.brand_href card) in
  Forall (λ item : dict,
            ∃ card name href,
              card ∈ cards ∧
              BrandsSpider.brand_span card = Some name ∧
              BrandsSpider.brand_href card = Some href ∧
              item !! K "name" = Some (PStr (strip name)) ∧
              item !! K "url" = Some (PStr href) ∧
              item !! K "logo"
                = Some (text_value (BrandsSpider.brand_logo card)) ∧
              dom item = {[K "name"; K "url"; K "logo"]})
         (BrandsSpider.parse strip cards).1 ∧
  ((BrandsSpider.parse strip cards).2 = None ↔ Forall ok cards) ∧
  (Forall ok cards →
   length (BrandsSpider.parse strip cards).1 = length cards).
Proof.
  intros ok.
  assert (Hok : ∀ card,
             (∃ y, BrandsSpider.brand_item strip card = inr y) ↔ ok card).
  { intros card. unfold BrandsSpider.brand_item, ok.
    destruct (BrandsSpider.brand_span card) as [name|]; cbn [method];
      destruct (BrandsSpider.brand_href card) as [href|].
    - split; [intros _; by split; eexists|intros _; by eexists].
    - split; [by intros [? ?]|by intros [_ [? ?]]].
    - split; [by intros [? ?]|by intros [[? ?] _]].
    - split; [by intros [? ?]|by intros [[? ?] _]]. }
  assert (Hall : ∀ l, Forall ok l ↔
             Forall (λ x, ∃ y, BrandsSpider.brand_item strip x = inr y) l).
  { intros l. split; intros H; (eapply Forall_impl; [exact H|]);
      intros card ?; by apply Hok. }
  unfold BrandsSpider.parse. split_and!.
  - apply Forall_forall. intros item (card&Hin&Hy)%yield_each_from.
    unfold BrandsSpider.brand_item in Hy.
    destruct (BrandsSpider.brand_span card) as [name|] eqn:En;
      cbn [method] in Hy; [|done].
    destruct (BrandsSpider.brand_href card) as [href|] eqn:Eh; [|done].
    injection Hy as <-. exists card, name, href. split_and!; [done..| | | |].
    + by rewrite lookup_insert_eq.
    + by rewrite lookup_insert_ne, lookup_insert_eq by done.
    + by rewrite !lookup_insert_ne, lookup_insert_eq by done.
    + rewrite !dom_insert_L, dom_empty_L. set_solver.
  - by rewrite yield_each_no_exception, Hall.
  - intros Hcards%Hall. by apply yield_each_length_all.
Qed.

End BrandsSpiderProperties.

(** ** The cars spider on a concrete page *)



(** ** The extractors *)

Lemma truthy_str s : truthy (PStr s) = true ↔ s ≠ "".
Proof.
  unfold truthy. rewrite negb_true_iff. split.
  - intros H ->. by rewrite String.eqb_refl in H.
  - intros H. by apply String.eqb_neq.
Qed.

Lemma truthy_text_Some x :
  truthy_text x = true ↔ ∃ s, x = Some s ∧ s ≠ "".
Proof.
  destruct x as [s|]; cbn [truthy_text].
  - change (negb (String.eqb s "")) with (truthy (PStr s)).
    rewrite truthy_str. naive_solver.
  - split; [done|]. by intros (?&?&?).
Qed.

Section ExtractorProperties.

Variable strip lower : string → string.

Lemma spec_rows_app rows rows' specs :
  spec_rows strip (rows ++ rows') specs
    = spec_rows strip rows' (spec_rows strip rows specs).
Proof.
  revert specs. induction rows as [|[key value] rows IH]; intros specs; [done|].
  rewrite <- app_comm_cons. cbn [spec_rows].
  destruct key, value; try apply IH. destruct (_ && _); apply IH.
Qed.

Lemma spec_rows_keys rows specs k :
  is_Some (spec_rows strip rows specs !! k) ↔
  is_Some (specs !! k) ∨
  ∃ key value, (Some key, Some value) ∈ rows ∧ key ≠ "" ∧ value ≠ "" ∧
               k = K (strip key).
Proof.
  revert specs. induction rows as [|[key value] rows IH]; intros specs.
  { cbn [spec_rows]. split; [by left|]. intros [?|(?&?&H&_)]; [done|].
    by apply elem_of_nil in H. }
  assert (Hskip :
    (∀ key' value', (Some key', Some value') ∈ (key, value) :: rows →
       key' ≠ "" → value' ≠ "" → (Some key', Some value') ∈ rows) →
    is_Some (spec_rows strip rows specs !! k) ↔
    is_Some (specs !! k) ∨
    ∃ key' value', (Some key', Some value') ∈ (key, value) :: rows ∧
                   key' ≠ "" ∧ value' ≠ "" ∧ k = K (strip key')).
  { intros Hin. rewrite IH. split; intros [?|(k'&v'&H&?&?&?)]; auto; right;
      exists k', v'; split_and!; auto. by right. }
  cbn [spec_rows]. destruct key as [key|].
  2:{ apply Hskip. by intros ? ? [[=]|?]%elem_of_cons. }
  destruct value as [value|].
  2:{ apply Hskip. by intros ? ? [[=]|?]%elem_of_cons. }
  destruct (truthy_text (Some key) && truthy_text (Some value)) eqn:E.
  - apply andb_true_iff in E as [(?&[= <-]&?)%truthy_text_Some
                                   (?&[= <-]&?)%truthy_text_Some].
    rewrite IH, lookup_insert. split.
    + intros [Hk|(k'&v'&H&?&?&?)].
      * case_decide as Hd; [|by left]. right. exists key, value.
        split_and!; [by left|done..].
      * right. exists k', v'. split_and!; [by right|done..].
    + intros [Hk|(k'&v'&[[= -> ->]|H]%elem_of_cons&?&?&->)].
      * left. case_decide; [by eexists|done].
      * left. by rewrite decide_True.
      * right. by exists k', v'.
  - apply Hskip. intros k' v' [[= -> ->]|?]%elem_of_cons Hk Hv; [|done].
    apply andb_false_iff in E as [E|E]; apply not_true_iff_false in E;
      destruct E; apply truthy_text_Some; by eexists.
Qed.

(** [extract_spec_section] never raises.  Its result has an entry exactly
    for the stripped first cell of each row whose first and last cell both
    have a non-empty text; the last such row for a key gives its value, and
    a row with a missing or empty cell changes nothing. *)
Theorem extract_spec_section_rows rows :
  (∀ k, is_Some (extract_spec_section strip rows !! k) ↔
        ∃ key value, (Some key, Some value) ∈ rows ∧ key ≠ "" ∧ value ≠ "" ∧
                     k = K (strip key)) ∧
  (∀ key value, key ≠ "" → value ≠ "" →
     extract_spec_section strip (rows ++ [(Some key, Some value)])
       !! K (strip key)
       = Some (PStr (strip value))) ∧
  (∀ row, truthy_text (fst row) && truthy_text (snd row) = false →
     extract_spec_section strip (rows ++ [row])
       = extract_spec_section strip rows).
Proof.
  unfold extract_spec_section. split_and!.
  - intros k. rewrite spec_rows_keys, lookup_empty. split; [|by right].
    by intros [[? ?]|?].
  - intros key value Hk Hv. rewrite spec_rows_app. cbn [spec_rows].
    assert (truthy_text (Some key) && truthy_text (Some value) = true) as ->.
    { apply andb_true_iff. split; apply truthy_text_Some; by eexists. }
    by rewrite lookup_insert_eq.
  - intros [key value] Hrow. rewrite spec_rows_app. cbn [spec_rows].
    cbn [fst snd] in Hrow. destruct key, value; try done. by rewrite Hrow.
Qed.

(** Every colour that [_extract_colours_data] returns has exactly the keys
    [name], [image] and [hq_image], all three with a non-empty text; the
    image is the [src] of one of the sections, and for a section without
    [srcset] the high-quality image is the image itself.  There are at most
    as many colours as sections. *)
Theorem extract_colours_entries (sections : list colour_section) :
  ∃ colours,
    _extract_colours_data strip sections = PList colours ∧
    length colours ≤ length sections ∧
    Forall (λ v, ∃ name image hq sec,
                 v = PDict (<[K "name" := PStr name]>
                           (<[K "image" := PStr image]>
                           (<[K "hq_image" := PStr hq]> ∅))) ∧
                 name ≠ "" ∧ image ≠ "" ∧ hq ≠ "" ∧
                 sec ∈ sections ∧ image = colour_src sec ∧
                 (colour_srcset sec = "" → hq = image))
           colours.
Proof.
  exists (omap (colour_entry strip) sections). split_and!; [done| |].
  - apply omap_length_le.
  - apply Forall_forall. intros v (sec&Hsec&Hv)%list_elem_of_omap.
    unfold colour_entry in Hv.
    set (name := if truthy (PStr (strip (colour_p sec)))
                 then strip (colour_p sec) else strip (colour_id sec)) in *.
    set (hq_url := if truthy (PStr (colour_srcset sec))
                   then strip (before " " (after_last "," (colour_srcset sec)))
                   else "") in *.
    destruct (truthy (PStr name) && truthy (PStr (colour_src sec))) eqn:E;
      [|done].
    apply andb_true_iff in E as [Hn%truthy_str Hi%truthy_str].
    injection Hv as <-.
    exists name, (colour_src sec),
      (if truthy (PStr hq_url) then hq_url else colour_src sec), sec.
    split_and!; [done..| |done|done|].
    + destruct (truthy (PStr hq_url)) eqn:Eh; [by apply truthy_str|done].
    + intros Hset. unfold hq_url. by rewrite Hset.
Qed.

End ExtractorProperties.
(** ** [_extract_mileage_data] *)

Lemma mileage_slots_spec ft t :
  (ft, t) ∈ mileage_slots ↔
  (ft = "petrol" ∧ (t = "manual" ∨ t = "automatic")) ∨
  (ft = "cng" ∧ t = "manual").
Proof.
  unfold mileage_slots. rewrite !elem_of_cons, elem_of_nil. split.
  - intros [[= -> ->]|[[= -> ->]|[[= -> ->]|[]]]]; auto.
  - intros [[-> [-> | ->]]|[-> ->]]; auto.
Qed.

Section MileageProperties.

Variable strip lower : string → string.

Lemma filled_row_truthy fc tr mi :
  truthy (PStr fc) && truthy (PStr tr) && truthy (PStr mi) = true
  ↔ filled_row (fc, tr, mi).
Proof.
  unfold filled_row. cbn [fst snd]. rewrite !andb_true_iff, !truthy_str.
  naive_solver.
Qed.

Lemma mileage_shape_init :
  mileage_shape PNone (mileage_init) ∧
  ∀ v, mileage_shape v (<[K "overview" := v]> mileage_init).
Proof.
  assert (Hinit : mileage_shape PNone mileage_init).
  { unfold mileage_shape, mileage_init. split_and!.
    - rewrite !dom_insert_L, dom_empty_L. unfold mileage_keys. set_solver.
    - by rewrite !lookup_insert_ne, lookup_insert_eq by done.
    - by rewrite !lookup_insert_ne, lookup_insert_eq by done.
    - eexists. rewrite lookup_insert_eq. split; [done|].
      rewrite dom_insert_L, dom_singleton_L. set_solver.
    - eexists. rewrite lookup_insert_ne, lookup_insert_eq by done.
      split; [done|]. by rewrite dom_singleton_L. }
  split; [done|]. intros v. destruct Hinit as (Hdom&Hf&Ho&Hp&Hc).
  unfold mileage_shape. split_and!.
  - rewrite dom_insert_L, Hdom. unfold mileage_keys. set_solver.
  - by rewrite lookup_insert_ne.
  - by rewrite lookup_insert_eq.
  - by rewrite lookup_insert_ne.
  - by rewrite lookup_insert_ne.
Qed.

(** What one row does to a well-shaped [mileage_data]. *)
Lemma mileage_row_cases ov fc tr mi md :
  (ov = PNone ∨ ∃ s, ov = PStr s) →
  mileage_shape ov md →
  let ft := fuel_type_of strip lower fc in
  let t := strip (lower tr) in
  (mileage_row strip lower (fc, tr, mi) md = inr md ∧
   (filled_row (fc, tr, mi) → (ft, t) ∉ mileage_slots)) ∨
  (∃ d, filled_row (fc, tr, mi) ∧ (ft, t) ∈ mileage_slots ∧
        md !! K ft = Some (PDict d) ∧ K t ∈ dom d ∧
        mileage_row strip lower (fc, tr, mi) md
          = inr (<[K ft := PDict (<[K t := PStr (strip mi)]> d)]> md)) ∨
  (mileage_row strip lower (fc, tr, mi) md = inl TypeError ∧
   filled_row (fc, tr, mi) ∧ ft ∈ ["overview"; "fuel_tank_capacity"]).
Proof.
  intros Hov (Hdom&Hf&Ho&(dp&Hp&Hdp)&(dc&Hc&Hdc)) ft t.
  unfold mileage_row.
  destruct (truthy (PStr fc) && truthy (PStr tr) && truthy (PStr mi)) eqn:E.
  2:{ left. split; [done|]. intros Hfill%filled_row_truthy. congruence. }
  apply filled_row_truthy in E. fold ft t.
  destruct (md !! K ft) as [sub|] eqn:Esub.
  2:{ left. split; [done|]. intros _ Hslot.
      apply mileage_slots_spec in Hslot as [[Hft _]|[Hft _]];
        rewrite Hft in Esub; congruence. }
  assert (K ft ∈ mileage_keys) as Hin.
  { rewrite <- Hdom. apply elem_of_dom. by eexists. }
  unfold mileage_keys in Hin.
  rewrite !elem_of_union, !elem_of_singleton in Hin.
  destruct Hin as [[[[= Hft]|[= Hft]]|[= Hft]]|[= Hft]].
  - rewrite Hft in *. rewrite Hp in Esub. injection Esub as <-.
    cbn [contains]. case_bool_decide as Hk.
    + right. left. exists dp. apply elem_of_dom in Hk as Hk'.
      split_and!; [done| |done|done|done].
      rewrite Hdp in Hk'. rewrite elem_of_union, !elem_of_singleton in Hk'.
      apply mileage_slots_spec. left. split; [done|].
      destruct Hk' as [[= ->]|[= ->]]; auto.
    + left. split; [done|]. intros _ Hslot. apply Hk. apply elem_of_dom.
      rewrite Hdp, elem_of_union, !elem_of_singleton.
      apply mileage_slots_spec in Hslot as [[_ [-> | ->]]|[? _]]; auto.
      done.
  - rewrite Hft in *. rewrite Hc in Esub. injection Esub as <-.
    cbn [contains]. case_bool_decide as Hk.
    + right. left. exists dc. apply elem_of_dom in Hk as Hk'.
      split_and!; [done| |done|done|done].
      rewrite Hdc in Hk'. apply elem_of_singleton in Hk' as [= ->].
      apply mileage_slots_spec. by right.
    + left. split; [done|]. intros _ Hslot. apply Hk. apply elem_of_dom.
      rewrite Hdc, elem_of_singleton.
      apply mileage_slots_spec in Hslot as [[? _]|[_ ->]]; done.
  - rewrite Hft in *. rewrite Ho in Esub. injection Esub as <-.
    assert (¬ (("overview", t) ∈ mileage_slots)) as Hns.
    { intros [[? _]|[? _]]%mileage_slots_spec; done. }
    destruct Hov as [-> | [s ->]]; cbn [contains setitem_in].
    + right. right. split_and!; [done|done|by left].
    + destruct (str_in t s).
      * right. right. split_and!; [done|done|by left].
      * left. by split.
  - rewrite Hft in *. rewrite Hf in Esub. injection Esub as <-.
    right. right. cbn [contains]. split_and!; [done|done|]. right. by left.
Qed.

Lemma mileage_row_shape ov row md md' :
  (ov = PNone ∨ ∃ s, ov = PStr s) →
  mileage_shape ov md → mileage_row strip lower row md = inr md' →
  mileage_shape ov md'.
Proof.
  intros Hov Hshape Hrow. destruct row as [[fc tr] mi].
  destruct (mileage_row_cases ov fc tr mi md Hov Hshape)
    as [[Heq _]|[(d&_&Hslot&Hd&Ht&Heq)|[Heq _]]];
    rewrite Heq in Hrow; [by injection Hrow as <-| |done].
  injection Hrow as <-.
  destruct Hshape as (Hdom&Hf&Ho&(dp&Hp&Hdp)&(dc&Hc&Hdc)).
  set (ft := fuel_type_of strip lower fc) in *.
  set (t := strip (lower tr)) in *.
  set (d' := <[K t := PStr (strip mi)]> d).
  assert (dom d' = dom d) as Hd'.
  { unfold d'. rewrite dom_insert_L. set_solver. }
  assert (ft = "petrol" ∨ ft = "cng") as Hft.
  { apply mileage_slots_spec in Hslot as [[? _]|[? _]]; auto. }
  unfold mileage_shape. split_and!.
  - rewrite dom_insert_L, Hdom.
    assert (K ft ∈ mileage_keys); [|set_solver].
    rewrite <- Hdom. apply elem_of_dom. by eexists.
  - rewrite lookup_insert_ne; [done|]. by destruct Hft as [-> | ->].
  - rewrite lookup_insert_ne; [done|]. by destruct Hft as [-> | ->].
  - destruct Hft as [-> | ->].
    + exists d'. rewrite lookup_insert_eq. split; [done|].
      rewrite Hd'. rewrite Hp in Hd. by injection Hd as <-.
    + exists dp. by rewrite lookup_insert_ne.
  - destruct Hft as [-> | ->].
    + exists dc. by rewrite lookup_insert_ne.
    + exists d'. rewrite lookup_insert_eq. split; [done|].
      rewrite Hd'. rewrite Hc in Hd. by injection Hd as <-.
Qed.

Lemma mileage_rows_shape ov rows md md' :
  (ov = PNone ∨ ∃ s, ov = PStr s) →
  mileage_shape ov md → mileage_rows strip lower rows md = inr md' →
  mileage_shape ov md'.
Proof.
  intros Hov. revert md.
  induction rows as [|row rows IH]; intros md Hshape Hrows.
  { by injection Hrows as <-. }
  cbn [mileage_rows] in Hrows.
  destruct (mileage_row strip lower row md) as [e|md1] eqn:E; [done|].
  eapply IH; [|done]. by eapply mileage_row_shape.
Qed.

Lemma mileage_rows_app rows rows' md :
  mileage_rows strip lower (rows ++ rows') md =
    match mileage_rows strip lower rows md with
    | inl e => inl e
    | inr md' => mileage_rows strip lower rows' md'
    end.
Proof.
  revert md. induction rows as [|row rows IH]; intros md; [done|].
  rewrite <- app_comm_cons. cbn [mileage_rows].
  by destruct (mileage_row strip lower row md).
Qed.

Lemma overview_value_plain overview :
  overview_value strip overview = PNone ∨
  ∃ s, overview_value strip overview = PStr s.
Proof. unfold overview_value. destruct (truthy _); eauto. Qed.

Lemma mileage_start_shape overview :
  mileage_shape (overview_value strip overview)
    (if truthy (PStr overview)
     then <[K "overview" := PStr (strip overview)]> mileage_init
     else mileage_init).
Proof.
  unfold overview_value. destruct (truthy (PStr overview));
    by apply mileage_shape_init.
Qed.

(** Whenever [_extract_mileage_data] returns, its result has exactly the
    keys [petrol], [cng], [overview] and [fuel_tank_capacity]; [petrol] is
    a dictionary with exactly [manual] and [automatic], [cng] one with
    exactly [manual]; [overview] is the stripped overview text, or [None]
    when there is none; and [fuel_tank_capacity] is [None]: no row fills
    it. *)
Theorem extract_mileage_shape overview rows mileage_data :
  _extract_mileage_data strip lower overview rows = inr mileage_data →
  mileage_shape (overview_value strip overview) mileage_data.
Proof.
  unfold _extract_mileage_data.
  apply mileage_rows_shape; [apply overview_value_plain|].
  apply mileage_start_shape.
Qed.

(** [_extract_mileage_data] returns when no row is filed under the fuel
    type ["overview"] or ["fuel_tank_capacity"]. *)
Theorem extract_mileage_returns overview rows :
  Forall (λ row, fuel_type_of strip lower row.1.1
                 ∉ ["overview"; "fuel_tank_capacity"]) rows →
  ∃ mileage_data,
    _extract_mileage_data strip lower overview rows = inr mileage_data.
Proof.
  unfold _extract_mileage_data.
  generalize (mileage_start_shape overview).
  generalize (if truthy (PStr overview)
              then <[K "overview" := PStr (strip overview)]> mileage_init
              else mileage_init).
  intros md Hshape Hrows. revert md Hshape.
  induction Hrows as [|[[fc tr] mi] rows Hrow _ IH]; intros md Hshape.
  { by eexists. }
  cbn [mileage_rows].
  destruct (mileage_row_cases _ fc tr mi md
              (overview_value_plain overview) Hshape)
    as [[Heq _]|[(d&_&_&_&_&Heq)|[_ [_ Hbad]]]]; [| |done].
  - rewrite Heq. by apply IH.
  - pose proof (mileage_row_shape _ _ _ _
                  (overview_value_plain overview) Hshape Heq).
    rewrite Heq. by apply IH.
Qed.

(** A row with a text in each cell that is filed under
    ["fuel_tank_capacity"] (the fuel cell reads so, in any case and with
    anything after an opening parenthesis) ends [_extract_mileage_data]
    with [TypeError], when the rows before it let it get that far. *)
Theorem extract_mileage_type_error overview good row rest :
  Forall (λ row, fuel_type_of strip lower row.1.1
                 ∉ ["overview"; "fuel_tank_capacity"]) good →
  filled_row row →
  fuel_type_of strip lower row.1.1 = "fuel_tank_capacity" →
  _extract_mileage_data strip lower overview (good ++ row :: rest)
    = inl TypeError.
Proof.
  intros Hgood Hfill Hft.
  destruct (extract_mileage_returns overview good Hgood) as [md Hmd].
  pose proof (extract_mileage_shape _ _ _ Hmd) as Hshape.
  unfold _extract_mileage_data in *. rewrite mileage_rows_app, Hmd.
  cbn [mileage_rows]. destruct row as [[fc tr] mi]. cbn [fst] in Hft.
  destruct (mileage_row_cases _ fc tr mi md
              (overview_value_plain overview) Hshape)
    as [[_ Hno]|[(d&_&Hslot&_)|[-> _]]]; [| |done].
  - unfold mileage_row. apply filled_row_truthy in Hfill as ->.
    destruct Hshape as (_&Hf&_). rewrite Hft, Hf. done.
  - rewrite Hft in Hslot.
    apply mileage_slots_spec in Hslot as [[? _]|[? _]]; done.
Qed.

(** A row filed under a fuel type other than the four keys of the result
    (a diesel row, say) is dropped: the result is the same as without
    it. *)
Theorem extract_mileage_other_fuel_dropped overview rows1 row rows2 :
  fuel_type_of strip lower row.1.1
    ∉ ["petrol"; "cng"; "overview"; "fuel_tank_capacity"] →
  _extract_mileage_data strip lower overview (rows1 ++ row :: rows2)
    = _extract_mileage_data strip lower overview (rows1 ++ rows2).
Proof.
  intros Hft. unfold _extract_mileage_data. rewrite !mileage_rows_app.
  destruct (mileage_rows strip lower rows1 _) as [e|md] eqn:E; [done|].
  pose proof (mileage_rows_shape _ _ _ _ (overview_value_plain overview)
                (mileage_start_shape overview) E) as (Hdom&_).
  cbn [mileage_rows]. destruct row as [[fc tr] mi]. cbn [fst] in Hft.
  assert (md !! K (fuel_type_of strip lower fc) = None) as Hnone.
  { apply not_elem_of_dom. rewrite Hdom. unfold mileage_keys.
    rewrite !not_elem_of_cons in Hft. destruct Hft as (?&?&?&?&_).
    rewrite !elem_of_union, !elem_of_singleton.
    intros [[[[= ?]|[= ?]]|[= ?]]|[= ?]]; done. }
  unfold mileage_row. rewrite Hnone. by destruct (_ && _).
Qed.

(** A row with a text in each cell that is filed under one of the three
    places (petrol manual, petrol automatic, cng manual) writes its
    stripped mileage there, over what an earlier row wrote. *)
Theorem extract_mileage_row_written overview rows row mileage_data :
  _extract_mileage_data strip lower overview rows = inr mileage_data →
  filled_row row →
  (fuel_type_of strip lower row.1.1, strip (lower row.1.2)) ∈ mileage_slots →
  ∃ d, mileage_data !! K (fuel_type_of strip lower row.1.1) = Some (PDict d) ∧
       _extract_mileage_data strip lower overview (rows ++ [row])
         = inr (<[K (fuel_type_of strip lower row.1.1) :=
                    PDict (<[K (strip (lower row.1.2)) := PStr (strip row.2)]>
                             d)]> mileage_data).
Proof.
  intros Hmd Hfill Hslot.
  pose proof (extract_mileage_shape _ _ _ Hmd) as Hshape.
  unfold _extract_mileage_data in *. rewrite mileage_rows_app, Hmd.
  cbn [mileage_rows]. destruct row as [[fc tr] mi]. cbn [fst snd] in *.
  destruct (mileage_row_cases _ fc tr mi mileage_data
              (overview_value_plain overview) Hshape)
    as [[_ Hno]|[(d&_&_&Hd&_&->)|[_ [_ Hbad]]]].
  - by destruct (Hno Hfill).
  - by exists d.
  - rewrite !elem_of_cons, elem_of_nil in Hbad.
    apply mileage_slots_spec in Hslot as [[Hft _]|[Hft _]];
      rewrite Hft in Hbad; naive_solver.
Qed.

End MileageProperties.
(** ** [_extract_mileage_data] on a concrete table *)

Lemma extract_mileage_shape_witness :
  mileage_shape (overview_value DemoCars.strip DemoMileage.overview)
    DemoMileage.result.
Proof.
  apply (extract_mileage_shape DemoCars.strip DemoCars.lower
           DemoMileage.overview DemoMileage.rows DemoMileage.result).
  vm_compute. reflexivity.
Defined.

Lemma extract_mileage_returns_witness :
  ∃ mileage_data,
    _extract_mileage_data DemoCars.strip DemoCars.lower DemoMileage.overview
      DemoMileage.rows = inr mileage_data.
Proof.
  apply (extract_mileage_returns DemoCars.strip DemoCars.lower
           DemoMileage.overview DemoMileage.rows).
  repeat constructor; by apply (bool_decide_unpack _).
Defined.

Lemma extract_mileage_type_error_witness :
  _extract_mileage_data DemoCars.strip DemoCars.lower DemoMileage.overview
    ([DemoMileage.petrol_row] ++ DemoMileage.tank_row :: [DemoMileage.cng_row])
    = inl TypeError.
Proof.
  apply (extract_mileage_type_error DemoCars.strip DemoCars.lower
           DemoMileage.overview [DemoMileage.petrol_row] DemoMileage.tank_row
           [DemoMileage.cng_row]).
  - repeat constructor; by apply (bool_decide_unpack _).
  - by split_and!.
  - reflexivity.
Defined.

Lemma extract_mileage_other_fuel_dropped_witness :
  _extract_mileage_data DemoCars.strip DemoCars.lower DemoMileage.overview
    ([DemoMileage.petrol_row] ++ DemoMileage.diesel_row
                              :: [DemoMileage.cng_row])
    = _extract_mileage_data DemoCars.strip DemoCars.lower DemoMileage.overview
        ([DemoMileage.petrol_row] ++ [DemoMileage.cng_row]).
Proof.
  apply (extract_mileage_other_fuel_dropped DemoCars.strip DemoCars.lower
           DemoMileage.overview [DemoMileage.petrol_row]
           DemoMileage.diesel_row [DemoMileage.cng_row]).
  by apply (bool_decide_unpack _).
Defined.

Lemma extract_mileage_row_written_witness :
  ∃ d,
    DemoMileage.result
      !! K (fuel_type_of DemoCars.strip DemoCars.lower "petrol")
      = Some (PDict d) ∧
    _extract_mileage_data DemoCars.strip DemoCars.lower DemoMileage.overview
      (DemoMileage.rows ++ [("petrol", "manual", "25 kmpl")])
      = inr (<[K (fuel_type_of DemoCars.strip DemoCars.lower "petrol") :=
                 PDict (<[K (DemoCars.strip (DemoCars.lower "manual")) :=
                            PStr (DemoCars.strip "25 kmpl")]> d)]>
               DemoMileage.result).
Proof.
  apply (extract_mileage_row_written DemoCars.strip DemoCars.lower
           DemoMileage.overview DemoMileage.rows
           ("petrol", "manual", "25 kmpl") DemoMileage.result).
  - vm_compute. reflexivity.
  - by split_and!.
  - by apply (bool_decide_unpack _).
Defined.
(** ** [_extract_price_data] *)

Section PriceProperties.

Variable strip lower remove_mark : string → string.

Lemma for_each_step {A} (body : dict → A → exn + dict) x l d d' :
  body d x = inr d' → for_each body (x :: l) d = for_each body l d'.
Proof. intros H. cbn [for_each]. by rewrite H. Qed.

(** A turn of the first loop for a key without a dot. *)
Lemma price_item_plain values price_data html_id data_key :
  occurs "." data_key = false →
  price_data !! K data_key = Some PNone →
  price_item strip remove_mark values price_data (html_id, data_key)
    = inr (<[K data_key := price_field strip remove_mark values html_id]>
             price_data).
Proof.
  intros Hdot Hkey. unfold price_item, price_field. rewrite Hdot.
  destruct (values html_id) as [v|]; [destruct (truthy (PStr v))|];
    try done; by rewrite insert_id.
Qed.

(** The turn for [other_charges.total]. *)
Lemma price_item_total values price_data other :
  price_data !! K "other_charges" = Some (PDict other) →
  other !! K "total" = Some PNone →
  price_item strip remove_mark values price_data
    ("price-other-charges", "other_charges.total")
    = inr (<[K "other_charges" :=
               PDict (<[K "total" := price_field strip remove_mark values
                                       "price-other-charges"]> other)]>
             price_data).
Proof.
  intros Hother Htotal. unfold price_item, price_field.
  assert (occurs "." "other_charges.total" = true) as -> by reflexivity.
  assert (split_char "."%char "other_charges.total"
          = ["other_charges"; "total"]) as -> by reflexivity.
  rewrite Hother. cbn [setitem_in].
  destruct (values "price-other-charges") as [v|];
    [destruct (truthy (PStr v))|]; try done;
    by rewrite (insert_id other), insert_id.
Qed.

(** The first loop never raises: the only dotted key names a dictionary of
    [price_data]. *)
Lemma price_items_eq values :
  for_each (price_item strip remove_mark values) price_mapping price_init
    = inr (price_fields strip remove_mark values).
Proof.
  unfold price_mapping, price_fields.
  do 3 (erewrite for_each_step
          by (apply price_item_plain; vm_compute; reflexivity)).
  erewrite for_each_step
    by (eapply price_item_total; vm_compute; reflexivity).
  erewrite for_each_step
    by (apply price_item_plain; vm_compute; reflexivity).
  cbn [for_each]. reflexivity.
Qed.

(** The second loop writes into [other_charges.breakdown] only. *)
Lemma price_charges_spec charges price_data other b0 :
  price_data !! K "other_charges" = Some (PDict other) →
  other !! K "breakdown" = Some (PDict b0) →
  ∃ b,
    for_each (price_charge strip lower) charges price_data
      = inr (<[K "other_charges" := PDict (<[K "breakdown" := PDict b]> other)]>
               price_data) ∧
    (∀ k v, b !! k = Some v →
       b0 !! k = Some v ∨
       ∃ label value, (label, value) ∈ charges ∧
                      strip label ≠ "" ∧ strip value ≠ "" ∧
                      k = K (lower (strip label)) ∧ v = PStr (strip value)) ∧
    (∀ k, is_Some (b0 !! k) → is_Some (b !! k)) ∧
    (∀ label value, (label, value) ∈ charges →
       strip label ≠ "" → strip value ≠ "" →
       is_Some (b !! K (lower (strip label)))).
Proof.
  revert price_data other b0.
  induction charges as [|[label value] charges IH];
    intros price_data other b0 Hother Hb0.
  { exists b0. cbn [for_each]. split_and!.
    - f_equal. rewrite (insert_id other), insert_id; done.
    - auto.
    - auto.
    - intros ?? []%elem_of_nil. }
  cbn [for_each]. unfold price_charge at 1. cbn [fst snd].
  destruct (truthy (PStr (strip label)) && truthy (PStr (strip value))) eqn:E.
  - apply andb_true_iff in E as [El Ev]. apply truthy_str in El, Ev.
    rewrite Hother, Hb0. cbn [setitem_in].
    set (b1 := <[K (lower (strip label)) := PStr (strip value)]> b0).
    destruct (IH (<[K "other_charges" :=
                      PDict (<[K "breakdown" := PDict b1]> other)]> price_data)
                 (<[K "breakdown" := PDict b1]> other) b1)
      as (b&Heq&Hval&Hkeep&Hkeys).
    { by rewrite lookup_insert_eq. }
    { by rewrite lookup_insert_eq. }
    exists b. rewrite Heq, !insert_insert_eq. split_and!; [done| | |].
    + intros k v Hk. destruct (Hval k v Hk) as [Hb1|(l&x&Hin&?)].
      * unfold b1 in Hb1. apply lookup_insert_Some in Hb1 as [[<- <-]|[_ ?]].
        -- right. exists label, value. split_and!; [by left|done..].
        -- by left.
      * right. exists l, x. split; [by right|done].
    + intros k Hk. apply Hkeep. unfold b1.
      destruct (decide (K (lower (strip label)) = k)) as [<-|Hne].
      * by rewrite lookup_insert_eq.
      * by rewrite lookup_insert_ne.
    + intros l x [[= -> ->]|Hin]%elem_of_cons Hl Hx.
      * apply Hkeep. unfold b1. by rewrite lookup_insert_eq.
      * by apply (Hkeys l x).
  - destruct (IH price_data other b0 Hother Hb0) as (b&Heq&Hval&Hkeep&Hkeys).
    exists b. split_and!; [done| |done|].
    + intros k v Hk. destruct (Hval k v Hk) as [?|(l&x&Hin&?)]; [by left|].
      right. exists l, x. split; [by right|done].
    + intros l x [[= -> ->]|Hin]%elem_of_cons Hl Hx.
      * apply truthy_str in Hl, Hx. rewrite Hl, Hx in E. done.
      * by apply (Hkeys l x).
Qed.

(** [_extract_price_data] never raises.  Its result has exactly the keys
    [ex_showroom], [rto], [insurance], [other_charges], [on_road] and
    [city]; [city] is ["New Delhi"]; each of the four prices is the cleaned
    text of its element, [None] when that element is missing or empty;
    [other_charges] has exactly [total], filled likewise, and [breakdown],
    which has one entry per lower-cased label of the charges whose stripped
    label and value are both non-empty, each with the stripped value of
    such a charge. *)
Theorem extract_price_fields values charges :
  ∃ price_data breakdown,
    _extract_price_data strip lower remove_mark values charges
      = inr price_data ∧
    dom price_data = {[K "ex_showroom"; K "rto"; K "insurance";
                       K "other_charges"; K "on_road"; K "city"]} ∧
    price_data !! K "city" = Some (PStr "New Delhi") ∧
    price_data !! K "ex_showroom"
      = Some (price_field strip remove_mark values "price-ex-showroom") ∧
    price_data !! K "rto"
      = Some (price_field strip remove_mark values "price-rto") ∧
    price_data !! K "insurance"
      = Some (price_field strip remove_mark values "price-insurance") ∧
    price_data !! K "on_road"
      = Some (price_field strip remove_mark values "price-on-road") ∧
    price_data !! K "other_charges"
      = Some (PDict (<[K "total" := price_field strip remove_mark values
                                      "price-other-charges"]>
                       {[K "breakdown" := PDict breakdown]})) ∧
    (∀ k v, breakdown !! k = Some v →
       ∃ label value, (label, value) ∈ charges ∧
                      strip label ≠ "" ∧ strip value ≠ "" ∧
                      k = K (lower (strip label)) ∧ v = PStr (strip value)) ∧
    (∀ label value, (label, value) ∈ charges →
       strip label ≠ "" → strip value ≠ "" →
       is_Some (breakdown !! K (lower (strip label)))).
Proof.
  unfold _extract_price_data. rewrite price_items_eq.
  set (total := price_field strip remove_mark values "price-other-charges").
  destruct (price_charges_spec charges (price_fields strip remove_mark values)
              (<[K "total" := total]> {[K "breakdown" := PDict ∅]}) ∅)
    as (b&Heq&Hval&_&Hkeys).
  { unfold price_fields.
    by rewrite !lookup_insert_ne, lookup_insert_eq by done. }
  { by rewrite lookup_insert_ne, lookup_singleton_eq by done. }
  eexists _, b. split; [exact Heq|].
  unfold price_fields.
  split_and!.
  - rewrite !dom_insert_L, dom_singleton_L. set_solver.
  - by rewrite !lookup_insert_ne, lookup_singleton_eq by done.
  - by rewrite lookup_insert_ne, lookup_insert_eq by done.
  - by rewrite !lookup_insert_ne, lookup_insert_eq by done.
  - by rewrite !lookup_insert_ne, lookup_insert_eq by done.
  - by rewrite !lookup_insert_ne, lookup_insert_eq by done.
  - rewrite lookup_insert_eq. reflexivity.
  - intros k v Hk. destruct (Hval k v Hk) as [Hempty|?]; [|done].
    by rewrite lookup_empty in Hempty.
  - done.
Qed.

End PriceProperties.
(** ** [_extract_gallery_data] and the [srcset] of an image *)

Lemma has_char_app sep front rest :
  has_char sep (front +:+ String sep rest) = true.
Proof.
  induction front as [|c front IH].
  - change (has_char sep (String sep rest) = true). cbn [has_char].
    by rewrite Ascii.eqb_refl.
  - change (has_char sep (String c (front +:+ String sep rest)) = true).
    cbn [has_char]. rewrite IH. by destruct (Ascii.eqb c sep).
Qed.

(** [s.split(sep)[-1]] is what follows the last [sep]. *)
Lemma after_last_app sep front rest :
  has_char sep rest = false →
  after_last sep (front +:+ String sep rest) = rest.
Proof.
  intros Hrest. induction front as [|c front IH].
  - change (after_last sep (String sep rest) = rest). cbn [after_last].
    by rewrite Hrest, Ascii.eqb_refl.
  - change (after_last sep (String c (front +:+ String sep rest)) = rest).
    cbn [after_last]. by rewrite has_char_app.
Qed.

Section GalleryProperties.

Variable strip : string → string.

Lemma hq_url_of_spaced front last :
  has_char ","%char last = false →
  hq_url_of strip (front +:+ ", " +:+ last) = strip "".
Proof.
  intros Hlast. unfold hq_url_of.
  change (", " +:+ last) with (String ","%char (String " "%char last)).
  rewrite after_last_app.
  - reflexivity.
  - cbn [has_char]. by rewrite Hlast.
Qed.

Lemma image_entry_Some img v :
  image_entry strip img = Some v → has_url v.
Proof.
  unfold image_entry. destruct (truthy (PStr (img_src img))) eqn:E; [|done].
  intros [= <-]. apply truthy_str in E. eexists _, _. split; [done|].
  by rewrite lookup_insert_eq.
Qed.

Lemma colour_image_entry_Some img v :
  colour_image_entry strip img = Some v → has_url v.
Proof.
  unfold colour_image_entry.
  destruct (truthy (PStr (img_src img))) eqn:E; [|done].
  intros [= <-]. apply truthy_str in E. eexists _, _. split; [done|].
  by rewrite lookup_insert_eq.
Qed.

Lemma omap_has_url (f : image → option pyval) imgs :
  (∀ img v, f img = Some v → has_url v) → Forall has_url (omap f imgs).
Proof.
  intros Hf. apply Forall_forall. intros v Hv.
  apply list_elem_of_omap in Hv as (img&_&Himg). by eapply Hf.
Qed.

Lemma omap_image_entry_nil imgs :
  omap (image_entry strip) imgs = [] ↔
  ∀ img, img ∈ imgs → img_src img = "".
Proof.
  induction imgs as [|img imgs IH]; cbn [omap list_omap].
  { split; [|done]. by intros _ ? ?%elem_of_nil. }
  unfold image_entry at 1.
  destruct (truthy (PStr (img_src img))) eqn:E.
  - split; [done|]. intros Hall. apply truthy_str in E.
    destruct E. apply Hall. by left.
  - rewrite IH. split.
    + intros Hall x [->|Hx]%elem_of_cons; [|by apply Hall].
      destruct (decide (img_src img = "")) as [|Hne]; [done|].
      apply truthy_str in Hne. congruence.
    + intros Hall x Hx. apply Hall. by right.
Qed.

(** The images that the selector and its XPath fallback give for one
    section of the gallery. *)
Lemma gallery_section css xpath :
  let found := omap (image_entry strip) css in
  let section := if negb (truthy (PList found))
                 then found ++ omap (image_entry strip) xpath
                 else found in
  ((∃ img, img ∈ css ∧ img_src img ≠ "") → section = found) ∧
  ((∀ img, img ∈ css → img_src img = "") →
   section = omap (image_entry strip) xpath) ∧
  Forall has_url section.
Proof.
  intros found section. subst found section.
  destruct (omap (image_entry strip) css) as [|v found'] eqn:E;
    cbn [truthy negb length Nat.eqb].
  - pose proof (proj1 (omap_image_entry_nil css) E) as Hall. split_and!.
    + intros (img&Hin&Hsrc). destruct Hsrc. by apply Hall.
    + done.
    + apply omap_has_url, image_entry_Some.
  - split_and!.
    + done.
    + intros Hall. apply (proj2 (omap_image_entry_nil css)) in Hall.
      congruence.
    + rewrite <- E. apply omap_has_url, image_entry_Some.
Qed.

(** [_extract_gallery_data] gives exactly the lists [exterior], [interior]
    and [colors], and every entry in them has a non-empty [url].  The
    XPath fallback is used only when the CSS selector gave no image with a
    [src]: when it gave one, [exterior] holds the entries of the CSS images
    and nothing of the XPath ones; when it gave none, [exterior] holds the
    entries of the XPath images.  The same holds for [interior]. *)
Theorem extract_gallery_fallback
    (css_exterior css_interior color_images : list image)
    (xpath_exterior xpath_interior : list image) :
  ∃ exterior interior colors,
    _extract_gallery_data strip css_exterior css_interior color_images
      xpath_exterior xpath_interior
      = <[K "exterior" := PList exterior]>
        (<[K "interior" := PList interior]> {[K "colors" := PList colors]}) ∧
    Forall has_url (exterior ++ interior ++ colors) ∧
    ((∃ img, img ∈ css_exterior ∧ img_src img ≠ "") →
     exterior = omap (image_entry strip) css_exterior) ∧
    ((∀ img, img ∈ css_exterior → img_src img = "") →
     exterior = omap (image_entry strip) xpath_exterior) ∧
    ((∃ img, img ∈ css_interior ∧ img_src img ≠ "") →
     interior = omap (image_entry strip) css_interior) ∧
    ((∀ img, img ∈ css_interior → img_src img = "") →
     interior = omap (image_entry strip) xpath_interior).
Proof.
  destruct (gallery_section css_exterior xpath_exterior) as (He1&He2&He3).
  destruct (gallery_section css_interior xpath_interior) as (Hi1&Hi2&Hi3).
  eexists _, _, _. split; [reflexivity|].
  split_and!; [|done..].
  rewrite !Forall_app. split_and!; [done|done|].
  apply omap_has_url, colour_image_entry_Some.
Qed.

(** For an image with a [src] whose [srcset] has a space after its last
    comma (the usual way to write one), the [hq_url] of its gallery entry
    is not a URL of the [srcset] but the stripped empty string: the part
    after the last comma starts with the space at which it is cut. *)
Theorem gallery_hq_url_spaced_srcset img front last :
  img_src img ≠ "" →
  img_srcset img = front +:+ ", " +:+ last →
  has_char ","%char last = false →
  image_entry strip img
    = Some (PDict (<[K "url" := PStr (img_src img)]>
                  (<[K "alt" := PStr (img_alt img)]>
                  {[K "hq_url" := PStr (strip "")]}))).
Proof.
  intros Hsrc Hsrcset Hlast. unfold image_entry.
  apply truthy_str in Hsrc. rewrite Hsrc, Hsrcset.
  by rewrite hq_url_of_spaced.
Qed.

(** For a colour section with a name and an image whose [srcset] has a
    space after its last comma, [_extract_colours_data] takes the
    high-quality image from the [src], not from the [srcset]
    ([strip] gives [""] for [""]). *)
Theorem colour_hq_image_spaced_srcset sec front last :
  strip "" = "" →
  strip (colour_p sec) ≠ "" →
  colour_src sec ≠ "" →
  colour_srcset sec = front +:+ ", " +:+ last →
  has_char ","%char last = false →
  colour_entry strip sec
    = Some (PDict (<[K "name" := PStr (strip (colour_p sec))]>
                  (<[K "image" := PStr (colour_src sec)]>
                  (<[K "hq_image" := PStr (colour_src sec)]> ∅)))).
Proof.
  intros Hstrip Hname Hsrc Hsrcset Hlast. unfold colour_entry.
  apply truthy_str in Hname, Hsrc. rewrite Hname, Hsrc. cbn [andb].
  rewrite Hsrcset.
  change (strip (before " "%char (after_last ","%char
                                    (front +:+ ", " +:+ last))))
    with (hq_url_of strip (front +:+ ", " +:+ last)).
  rewrite hq_url_of_spaced by done. rewrite Hstrip.
  destruct (truthy (PStr (front +:+ ", " +:+ last)));
    by rewrite Hname.
Qed.

End GalleryProperties.

Lemma gallery_hq_url_spaced_srcset_witness :
  image_entry DemoCars.strip DemoGallery.front
    = Some (PDict (<[K "url" := PStr (img_src DemoGallery.front)]>
                  (<[K "alt" := PStr (img_alt DemoGallery.front)]>
                  {[K "hq_url" := PStr (DemoCars.strip "")]}))).
Proof.
  apply (gallery_hq_url_spaced_srcset DemoCars.strip DemoGallery.front
           "front-1x.jpg 1x" "front-2x.jpg 2x"); done.
Defined.

Lemma colour_hq_image_spaced_srcset_witness :
  colour_entry DemoCars.strip DemoGallery.red
    = Some (PDict (<[K "name" :=
                       PStr (DemoCars.strip (colour_p DemoGallery.red))]>
                  (<[K "image" := PStr (colour_src DemoGallery.red)]>
                  (<[K "hq_image" := PStr (colour_src DemoGallery.red)]>
                     ∅)))).
Proof.
  apply (colour_hq_image_spaced_srcset DemoCars.strip DemoGallery.red
           "red-1x.jpg 1x" "red-2x.jpg 2x"); done.
Defined.
